(** * Collision engine of THREE-game: shape colliders and CollisionSystem

    Shallow embedding of
      - js/collision/Collider.js         (Collider, ColliderType, CollisionLayer)
      - js/collision/SphereCollider.js   (SphereCollider)
      - js/collision/BoxCollider.js      (BoxCollider)
      - js/collision/CapsuleCollider.js  (CapsuleCollider)
      - js/collision/CylinderCollider.js (CylinderCollider)
      - js/collision/CollisionSystem.js  (CollisionSystem)

    Numbers.  JavaScript numbers are idealised as real numbers: no
    rounding, no NaN, no infinities.  Where JavaScript would divide by
    zero (the segment of a capsule whose height is twice its radius) the
    embedding says nothing of use.  Layer masks are naturals below 2^32.

    Objects.  A mutable object is a record that every method takes and
    gives back.  The THREE.Object3D a collider hangs on is a reference
    into a store of positions, because two colliders may share one.  The
    methods of THREE.Vector3 are those of three.js.

    Callbacks are recorded as events, in the order they are invoked; they
    are taken not to touch the system.  A TypeError ends the call it
    occurs in and leaves the state reached.  Debug meshes and the [stats]
    counters are rendering and profiling state and are left out. *)

From Stdlib Require Import Reals Lra Lia Psatz String Ascii List Bool NArith Sorted.
From stdpp Require Import base decidable relations list strings.
Import ListNotations.
Open Scope R_scope.

(** ** JavaScript numbers *)

#[global] Instance Rlt_decision (a b : R) : Decision (a < b) := Rlt_dec a b.
#[global] Instance Rle_decision (a b : R) : Decision (a <= b) := Rle_dec a b.
#[global] Instance Rgt_decision (a b : R) : Decision (a > b) := Rgt_dec a b.
#[global] Instance Rge_decision (a b : R) : Decision (a >= b) := Rge_dec a b.
#[global] Instance Req_decision : EqDecision R := Req_dec_T.

(** The comparison operators on numbers. *)
Definition num_lt (a b : R) : bool := bool_decide (a < b).
Definition num_le (a b : R) : bool := bool_decide (a <= b).
Definition num_gt (a b : R) : bool := bool_decide (a > b).
Definition num_ge (a b : R) : bool := bool_decide (a >= b).
Definition num_eq (a b : R) : bool := bool_decide (a = b).
Definition num_ne (a b : R) : bool := bool_decide (a <> b).

(** [a || d] on numbers: [d] when [a] is falsy, that is when it is 0. *)
Definition num_or (a d : R) : R := if num_eq a 0 then d else a.

(** [Math.max(lo, Math.min(v, hi))] *)
Definition clamp (lo v hi : R) : R := Rmax lo (Rmin v hi).

(** ** THREE.Vector3 *)

Module Vector3.

Record t : Type := mk { x : R; y : R; z : R }.

Definition zero : t := mk 0 0 0.

Definition add (a v : t) : t := mk (x a + x v) (y a + y v) (z a + z v).

Definition sub (a v : t) : t := mk (x a - x v) (y a - y v) (z a - z v).

Definition subVectors (a b : t) : t := mk (x a - x b) (y a - y b) (z a - z b).

Definition multiplyScalar (v : t) (s : R) : t := mk (x v * s) (y v * s) (z v * s).

Definition divideScalar (v : t) (s : R) : t := multiplyScalar v (1 / s).

Definition addScaledVector (a v : t) (s : R) : t :=
  mk (x a + x v * s) (y a + y v * s) (z a + z v * s).

Definition negate (v : t) : t := mk (- x v) (- y v) (- z v).

Definition dot (a v : t) : R := x a * x v + y a * y v + z a * z v.

Definition lengthSq (v : t) : R := x v * x v + y v * y v + z v * z v.

Definition length (v : t) : R := sqrt (lengthSq v).

(** [normalize() { return this.divideScalar(this.length() || 1) }] *)
Definition normalize (v : t) : t := divideScalar v (num_or (length v) 1).

Definition distanceToSquared (a v : t) : R :=
  let dx := x a - x v in
  let dy := y a - y v in
  let dz := z a - z v in
  dx * dx + dy * dy + dz * dz.

Definition distanceTo (a v : t) : R := sqrt (distanceToSquared a v).

Definition setX (v : t) (r : R) : t := mk r (y v) (z v).
Definition setY (v : t) (r : R) : t := mk (x v) r (z v).
Definition setZ (v : t) (r : R) : t := mk (x v) (y v) r.

End Vector3.

(** ** Collider.js *)

Inductive ColliderType : Type := SPHERE | BOX | CAPSULE.

#[global] Instance ColliderType_eq_dec : EqDecision ColliderType.
Proof. solve_decision. Defined.

(** [CollisionLayer]: masks of 32 bits. *)
Module CollisionLayer.
Definition NONE : N := 0%N.
Definition PLAYER : N := 1%N.
Definition REMOTE_PLAYER : N := 2%N.
Definition NPC : N := 4%N.
Definition ENVIRONMENT : N := 8%N.
Definition GROUND : N := 16%N.
Definition TRIGGER : N := 32%N.
Definition ALL : N := 4294967295%N.
End CollisionLayer.

(** The four classes that extend Collider, with the fields each adds.
    [min]/[max], [pointA]/[pointB], [bottomPoint]/[topPoint] are caches
    that the methods refresh. *)
Inductive Shape : Type :=
| SphereShape (radius : R)
| BoxShape (size min max : Vector3.t)
| CapsuleShape (radius height : R) (pointA pointB : Vector3.t)
| CylinderShape (radius height : R) (bottomPoint topPoint min max : Vector3.t).

(** The tag each subclass hands to [super]: [ColliderType.SPHERE],
    [ColliderType.BOX], [ColliderType.CAPSULE], and for the cylinder
    [ColliderType.CYLINDER], a key the ColliderType object does not have,
    hence [undefined]. *)
Definition class_tag (s : Shape) : option ColliderType :=
  match s with
  | SphereShape _ => Some SPHERE
  | BoxShape _ _ _ => Some BOX
  | CapsuleShape _ _ _ _ => Some CAPSULE
  | CylinderShape _ _ _ _ _ _ => None
  end.

(** [this.type = options.type || ColliderType.SPHERE] *)
Definition ctor_type (tag : option ColliderType) : ColliderType :=
  match tag with Some ty => ty | None => SPHERE end.

Record Collider : Type := mkCollider {
  self : nat;                       (* identity of the object, for [===] *)
  id : string;
  shape : Shape;
  layer : N;
  collidesWithMask : N;
  isTrigger : bool;
  isStatic : bool;
  enabled : bool;
  parent : option nat;              (* reference to a THREE.Object3D, or null *)
  offset : Vector3.t;
  worldPosition : Vector3.t;
  onCollisionEnter : bool;          (* is a callback installed *)
  onCollisionStay : bool;
  onCollisionExit : bool;
  activeCollisions : list string    (* a Set, in insertion order *)
}.

(** [type] is assigned once, by the constructor, from the class. *)
Definition type (c : Collider) : ColliderType := ctor_type (class_tag (shape c)).

(** [radius] of the classes that have one.  BoxCollider has none; the one
    place CollisionSystem reads it from a box is [other.radius || 0]. *)
Definition radius (c : Collider) : R :=
  match shape c with
  | SphereShape r => r
  | BoxShape _ _ _ => 0
  | CapsuleShape r _ _ _ => r
  | CylinderShape r _ _ _ _ _ => r
  end.

(** Positions of the Object3D's, by reference. *)
Definition Scene : Type := nat -> Vector3.t.

Definition set_position (T : Scene) (p : nat) (v : Vector3.t) : Scene :=
  fun q => if decide (q = p) then v else T q.

Definition with_worldPosition (c : Collider) (v : Vector3.t) : Collider :=
  mkCollider (self c) (id c) (shape c) (layer c) (collidesWithMask c)
    (isTrigger c) (isStatic c) (enabled c) (parent c) (offset c) v
    (onCollisionEnter c) (onCollisionStay c) (onCollisionExit c)
    (activeCollisions c).

Definition with_shape (c : Collider) (s : Shape) : Collider :=
  mkCollider (self c) (id c) s (layer c) (collidesWithMask c)
    (isTrigger c) (isStatic c) (enabled c) (parent c) (offset c)
    (worldPosition c)
    (onCollisionEnter c) (onCollisionStay c) (onCollisionExit c)
    (activeCollisions c).

Definition with_activeCollisions (c : Collider) (s : list string) : Collider :=
  mkCollider (self c) (id c) (shape c) (layer c) (collidesWithMask c)
    (isTrigger c) (isStatic c) (enabled c) (parent c) (offset c)
    (worldPosition c)
    (onCollisionEnter c) (onCollisionStay c) (onCollisionExit c) s.

(** The [options] object given to a constructor.  A field that is absent
    is [None]; of a callback only whether it is given is kept. *)
Record Options : Type := mkOptions {
  opt_id : option string;
  opt_layer : option N;
  opt_collidesWithMask : option N;
  opt_isTrigger : option bool;
  opt_isStatic : option bool;
  opt_parent : option nat;
  opt_offset : option Vector3.t;
  opt_onCollisionEnter : bool;
  opt_onCollisionStay : bool;
  opt_onCollisionExit : bool;
  opt_radius : option R;
  opt_height : option R;
  opt_size : option Vector3.t
}.

(** [a || d] on a field of [options]: [d] when the field is absent or
    falsy (the empty string, 0, false). *)
Definition string_or (a : option string) (d : string) : string :=
  match a with
  | Some s => if String.eqb s EmptyString then d else s
  | None => d
  end.

Definition mask_or (a : option N) (d : N) : N :=
  match a with
  | Some n => if N.eqb n 0 then d else n
  | None => d
  end.

Definition flag_or (a : option bool) (d : bool) : bool :=
  match a with
  | Some true => true
  | _ => d
  end.

Definition number_or (a : option R) (d : R) : R :=
  match a with
  | Some r => num_or r d
  | None => d
  end.

Definition object_or {A : Type} (a : option A) (d : A) : A :=
  match a with
  | Some v => v
  | None => d
  end.

Module ColliderBase.

(** [Collider.updateWorldPosition] *)
Definition updateWorldPosition (T : Scene) (c : Collider) : Collider :=
  match parent c with
  | Some p => with_worldPosition c (Vector3.add (T p) (offset c))
  | None => c
  end.

(** [Collider.canCollideWith] *)
Definition canCollideWith (this other : Collider) : bool :=
  if negb (enabled this) || negb (enabled other) then false
  else if Nat.eqb (self this) (self other) then false
  else
    let thisCanHitOther := negb (N.eqb (N.land (collidesWithMask this) (layer other)) 0) in
    let otherCanHitThis := negb (N.eqb (N.land (collidesWithMask other) (layer this)) 0) in
    thisCanHitOther && otherCanHitThis.

(** [Collider.dispose], without the debug mesh *)
Definition dispose (c : Collider) : Collider := with_activeCollisions c [].

(** The constructor of [Collider], for the new object [ref]; [uuid] is
    what [crypto.randomUUID()] gives, and [fields] are the fields the
    subclass sets once [super] has returned (its [type] comes with them). *)
Definition constructor (ref : nat) (uuid : string) (fields : Shape) (options : Options)
  : Collider :=
  mkCollider ref
    (string_or (opt_id options) uuid)
    fields
    (mask_or (opt_layer options) CollisionLayer.ENVIRONMENT)
    (mask_or (opt_collidesWithMask options) CollisionLayer.ALL)
    (flag_or (opt_isTrigger options) false)
    (flag_or (opt_isStatic options) false)
    true
    (opt_parent options)
    (object_or (opt_offset options) (Vector3.mk 0 0 0))
    Vector3.zero
    (opt_onCollisionEnter options) (opt_onCollisionStay options)
    (opt_onCollisionExit options)
    [].

End ColliderBase.

(** What the narrow-phase methods read of their sphere argument. *)
Record SphereArg : Type := mkSphereArg {
  sa_worldPosition : Vector3.t;
  sa_radius : R
}.

Definition as_sphere (c : Collider) : SphereArg :=
  mkSphereArg (worldPosition c) (radius c).

Record Response : Type := mkResponse {
  direction : Vector3.t;
  overlap : R;
  normal : Vector3.t
}.

(** ** SphereCollider.js *)

Module SphereCollider.

Definition intersectsSphere (this : Collider) (other : SphereArg) : bool :=
  let distance := Vector3.distanceTo (worldPosition this) (sa_worldPosition other) in
  let combinedRadius := radius this + sa_radius other in
  num_lt distance combinedRadius.

Definition getCollisionResponse (this : Collider) (other : SphereArg) : Response :=
  let direction :=
    Vector3.normalize (Vector3.subVectors (worldPosition this) (sa_worldPosition other)) in
  let distance := Vector3.distanceTo (worldPosition this) (sa_worldPosition other) in
  let overlap := radius this + sa_radius other - distance in
  mkResponse direction (Rmax 0 overlap) direction.

Definition constructor (ref : nat) (uuid : string) (options : Options) : Collider :=
  ColliderBase.constructor ref uuid
    (SphereShape (number_or (opt_radius options) (1 / 2))) options.

End SphereCollider.

(** [min] and [max] of the classes that keep an AABB. *)
Definition bounds_min (c : Collider) : Vector3.t :=
  match shape c with
  | BoxShape _ mn _ => mn
  | CylinderShape _ _ _ _ mn _ => mn
  | _ => Vector3.zero
  end.

Definition bounds_max (c : Collider) : Vector3.t :=
  match shape c with
  | BoxShape _ _ mx => mx
  | CylinderShape _ _ _ _ _ mx => mx
  | _ => Vector3.zero
  end.

(** ** BoxCollider.js *)

Module BoxCollider.

Definition updateBounds (this : Collider) : Collider :=
  match shape this with
  | BoxShape size _ _ =>
      let halfSize := Vector3.multiplyScalar size (1 / 2) in
      with_shape this
        (BoxShape size
           (Vector3.sub (worldPosition this) halfSize)
           (Vector3.add (worldPosition this) halfSize))
  | _ => this
  end.

Definition intersectsBox (this other : Collider) : bool * Collider * Collider :=
  let this := updateBounds this in
  let other := updateBounds other in
  let mn := bounds_min this in
  let mx := bounds_max this in
  let omn := bounds_min other in
  let omx := bounds_max other in
  (num_le (Vector3.x mn) (Vector3.x omx) &&
   num_ge (Vector3.x mx) (Vector3.x omn) &&
   num_le (Vector3.y mn) (Vector3.y omx) &&
   num_ge (Vector3.y mx) (Vector3.y omn) &&
   num_le (Vector3.z mn) (Vector3.z omx) &&
   num_ge (Vector3.z mx) (Vector3.z omn),
   this, other).

(** The point of the AABB closest to [p]. *)
Definition closestPoint (this : Collider) (p : Vector3.t) : Vector3.t :=
  let mn := bounds_min this in
  let mx := bounds_max this in
  Vector3.mk
    (clamp (Vector3.x mn) (Vector3.x p) (Vector3.x mx))
    (clamp (Vector3.y mn) (Vector3.y p) (Vector3.y mx))
    (clamp (Vector3.z mn) (Vector3.z p) (Vector3.z mx)).

Definition intersectsSphere (this : Collider) (sphereCollider : SphereArg)
  : bool * Collider :=
  let this := updateBounds this in
  let closest := closestPoint this (sa_worldPosition sphereCollider) in
  let distance := Vector3.distanceTo closest (sa_worldPosition sphereCollider) in
  (num_lt distance (sa_radius sphereCollider), this).

Definition getCollisionResponseForSphere (this : Collider) (sphereCollider : SphereArg)
  : Response * Collider :=
  let this := updateBounds this in
  let closest := closestPoint this (sa_worldPosition sphereCollider) in
  let direction :=
    Vector3.normalize (Vector3.subVectors (sa_worldPosition sphereCollider) closest) in
  let distance := Vector3.distanceTo closest (sa_worldPosition sphereCollider) in
  let overlap := sa_radius sphereCollider - distance in
  (mkResponse direction (Rmax 0 overlap) direction, this).

Definition constructor (ref : nat) (uuid : string) (options : Options) : Collider :=
  ColliderBase.constructor ref uuid
    (BoxShape (object_or (opt_size options) (Vector3.mk 1 1 1)) Vector3.zero Vector3.zero)
    options.

End BoxCollider.

(** ** CapsuleCollider.js *)

Module CapsuleCollider.

Definition pointA (c : Collider) : Vector3.t :=
  match shape c with CapsuleShape _ _ a _ => a | _ => Vector3.zero end.

Definition pointB (c : Collider) : Vector3.t :=
  match shape c with CapsuleShape _ _ _ b => b | _ => Vector3.zero end.

Definition updateCapsulePoints (this : Collider) : Collider :=
  match shape this with
  | CapsuleShape r h _ _ =>
      let halfHeight := (h - r * 2) / 2 in
      let wp := worldPosition this in
      with_shape this
        (CapsuleShape r h
           (Vector3.setY wp (Vector3.y wp - halfHeight))
           (Vector3.setY wp (Vector3.y wp + halfHeight)))
  | _ => this
  end.

(** The quotient is 0/0 for a segment of length 0 (a capsule whose height
    is twice its radius): NaN in JS, which a real quotient does not show.
    What is proved of the point returned takes the segment to have a
    length. *)
Definition closestPointOnSegment (point segStart segEnd : Vector3.t) : Vector3.t :=
  let seg := Vector3.subVectors segEnd segStart in
  let t := Rmax 0 (Rmin 1
             (Vector3.dot (Vector3.subVectors point segStart) seg / Vector3.lengthSq seg)) in
  Vector3.addScaledVector segStart seg t.

Definition closestPointsOnSegments (a1 a2 b1 b2 : Vector3.t) : Vector3.t * Vector3.t :=
  let d1 := Vector3.subVectors a2 a1 in
  let d2 := Vector3.subVectors b2 b1 in
  let r := Vector3.subVectors a1 b1 in
  let a := Vector3.dot d1 d1 in
  let e := Vector3.dot d2 d2 in
  let f := Vector3.dot d2 r in
  let '(s, t) :=
    if num_le a (1 / 10000) && num_le e (1 / 10000) then (0, 0)
    else if num_le a (1 / 10000) then (0, Rmax 0 (Rmin 1 (f / e)))
    else
      let c := Vector3.dot d1 r in
      if num_le e (1 / 10000) then (Rmax 0 (Rmin 1 (- c / a)), 0)
      else
        let b := Vector3.dot d1 d2 in
        let denom := a * e - b * b in
        let s := if num_ne denom 0
                 then Rmax 0 (Rmin 1 ((b * f - c * e) / denom))
                 else 0 in
        let t := (b * s + f) / e in
        if num_lt t 0 then (Rmax 0 (Rmin 1 (- c / a)), 0)
        else if num_gt t 1 then (Rmax 0 (Rmin 1 ((b - c) / a)), 1)
        else (s, t) in
  (Vector3.addScaledVector a1 d1 s, Vector3.addScaledVector b1 d2 t).

Definition intersectsCapsule (this other : Collider) : bool * Collider * Collider :=
  let this := updateCapsulePoints this in
  let other := updateCapsulePoints other in
  let '(closestA, closestB) :=
    closestPointsOnSegments (pointA this) (pointB this) (pointA other) (pointB other) in
  let distance := Vector3.distanceTo closestA closestB in
  let combinedRadius := radius this + radius other in
  (num_lt distance combinedRadius, this, other).

Definition intersectsSphere (this : Collider) (sphereCollider : SphereArg)
  : bool * Collider :=
  let this := updateCapsulePoints this in
  let closest :=
    closestPointOnSegment (sa_worldPosition sphereCollider) (pointA this) (pointB this) in
  let distance := Vector3.distanceTo closest (sa_worldPosition sphereCollider) in
  let combinedRadius := radius this + sa_radius sphereCollider in
  (num_lt distance combinedRadius, this).

Definition getCollisionResponse (this other : Collider)
  : Response * Collider * Collider :=
  let this := updateCapsulePoints this in
  let '(closestOnThis, closestOnOther, other) :=
    if decide (type other = CAPSULE) then
      let other := updateCapsulePoints other in
      let '(closestA, closestB) :=
        closestPointsOnSegments (pointA this) (pointB this) (pointA other) (pointB other) in
      (closestA, closestB, other)
    else
      (closestPointOnSegment (worldPosition other) (pointA this) (pointB this),
       worldPosition other, other) in
  let direction := Vector3.normalize (Vector3.subVectors closestOnThis closestOnOther) in
  let distance := Vector3.distanceTo closestOnThis closestOnOther in
  let combinedRadius := radius this + num_or (radius other) 0 in
  let overlap := combinedRadius - distance in
  (mkResponse direction (Rmax 0 overlap) direction, this, other).

Definition constructor (ref : nat) (uuid : string) (options : Options) : Collider :=
  ColliderBase.constructor ref uuid
    (CapsuleShape (number_or (opt_radius options) (3 / 10))
       (number_or (opt_height options) (18 / 10)) Vector3.zero Vector3.zero)
    options.

End CapsuleCollider.

(** ** CylinderCollider.js *)

Module CylinderCollider.

(** The override: [super.updateWorldPosition()], then the axis end points
    and the AABB from the (possibly unchanged) world position. *)
Definition updateWorldPosition (T : Scene) (this : Collider) : Collider :=
  let this := ColliderBase.updateWorldPosition T this in
  match shape this with
  | CylinderShape r h _ _ _ _ =>
      let halfHeight := h / 2 in
      let wp := worldPosition this in
      with_shape this
        (CylinderShape r h
           (Vector3.setY wp (Vector3.y wp - halfHeight))
           (Vector3.setY wp (Vector3.y wp + halfHeight))
           (Vector3.mk (Vector3.x wp - r) (Vector3.y wp - halfHeight) (Vector3.z wp - r))
           (Vector3.mk (Vector3.x wp + r) (Vector3.y wp + halfHeight) (Vector3.z wp + r)))
  | _ => this
  end.

Definition height (c : Collider) : R :=
  match shape c with CylinderShape _ h _ _ _ _ => h | _ => 0 end.

Definition intersectsSphere (this : Collider) (sphereCollider : SphereArg) : bool :=
  let sp := sa_worldPosition sphereCollider in
  let wp := worldPosition this in
  let closestY :=
    clamp (Vector3.y (bounds_min this)) (Vector3.y sp) (Vector3.y (bounds_max this)) in
  let dx := Vector3.x sp - Vector3.x wp in
  let dz := Vector3.z sp - Vector3.z wp in
  let distSqHorizontal := dx * dx + dz * dz in
  if num_gt distSqHorizontal ((radius this + sa_radius sphereCollider) ^ 2)
  then false
  else
    let closestOnAxis := Vector3.mk (Vector3.x wp) closestY (Vector3.z wp) in
    let toSphere := Vector3.mk dx 0 dz in
    let closestOnSurface :=
      if num_gt (Vector3.lengthSq toSphere) 0
      then Vector3.add closestOnAxis
             (Vector3.multiplyScalar (Vector3.normalize toSphere) (radius this))
      else closestOnAxis in
    num_lt (Vector3.distanceTo closestOnSurface sp) (sa_radius sphereCollider).

Definition intersectsBox (T : Scene) (this boxCollider : Collider)
  : bool * Collider * Collider :=
  let this := updateWorldPosition T this in
  let boxCollider := BoxCollider.updateBounds boxCollider in
  let mn := bounds_min this in
  let mx := bounds_max this in
  let bmn := bounds_min boxCollider in
  let bmx := bounds_max boxCollider in
  let wp := worldPosition this in
  if num_lt (Vector3.x mx) (Vector3.x bmn) || num_gt (Vector3.x mn) (Vector3.x bmx) ||
     num_lt (Vector3.y mx) (Vector3.y bmn) || num_gt (Vector3.y mn) (Vector3.y bmx) ||
     num_lt (Vector3.z mx) (Vector3.z bmn) || num_gt (Vector3.z mn) (Vector3.z bmx)
  then (false, this, boxCollider)
  else
    let closestX := clamp (Vector3.x bmn) (Vector3.x wp) (Vector3.x bmx) in
    let closestZ := clamp (Vector3.z bmn) (Vector3.z wp) (Vector3.z bmx) in
    let dx := closestX - Vector3.x wp in
    let dz := closestZ - Vector3.z wp in
    (num_lt (dx * dx + dz * dz) (radius this * radius this), this, boxCollider).

(** [Math.min(dx1, dx2, dy1, dy2, dz1, dz2)] *)
Definition min6 (a b c d e f : R) : R := Rmin a (Rmin b (Rmin c (Rmin d (Rmin e f)))).

Definition getCollisionResponseForBox (this boxCollider : Collider) : Response :=
  let wp := worldPosition this in
  let bmn := bounds_min boxCollider in
  let bmx := bounds_max boxCollider in
  let closest := BoxCollider.closestPoint boxCollider wp in
  let inside :=
    num_gt (Vector3.x wp) (Vector3.x bmn) && num_lt (Vector3.x wp) (Vector3.x bmx) &&
    num_gt (Vector3.y wp) (Vector3.y bmn) && num_lt (Vector3.y wp) (Vector3.y bmx) &&
    num_gt (Vector3.z wp) (Vector3.z bmn) && num_lt (Vector3.z wp) (Vector3.z bmx) in
  let direction := Vector3.subVectors wp closest in
  let distance := Vector3.length direction in
  if inside || num_lt distance (1 / 1000) then
    let dx1 := Vector3.x wp - Vector3.x bmn in
    let dx2 := Vector3.x bmx - Vector3.x wp in
    let dy1 := Vector3.y wp - Vector3.y bmn in
    let dy2 := Vector3.y bmx - Vector3.y wp in
    let dz1 := Vector3.z wp - Vector3.z bmn in
    let dz2 := Vector3.z bmx - Vector3.z wp in
    let minD := min6 dx1 dx2 dy1 dy2 dz1 dz2 in
    let direction :=
      if num_eq minD dx1 then Vector3.setX Vector3.zero 1
      else if num_eq minD dx2 then Vector3.setX Vector3.zero (-1)
      else if num_eq minD dy1 then Vector3.setY Vector3.zero 1
      else if num_eq minD dy2 then Vector3.setY Vector3.zero (-1)
      else if num_eq minD dz1 then Vector3.setZ Vector3.zero 1
      else Vector3.setZ Vector3.zero (-1) in
    mkResponse direction (minD + radius this) direction
  else
    let direction := Vector3.normalize direction in
    let isVerticalCollision :=
      num_ge (Vector3.x wp) (Vector3.x bmn) && num_le (Vector3.x wp) (Vector3.x bmx) &&
      num_ge (Vector3.z wp) (Vector3.z bmn) && num_le (Vector3.z wp) (Vector3.z bmx) in
    let overlap :=
      if isVerticalCollision then
        let halfHeight := height this / 2 in
        let distY := Rabs (Vector3.y wp - Vector3.y closest) in
        halfHeight - distY
      else radius this - distance in
    mkResponse direction (Rmax 0 overlap) direction.

Definition constructor (ref : nat) (uuid : string) (options : Options) : Collider :=
  ColliderBase.constructor ref uuid
    (CylinderShape (number_or (opt_radius options) (3 / 10))
       (number_or (opt_height options) (18 / 10))
       Vector3.zero Vector3.zero Vector3.zero Vector3.zero)
    options.

End CylinderCollider.

(** ** THREE.Ray *)

(** three.js is a dependency, not part of the repository.  Of a ray with
    an origin and a direction, [raycast] calls [intersectSphere] on a
    sphere with a centre and a radius and [intersectBox] on a box with a
    min and a max corner; each gives a point, or null. *)
Module THREE.

Class Ray : Type := {
  intersectSphere : Vector3.t -> Vector3.t -> Vector3.t -> R -> option Vector3.t;
  intersectBox : Vector3.t -> Vector3.t -> Vector3.t -> Vector3.t -> option Vector3.t
}.

End THREE.

(** ** CollisionSystem.js *)

(** A completed call, or one that a TypeError left half-way: the state
    reached is kept in both cases. *)
Inductive Completion (A : Type) : Type :=
| Normal (a : A)
| Throw (a : A).
Arguments Normal {A} a.
Arguments Throw {A} a.

(** What a callback is called with; the other collider is recorded by id. *)
Inductive Event : Type :=
| CollisionEnter (receiver other : string) (response : Response)
| CollisionStay (receiver other : string) (response : Response)
| CollisionExit (receiver other : string).

(** The [Set] of active collisions. *)
Definition set_has (k : string) (s : list string) : bool := bool_decide (k ∈ s).

Definition set_add (k : string) (s : list string) : list string :=
  if bool_decide (k ∈ s) then s else s ++ [k].

Definition set_delete (k : string) (s : list string) : list string :=
  filter (fun k' => k' ≠ k) s.

(** [x < y ? `${x}:${y}` : `${y}:${x}`] *)
Definition pairKey (x y : string) : string :=
  if String.ltb x y then x +:+ (":" +:+ y) else y +:+ (":" +:+ x).

(** The system with the part of the scene it reads and writes:
    [colliders] is the Map, as its values in insertion order (the key of
    each is its [id]); [positions] are the [position]s of the parents. *)
Record World : Type := mkWorld {
  colliders : list Collider;
  positions : Scene
}.

Module CollisionSystem.

(** [this.colliders.has], [.get], [.delete] *)
Definition has (cs : list Collider) (k : string) : bool :=
  bool_decide (k ∈ map id cs).

Definition get (cs : list Collider) (k : string) : option Collider :=
  find (fun c => String.eqb (id c) k) cs.

Definition delete (cs : list Collider) (k : string) : list Collider :=
  filter (fun c => id c ≠ k) cs.

(** [addCollider]: the world, what went to [console.warn], and the value
    returned ([None] for [undefined]). *)
Definition addCollider (w : World) (collider : Collider)
  : World * list string * option Collider :=
  if has (colliders w) (id collider) then
    (w, ["[CollisionSystem] Collider " +:+ (id collider +:+ " already exists")], None)
  else
    (mkWorld (colliders w ++ [collider]) (positions w), [], Some collider).

(** [removeCollider]: the world, and the removed object after [dispose]
    (its owner still holds it). *)
Definition removeCollider (w : World) (colliderId : string)
  : World * option Collider :=
  match get (colliders w) colliderId with
  | Some collider =>
      (mkWorld (delete (colliders w) colliderId) (positions w),
       Some (ColliderBase.dispose collider))
  | None => (w, None)
  end.

Definition getCollider (w : World) (colliderId : string) : option Collider :=
  get (colliders w) colliderId.

(** Method calls, by the class of the receiver. *)
Definition updateWorldPosition (T : Scene) (c : Collider) : Collider :=
  match shape c with
  | CylinderShape _ _ _ _ _ _ => CylinderCollider.updateWorldPosition T c
  | _ => ColliderBase.updateWorldPosition T c
  end.

Definition call_intersectsSphere (this : Collider) (arg : SphereArg) : bool * Collider :=
  match shape this with
  | SphereShape _ => (SphereCollider.intersectsSphere this arg, this)
  | BoxShape _ _ _ => BoxCollider.intersectsSphere this arg
  | CapsuleShape _ _ _ _ => CapsuleCollider.intersectsSphere this arg
  | CylinderShape _ _ _ _ _ _ => (CylinderCollider.intersectsSphere this arg, this)
  end.

Definition tagged (c : Collider) (ty : ColliderType) : bool := bool_decide (type c = ty).

(** [checkCollision]: the answer, and [a] and [b] as the call leaves them.
    Where the receiver's tag is CAPSULE or BOX its class is known, and the
    method of that class is named. *)
Definition checkCollision (T : Scene) (a b : Collider) : bool * Collider * Collider :=
  if negb (ColliderBase.canCollideWith a b) then (false, a, b)
  else
    let a := updateWorldPosition T a in
    let b := updateWorldPosition T b in
    if tagged a SPHERE && tagged b SPHERE then
      let '(r, a) := call_intersectsSphere a (as_sphere b) in (r, a, b)
    else if tagged a CAPSULE && tagged b CAPSULE then
      CapsuleCollider.intersectsCapsule a b
    else if tagged a CAPSULE && tagged b SPHERE then
      let '(r, a) := call_intersectsSphere a (as_sphere b) in (r, a, b)
    else if tagged a SPHERE && tagged b CAPSULE then
      let '(r, b) := call_intersectsSphere b (as_sphere a) in (r, a, b)
    else if tagged a BOX && tagged b BOX then
      BoxCollider.intersectsBox a b
    else if tagged a BOX && tagged b SPHERE then
      let '(r, a) := call_intersectsSphere a (as_sphere b) in (r, a, b)
    else if tagged a SPHERE && tagged b BOX then
      let '(r, b) := call_intersectsSphere b (as_sphere a) in (r, a, b)
    else if tagged a BOX && tagged b CAPSULE then
      let '(r, a) :=
        call_intersectsSphere a (mkSphereArg (worldPosition b) (radius b)) in (r, a, b)
    else if tagged a CAPSULE && tagged b BOX then
      let '(r, b) :=
        call_intersectsSphere b (mkSphereArg (worldPosition a) (radius a)) in (r, a, b)
    else (false, a, b).

(** [a.getCollisionResponse(b)] for a receiver tagged SPHERE: SphereCollider
    has the method, CylinderCollider does not (calling it is a TypeError). *)
Definition call_getCollisionResponse (this other : Collider) : option Response :=
  match shape this with
  | SphereShape _ => Some (SphereCollider.getCollisionResponse this (as_sphere other))
  | _ => None
  end.

(** [getCollisionResponse]: the response ([None] when the call threw), and
    [a] and [b] as the call leaves them. *)
Definition getCollisionResponse (T : Scene) (a b : Collider)
  : option Response * Collider * Collider :=
  let a := updateWorldPosition T a in
  let b := updateWorldPosition T b in
  if tagged a SPHERE && tagged b SPHERE then (call_getCollisionResponse a b, a, b)
  else if tagged a SPHERE && tagged b BOX then
    let '(response, b) := BoxCollider.getCollisionResponseForSphere b (as_sphere a) in
    (Some response, a, b)
  else if tagged a CAPSULE then
    let '(response, a, b) := CapsuleCollider.getCollisionResponse a b in
    (Some response, a, b)
  else if tagged a BOX && tagged b SPHERE then
    let '(response, a) := BoxCollider.getCollisionResponseForSphere a (as_sphere b) in
    (Some response, a, b)
  else
    let direction :=
      Vector3.normalize (Vector3.subVectors (worldPosition a) (worldPosition b)) in
    (Some (mkResponse direction (1 / 10) direction), a, b).

(** [p.position.add(v)] and [p.position.sub(v)] on a parent, if there is one *)
Definition position_add (T : Scene) (p : option nat) (v : Vector3.t) : Scene :=
  match p with
  | Some p => set_position T p (Vector3.add (T p) v)
  | None => T
  end.

Definition position_sub (T : Scene) (p : option nat) (v : Vector3.t) : Scene :=
  match p with
  | Some p => set_position T p (Vector3.sub (T p) v)
  | None => T
  end.

Definition resolveCollision (a b : Collider) (response : Response) (w : World) : World :=
  if isTrigger a || isTrigger b then w
  else if isStatic a && isStatic b then w
  else
    let pushVector := Vector3.multiplyScalar (direction response) (overlap response) in
    if isStatic a then
      mkWorld (colliders w) (position_sub (positions w) (parent b) pushVector)
    else if isStatic b then
      mkWorld (colliders w) (position_add (positions w) (parent a) pushVector)
    else
      let halfPush := Vector3.multiplyScalar pushVector (1 / 2) in
      mkWorld (colliders w)
        (position_sub (position_add (positions w) (parent a) halfPush) (parent b) halfPush).

(** State of one [update]: the world, the keys of [currentCollisions] (only
    [has] is asked of that Map) and the callbacks invoked so far. *)
Record Sweep : Type := mkSweep {
  sw_world : World;
  currentCollisions : list string;
  fired : list Event
}.

Definition fire (installed : bool) (e : Event) : list Event :=
  if installed then [e] else [].

Definition responseForB (response : Response) : Response :=
  mkResponse (Vector3.negate (direction response)) (overlap response)
    (Vector3.negate (normal response)).

(** The body of the pair loop for [collidersArray[i]] and [collidersArray[j]]. *)
Definition processPair (i j : nat) (st : Sweep) : Completion Sweep :=
  let cs := colliders (sw_world st) in
  let T := positions (sw_world st) in
  match cs !! i, cs !! j with
  | Some a, Some b =>
      let '(hit, a, b) := checkCollision T a b in
      if hit then
        let cur := pairKey (id a) (id b) :: currentCollisions st in
        let wasCollidingA := set_has (id b) (activeCollisions a) in
        let '(response, a, b) := getCollisionResponse T a b in
        match response with
        | None => Throw (mkSweep (mkWorld (<[j:=b]> (<[i:=a]> cs)) T) cur (fired st))
        | Some response =>
            if negb wasCollidingA then
              let a' := with_activeCollisions a (set_add (id b) (activeCollisions a)) in
              let b' := with_activeCollisions b (set_add (id a) (activeCollisions b)) in
              Normal (mkSweep
                (resolveCollision a' b' response (mkWorld (<[j:=b']> (<[i:=a']> cs)) T))
                cur
                (fired st
                   ++ fire (onCollisionEnter a) (CollisionEnter (id a) (id b) response)
                   ++ fire (onCollisionEnter b)
                        (CollisionEnter (id b) (id a) (responseForB response))))
            else
              Normal (mkSweep
                (resolveCollision a b response (mkWorld (<[j:=b]> (<[i:=a]> cs)) T))
                cur
                (fired st
                   ++ fire (onCollisionStay a) (CollisionStay (id a) (id b) response)
                   ++ fire (onCollisionStay b)
                        (CollisionStay (id b) (id a) (responseForB response))))
        end
      else Normal (mkSweep (mkWorld (<[j:=b]> (<[i:=a]> cs)) T) (currentCollisions st) (fired st))
  | _, _ => Normal st
  end.

(** The index pairs of the two nested loops, in the order they run. *)
Definition pairs (n : nat) : list (nat * nat) :=
  flat_map (fun i => map (fun j => (i, j)) (seq (S i) (n - S i))) (seq 0 n).

Fixpoint pairLoop (ps : list (nat * nat)) (st : Sweep) : Completion Sweep :=
  match ps with
  | [] => Normal st
  | (i, j) :: ps' =>
      match processPair i j st with
      | Normal st' => pairLoop ps' st'
      | Throw st' => Throw st'
      end
  end.

(** The inner loop of the exit pass over [collider.activeCollisions]:
    [toRemove] and the callbacks invoked. *)
Fixpoint exitScan (registry : list Collider) (cur : list string) (collider : Collider)
    (active : list string) : list string * list Event :=
  match active with
  | [] => ([], [])
  | otherId :: rest =>
      let '(toRemove, ev) := exitScan registry cur collider rest in
      match get registry otherId with
      | None => (otherId :: toRemove, ev)
      | Some other =>
          if bool_decide (pairKey (id collider) otherId ∈ cur) then (toRemove, ev)
          else (otherId :: toRemove,
                fire (onCollisionExit collider) (CollisionExit (id collider) (id other)) ++ ev)
      end
  end.

Definition delete_all (toRemove : list string) (s : list string) : list string :=
  fold_left (fun s k => set_delete k s) toRemove s.

(** The exit pass over [collidersArray]; [registry] is [this.colliders],
    looked up by id only. *)
Fixpoint exitPass (registry : list Collider) (cur : list string) (arr : list Collider)
  : list Collider * list Event :=
  match arr with
  | [] => ([], [])
  | collider :: rest =>
      let '(toRemove, ev) := exitScan registry cur collider (activeCollisions collider) in
      let collider' :=
        with_activeCollisions collider (delete_all toRemove (activeCollisions collider)) in
      let '(rest', ev') := exitPass registry cur rest in
      (collider' :: rest', ev ++ ev')
  end.

(** [update]: the world after the tick and the callbacks it invoked, in
    order. *)
Definition update (w : World) : Completion (World * list Event) :=
  let cs := map (updateWorldPosition (positions w)) (colliders w) in
  match pairLoop (pairs (length cs)) (mkSweep (mkWorld cs (positions w)) [] []) with
  | Throw st => Throw (sw_world st, fired st)
  | Normal st =>
      let '(cs', ev) :=
        exitPass (colliders (sw_world st)) (currentCollisions st) (colliders (sw_world st)) in
      Normal (mkWorld cs' (positions (sw_world st)), fired st ++ ev)
  end.

(** [new CollisionSystem(scene)] *)
Definition constructor (T : Scene) : World := mkWorld [] T.

(** An entry of the result of [raycast]. *)
Record RayHit : Type := mkRayHit {
  collider : Collider;
  point : Vector3.t;
  distance : R
}.

(** [distance <= maxDistance]; no [maxDistance] stands for the default,
    [Number.POSITIVE_INFINITY]. *)
Definition within (d : R) (maxDistance : option R) : bool :=
  match maxDistance with
  | Some m => num_le d m
  | None => true
  end.

(** The body of the loop of [raycast] for one collider: the collider as
    the visit leaves it, and the entry pushed, if any. *)
Definition raycastVisit `{THREE.Ray} (T : Scene) (origin direction : Vector3.t)
    (maxDistance : option R) (layerMask : N) (c : Collider) : Collider * option RayHit :=
  if negb (enabled c) then (c, None)
  else if N.eqb (N.land (layer c) layerMask) 0 then (c, None)
  else
    let c := updateWorldPosition T c in
    let '(intersection, c) :=
      if tagged c SPHERE then
        (THREE.intersectSphere origin direction (worldPosition c) (radius c), c)
      else if tagged c BOX then
        let c := BoxCollider.updateBounds c in
        (THREE.intersectBox origin direction (bounds_min c) (bounds_max c), c)
      else (None, c) in
    match intersection with
    | Some p =>
        let d := Vector3.distanceTo origin p in
        if within d maxDistance then (c, Some (mkRayHit c p d)) else (c, None)
    | None => (c, None)
    end.

(** [results.sort((a, b) => a.distance - b.distance)]: ascending by
    distance, entries of equal distance in the order they were pushed. *)
Fixpoint sortInsert (h : RayHit) (l : list RayHit) : list RayHit :=
  match l with
  | [] => [h]
  | h' :: l' => if num_le (distance h) (distance h') then h :: l else h' :: sortInsert h l'
  end.

Definition sort (l : list RayHit) : list RayHit := foldr sortInsert [] l.

(** [raycast]: the entries, the caller's [direction] (normalised in
    place) and the world; no [layerMask] stands for the default,
    [CollisionLayer.ALL]. *)
Definition raycast `{THREE.Ray} (w : World) (origin direction : Vector3.t)
    (maxDistance : option R) (layerMask : option N)
  : list RayHit * Vector3.t * World :=
  let layerMask := object_or layerMask CollisionLayer.ALL in
  let direction := Vector3.normalize direction in
  let visited :=
    map (raycastVisit (positions w) origin direction maxDistance layerMask) (colliders w) in
  (sort (omap snd visited), direction, mkWorld (map fst visited) (positions w)).

(** The body of the loop of [overlapSphere] for one collider: the collider
    as the visit leaves it, and whether it is pushed. *)
Definition overlapVisit (T : Scene) (center : Vector3.t) (rad : R) (layerMask : N)
    (c : Collider) : Collider * bool :=
  if negb (enabled c) then (c, false)
  else if N.eqb (N.land (layer c) layerMask) 0 then (c, false)
  else
    let c := updateWorldPosition T c in
    let distance := Vector3.distanceTo center (worldPosition c) in
    let effectiveRadius := rad + num_or (radius c) 0 in
    (c, num_le distance effectiveRadius).

(** [overlapSphere]: the colliders found, and the world. *)
Definition overlapSphere (w : World) (center : Vector3.t) (rad : R) (layerMask : option N)
  : list Collider * World :=
  let layerMask := object_or layerMask CollisionLayer.ALL in
  let visited := map (overlapVisit (positions w) center rad layerMask) (colliders w) in
  (map fst (filter (fun v => v.2 = true) visited), mkWorld (map fst visited) (positions w)).

(** [dispose]: the emptied system, and the colliders after their own
    [dispose] (their owners still hold them). *)
Definition dispose (w : World) : World * list Collider :=
  (mkWorld [] (positions w), map ColliderBase.dispose (colliders w)).

End CollisionSystem.

(** ** Character.js and NPC.js: the colliders they make *)

Module Character.

(** The collider [loadModel] builds on the loaded [model]. *)
Definition collider (ref : nat) (uuid : string) (model : nat) : Collider :=
  CapsuleCollider.constructor ref uuid
    {| opt_id := Some "local-player";
       opt_layer := Some CollisionLayer.PLAYER;
       opt_collidesWithMask :=
         Some (N.lor (N.lor CollisionLayer.REMOTE_PLAYER CollisionLayer.NPC)
                 CollisionLayer.ENVIRONMENT);
       opt_isTrigger := None;
       opt_isStatic := None;
       opt_parent := Some model;
       opt_offset := Some (Vector3.mk 0 (9 / 10) 0);
       opt_onCollisionEnter := true;
       opt_onCollisionStay := true;
       opt_onCollisionExit := true;
       opt_radius := Some (4 / 10);
       opt_height := Some (18 / 10);
       opt_size := None |}.

End Character.

Module NPC.

(** The collider [loadModel] builds on the loaded [model] of the NPC
    whose id is [npcId]. *)
Definition collider (ref : nat) (uuid : string) (model : nat) (npcId : string) : Collider :=
  CapsuleCollider.constructor ref uuid
    {| opt_id := Some npcId;
       opt_layer := Some CollisionLayer.NPC;
       opt_collidesWithMask := Some (N.lor CollisionLayer.PLAYER CollisionLayer.REMOTE_PLAYER);
       opt_isTrigger := None;
       opt_isStatic := Some true;
       opt_parent := Some model;
       opt_offset := Some (Vector3.mk 0 1 0);
       opt_onCollisionEnter := true;
       opt_onCollisionStay := false;
       opt_onCollisionExit := false;
       opt_radius := Some (1 / 2);
       opt_height := Some 2;
       opt_size := None |}.

End NPC.

(** ** Definitions used to state the properties *)

(** The Euclidean distance of the spec, written out. *)
Definition euclidean_distance (p q : Vector3.t) : R :=
  sqrt ((Vector3.x p - Vector3.x q) ^ 2 + (Vector3.y p - Vector3.y q) ^ 2
        + (Vector3.z p - Vector3.z q) ^ 2).

(** The class of a collider object. *)
Inductive ShapeClass : Type := KSphere | KBox | KCapsule | KCylinder.

Definition shape_class (s : Shape) : ShapeClass :=
  match s with
  | SphereShape _ => KSphere
  | BoxShape _ _ _ => KBox
  | CapsuleShape _ _ _ _ => KCapsule
  | CylinderShape _ _ _ _ _ _ => KCylinder
  end.

Definition class (c : Collider) : ShapeClass := shape_class (shape c).

(** The six unit vectors along the axes. *)
Definition axis_directions : list Vector3.t :=
  [Vector3.mk 1 0 0; Vector3.mk (-1) 0 0; Vector3.mk 0 1 0; Vector3.mk 0 (-1) 0;
   Vector3.mk 0 0 1; Vector3.mk 0 0 (-1)].

(** Distance from [p] to the face of the AABB of [box] that [d] leaves through. *)
Definition face_distance (box : Collider) (p d : Vector3.t) : R :=
  if num_eq (Vector3.x d) 1 then Vector3.x p - Vector3.x (bounds_min box)
  else if num_eq (Vector3.x d) (-1) then Vector3.x (bounds_max box) - Vector3.x p
  else if num_eq (Vector3.y d) 1 then Vector3.y p - Vector3.y (bounds_min box)
  else if num_eq (Vector3.y d) (-1) then Vector3.y (bounds_max box) - Vector3.y p
  else if num_eq (Vector3.z d) 1 then Vector3.z p - Vector3.z (bounds_min box)
  else Vector3.z (bounds_max box) - Vector3.z p.

(** The points of a box collider: within half its size of the centre
    along each axis. *)
Definition box_point (c : Collider) (q : Vector3.t) : Prop :=
  match shape c with
  | BoxShape size _ _ =>
      Rabs (Vector3.x q - Vector3.x (worldPosition c)) <= Vector3.x size / 2 /\
      Rabs (Vector3.y q - Vector3.y (worldPosition c)) <= Vector3.y size / 2 /\
      Rabs (Vector3.z q - Vector3.z (worldPosition c)) <= Vector3.z size / 2
  | _ => False
  end.

(** The points of the axis of a capsule: straight above or below the
    centre, no farther from it than half of [height - 2 * radius]. *)
Definition capsule_axis_point (c : Collider) (q : Vector3.t) : Prop :=
  match shape c with
  | CapsuleShape r h _ _ =>
      Vector3.x q = Vector3.x (worldPosition c) /\
      Vector3.z q = Vector3.z (worldPosition c) /\
      Rabs (Vector3.y q - Vector3.y (worldPosition c)) <= Rabs ((h - r * 2) / 2)
  | _ => False
  end.

(** The length of the axis of a capsule, [height - 2 * radius] in
    absolute value. *)
Definition axis_length (c : Collider) : R :=
  match shape c with
  | CapsuleShape r h _ _ => Rabs (h - r * 2)
  | _ => 0
  end.

(** The AABBs of [a] and [b] meet on every axis, a common boundary
    counted. *)
Definition aabb_meet (a b : Collider) : Prop :=
  Vector3.x (bounds_min a) <= Vector3.x (bounds_max b) /\
  Vector3.x (bounds_min b) <= Vector3.x (bounds_max a) /\
  Vector3.y (bounds_min a) <= Vector3.y (bounds_max b) /\
  Vector3.y (bounds_min b) <= Vector3.y (bounds_max a) /\
  Vector3.z (bounds_min a) <= Vector3.z (bounds_max b) /\
  Vector3.z (bounds_min b) <= Vector3.z (bounds_max a).

(** They share a face: they meet, and along some axis the one ends where
    the other begins. *)
Definition aabb_share_face (a b : Collider) : Prop :=
  aabb_meet a b /\
  (Vector3.x (bounds_max a) = Vector3.x (bounds_min b) \/
   Vector3.x (bounds_max b) = Vector3.x (bounds_min a) \/
   Vector3.y (bounds_max a) = Vector3.y (bounds_min b) \/
   Vector3.y (bounds_max b) = Vector3.y (bounds_min a) \/
   Vector3.z (bounds_max a) = Vector3.z (bounds_min b) \/
   Vector3.z (bounds_max b) = Vector3.z (bounds_min a)).

(** Distance of [p] from the vertical line through the centre of [c]. *)
Definition horizontal_distance (c : Collider) (p : Vector3.t) : R :=
  sqrt ((Vector3.x p - Vector3.x (worldPosition c)) ^ 2
        + (Vector3.z p - Vector3.z (worldPosition c)) ^ 2).

(** What the owner of a collider sets and the system only reads: its
    identity and id, its class, its layers, its flags, its parent and
    offset, and which callbacks are installed. *)
Definition settings (c : Collider)
  : nat * string * ShapeClass * (N * N) * (bool * bool * bool) * (option nat * Vector3.t)
    * (bool * bool * bool) :=
  (self c, id c, class c, (layer c, collidesWithMask c),
   (isTrigger c, isStatic c, enabled c), (parent c, offset c),
   (onCollisionEnter c, onCollisionStay c, onCollisionExit c)).

(** ** Bookkeeping of the sweep *)

(** What the callbacks and the enter/stay/exit logic read of a collider:
    its id, its active set and which of [onCollisionEnter],
    [onCollisionStay], [onCollisionExit] are installed. *)
Abbreviation Book := (string * list string * (bool * bool * bool))%type.

Definition book (c : Collider) : Book :=
  (id c, activeCollisions c, (onCollisionEnter c, onCollisionStay c, onCollisionExit c)).

Definition books (st : CollisionSystem.Sweep) : list (Book) :=
  map book (colliders (CollisionSystem.sw_world st)).

(** [book] after [activeCollisions.add(k)] *)
Definition book_add (k : string) (b : Book)
  : Book :=
  (b.1.1, set_add k b.1.2, b.2).

(** The four ways the body of the pair loop can end for [a] at index [i]
    and [b] at index [j], by the answer [hit] of [checkCollision]. *)
Inductive PairOutcome (i j : nat) (st : CollisionSystem.Sweep) (a b : Collider)
  : bool -> Completion CollisionSystem.Sweep -> Prop :=
| pair_miss (st' : CollisionSystem.Sweep) :
    books st' = books st ->
    CollisionSystem.currentCollisions st' = CollisionSystem.currentCollisions st ->
    CollisionSystem.fired st' = CollisionSystem.fired st ->
    PairOutcome i j st a b false (Normal st')
| pair_throw (st' : CollisionSystem.Sweep) :
    books st' = books st ->
    CollisionSystem.currentCollisions st'
    = pairKey (id a) (id b) :: CollisionSystem.currentCollisions st ->
    CollisionSystem.fired st' = CollisionSystem.fired st ->
    PairOutcome i j st a b true (Throw st')
| pair_enter (st' : CollisionSystem.Sweep) (r : Response) :
    set_has (id b) (activeCollisions a) = false ->
    books st' = <[j := book_add (id a) (book b)]> (<[i := book_add (id b) (book a)]> (books st)) ->
    CollisionSystem.currentCollisions st'
    = pairKey (id a) (id b) :: CollisionSystem.currentCollisions st ->
    CollisionSystem.fired st'
    = CollisionSystem.fired st
      ++ CollisionSystem.fire (onCollisionEnter a) (CollisionEnter (id a) (id b) r)
      ++ CollisionSystem.fire (onCollisionEnter b)
           (CollisionEnter (id b) (id a) (CollisionSystem.responseForB r)) ->
    PairOutcome i j st a b true (Normal st')
| pair_stay (st' : CollisionSystem.Sweep) (r : Response) :
    set_has (id b) (activeCollisions a) = true ->
    books st' = books st ->
    CollisionSystem.currentCollisions st'
    = pairKey (id a) (id b) :: CollisionSystem.currentCollisions st ->
    CollisionSystem.fired st'
    = CollisionSystem.fired st
      ++ CollisionSystem.fire (onCollisionStay a) (CollisionStay (id a) (id b) r)
      ++ CollisionSystem.fire (onCollisionStay b)
           (CollisionStay (id b) (id a) (CollisionSystem.responseForB r)) ->
    PairOutcome i j st a b true (Normal st').

(** Unique ids, no collider in contact with itself, and each active set
    without repetition, read off the bookkeeping. *)
Definition wf_books (bs : list (Book)) : Prop :=
  NoDup (map (fun b => b.1.1) bs) /\ Forall (fun b => (b.1.1 ∉ b.1.2) /\ NoDup b.1.2) bs.

Definition well_formed (w : World) : Prop := wf_books (map book (colliders w)).

(** ** Worlds, steps and callbacks *)

Definition ids_unique (w : World) : Prop := NoDup (map id (colliders w)).

Definition no_self_contact (w : World) : Prop :=
  Forall (fun c => id c ∉ activeCollisions c) (colliders w).

Definition outcome {A : Type} (c : Completion A) : A :=
  match c with Normal a => a | Throw a => a end.

(** The world one call of [update] leaves, completed or not. *)
Definition tick (w : World) : World := (outcome (CollisionSystem.update w)).1.

(** What can happen to a world: a tick; the owners moving parents and
    editing colliders short of their id, active set and callbacks;
    registration of a collider that is in no contact; removal. *)
Inductive Step : World -> World -> Prop :=
| step_tick (w : World) : Step w (tick w)
| step_edit (w : World) (cs : list Collider) (T : Scene) :
    map book cs = map book (colliders w) -> Step w (mkWorld cs T)
| step_add (w : World) (c : Collider) :
    activeCollisions c = [] -> Step w (CollisionSystem.addCollider w c).1.1
| step_remove (w : World) (k : string) :
    Step w (CollisionSystem.removeCollider w k).1.

(** What a call of the interface of the system does to a world: what
    [Step] has, the two queries and [dispose]. *)
Inductive Call `{THREE.Ray} : World -> World -> Prop :=
| call_step (w w' : World) : Step w w' -> Call w w'
| call_raycast (w : World) (origin direction : Vector3.t) (maxDistance : option R)
    (layerMask : option N) :
    Call w (CollisionSystem.raycast w origin direction maxDistance layerMask).2
| call_overlapSphere (w : World) (center : Vector3.t) (rad : R) (layerMask : option N) :
    Call w (CollisionSystem.overlapSphere w center rad layerMask).2
| call_dispose (w : World) : Call w (CollisionSystem.dispose w).1.

Definition receiver (e : Event) : string :=
  match e with
  | CollisionEnter r _ _ => r
  | CollisionStay r _ _ => r
  | CollisionExit r _ => r
  end.

Definition partner (e : Event) : string :=
  match e with
  | CollisionEnter _ o _ => o
  | CollisionStay _ o _ => o
  | CollisionExit _ o => o
  end.

Inductive Kind : Type := Enter | Stay | Exit.

Definition kind (e : Event) : Kind :=
  match e with
  | CollisionEnter _ _ _ => Enter
  | CollisionStay _ _ _ => Stay
  | CollisionExit _ _ => Exit
  end.

(** The callbacks of collider [r] invoked with collider [o], in order. *)
Definition callbacks (r o : string) (ev : list Event) : list Kind :=
  map kind (filter (fun e => receiver e = r /\ partner e = o) ev).

(** ** The life of one pair *)

(** The part of a list before the first [x]. *)
Fixpoint before {A : Type} `{EqDecision A} (x : A) (l : list A) : list A :=
  match l with
  | [] => []
  | y :: l' => if decide (y = x) then [] else y :: before x l'
  end.

(** The answer of [checkCollision] for the colliders at indices [i] and
    [j] at the moment the pair loop of [update] reaches them ([None] when
    the loop threw before that, or when an index is out of range). *)
Definition detects (w : World) (i j : nat) : option bool :=
  let cs := map (CollisionSystem.updateWorldPosition (positions w)) (colliders w) in
  match CollisionSystem.pairLoop (before (i, j) (CollisionSystem.pairs (length cs)))
          (CollisionSystem.mkSweep (mkWorld cs (positions w)) [] []) with
  | Normal st =>
      match colliders (CollisionSystem.sw_world st) !! i,
            colliders (CollisionSystem.sw_world st) !! j with
      | Some a, Some b =>
          Some (CollisionSystem.checkCollision
                  (positions (CollisionSystem.sw_world st)) a b).1.1
      | _, _ => None
      end
  | Throw _ => None
  end.

(** No two pairs of registered ids share a key of [currentCollisions]. *)
Definition keys_unambiguous (ids : list string) : Prop :=
  forall x y x' y',
    x ∈ ids -> y ∈ ids -> x' ∈ ids -> y' ∈ ids ->
    pairKey x y = pairKey x' y' ->
    (x = x' /\ y = y') \/ (x = y' /\ y = x').

(** An id without the separator of [pairKey]. *)
Fixpoint colon_free (s : string) : bool :=
  match s with
  | EmptyString => true
  | String c s' => negb (Ascii.eqb c ":") && colon_free s'
  end.

(** The callbacks one side of a pair gets in a tick, by whether the pair
    was in contact before ([was]) and is found overlapping ([hit]). *)
Definition expected (c : Collider) (was hit : bool) : list Kind :=
  match was, hit with
  | false, true => if onCollisionEnter c then [Enter] else []
  | true, true => if onCollisionStay c then [Stay] else []
  | true, false => if onCollisionExit c then [Exit] else []
  | false, false => []
  end.

(** The callbacks of the pair loop for one side. *)
Definition loop_calls (c : Collider) (was hit : bool) : list Kind :=
  if hit then
    if was then (if onCollisionStay c then [Stay] else [])
    else (if onCollisionEnter c then [Enter] else [])
  else [].

(** The callbacks a side with every callback installed gets over a run of
    ticks, by the answers of the pair loop. *)
Fixpoint lifecycle (was : bool) (hits : list bool) : list Kind :=
  match hits with
  | [] => []
  | hit :: hits' =>
      match was, hit with
      | false, true => [Enter]
      | true, true => [Stay]
      | true, false => [Exit]
      | false, false => []
      end ++ lifecycle hit hits'
  end.

(** No [Enter] while [open], that is after an [Enter] with no [Exit] since. *)
Fixpoint bracketed (open : bool) (ks : list Kind) : bool :=
  match ks with
  | [] => true
  | Enter :: ks' => negb open && bracketed true ks'
  | Stay :: ks' => bracketed open ks'
  | Exit :: ks' => bracketed false ks'
  end.

(** Ticks seen from the colliders at indices [i] and [j]: before each
    tick the owners may edit the world short of the bookkeeping; the tick
    completes; [hits] are the answers of the pair loop for the pair and
    the events are those of all the ticks, in order. *)
Inductive Run (i j : nat) : World -> list bool -> list Event -> World -> Prop :=
| run_nil (w : World) : Run i j w [] [] w
| run_tick (w : World) (cs : list Collider) (T : Scene) (w1 : World) (ev : list Event)
    (hit : bool) (hits : list bool) (evs : list Event) (w2 : World) :
    map book cs = map book (colliders w) ->
    CollisionSystem.update (mkWorld cs T) = Normal (w1, ev) ->
    detects (mkWorld cs T) i j = Some hit ->
    Run i j w1 hits evs w2 ->
    Run i j w (hit :: hits) (ev ++ evs) w2.

(** What a sweep holds about the colliders [A] at index [i] and [B] at
    index [j]: whether each has the other in its active set, the callbacks
    each got with the other so far, and whether the key of the pair is in
    [currentCollisions]. *)
Record PairView : Type := mkPairView {
  pv_contactA : bool;
  pv_contactB : bool;
  pv_callsA : list Kind;
  pv_callsB : list Kind;
  pv_keyed : bool
}.

Definition views (i j : nat) (A B : Collider) (ids : list string)
    (st : CollisionSystem.Sweep) (v : PairView) : Prop :=
  map (fun b => b.1.1) (books st) = ids /\
  wf_books (books st) /\
  (exists bi bj,
     books st !! i = Some bi /\ books st !! j = Some bj /\
     bi.1.1 = id A /\ bj.1.1 = id B /\ bi.2 = (book A).2 /\ bj.2 = (book B).2 /\
     set_has (id B) bi.1.2 = pv_contactA v /\ set_has (id A) bj.1.2 = pv_contactB v) /\
  callbacks (id A) (id B) (CollisionSystem.fired st) = pv_callsA v /\
  callbacks (id B) (id A) (CollisionSystem.fired st) = pv_callsB v /\
  bool_decide (pairKey (id A) (id B) ∈ CollisionSystem.currentCollisions st) = pv_keyed v.

(** ** Scenarios *)

(** A collider of each class at a position, with nothing else set. *)
Definition collider_at (k : nat) (name : string) (s : Shape) (st : bool) (p : Vector3.t)
  : Collider :=
  mkCollider k name s CollisionLayer.ENVIRONMENT CollisionLayer.ALL false st true
    None Vector3.zero p true true true [].

Definition sphereA : Collider :=
  collider_at 0 "A" (SphereShape 1) false (Vector3.mk 0 0 0).

Definition sphereB : Collider :=
  collider_at 1 "B" (SphereShape 1) true (Vector3.mk (3 / 2) 0 0).

(** Two unit spheres that touch in one point. *)
Definition sphereC : Collider :=
  collider_at 2 "C" (SphereShape 1) false (Vector3.mk 2 0 0).

(** Two unit boxes side by side: the face x = 1/2 is shared. *)
Definition boxLeft : Collider :=
  collider_at 0 "left" (BoxShape (Vector3.mk 1 1 1) Vector3.zero Vector3.zero) true
    (Vector3.mk 0 0 0).

Definition boxRight : Collider :=
  collider_at 1 "right" (BoxShape (Vector3.mk 1 1 1) Vector3.zero Vector3.zero) true
    (Vector3.mk 1 0 0).

(** A static box of half-extents (1,1,1) on parent 0 at the origin and a
    dynamic ball of radius 1/2 on parent 1. *)
Definition staticBox : Collider :=
  mkCollider 0 "box" (BoxShape (Vector3.mk 2 2 2) Vector3.zero Vector3.zero)
    CollisionLayer.ENVIRONMENT CollisionLayer.ALL false true true (Some 0%nat)
    Vector3.zero Vector3.zero true true true [].

Definition ball : Collider :=
  mkCollider 1 "ball" (SphereShape (1 / 2))
    CollisionLayer.PLAYER CollisionLayer.ALL false false true (Some 1%nat)
    Vector3.zero Vector3.zero true true true [].

(** The ball 0.3 above the top face of the box. *)
Definition ballAbove : Scene :=
  fun p => if decide (p = 1%nat) then Vector3.mk 0 0 (13 / 10) else Vector3.zero.

(** The ball with its centre at the centre of the box. *)
Definition ballInside : Scene := fun _ => Vector3.zero.

(** A cylinder of radius 1 and height 10 at the origin, and a box of
    half-extents (1,1,1) centred at (0,4,0), beside the axis end. *)
Definition pillar : Collider :=
  collider_at 0 "pillar"
    (CylinderShape 1 10 Vector3.zero Vector3.zero Vector3.zero Vector3.zero) false
    (Vector3.mk 0 0 0).

Definition crate : Collider :=
  collider_at 1 "crate" (BoxShape (Vector3.mk 2 2 2) Vector3.zero Vector3.zero) true
    (Vector3.mk 0 4 0).

(** A unit ball beside the pillar, touching its side, and a box of
    half-extents (1,1,1) under it, its top in the plane of the pillar's
    base. *)
Definition ballBeside : Collider :=
  collider_at 2 "beside" (SphereShape 1) false (Vector3.mk 2 0 0).

Definition plinth : Collider :=
  collider_at 3 "plinth" (BoxShape (Vector3.mk 2 2 2) Vector3.zero Vector3.zero) true
    (Vector3.mk 0 (-6) 0).

(** A drum of radius 3 and height 2 at the origin and a pea of radius
    1/2 inside it, one unit off its axis. *)
Definition drum : Collider :=
  collider_at 4 "drum"
    (CylinderShape 3 2 Vector3.zero Vector3.zero Vector3.zero Vector3.zero) false
    (Vector3.mk 0 0 0).

Definition pea : Collider :=
  collider_at 5 "pea" (SphereShape (1 / 2)) false (Vector3.mk 1 0 0).

(** A cylinder registered before a sphere that it overlaps. *)
Definition pillarFirst : World :=
  mkWorld [pillar; collider_at 1 "ball" (SphereShape 1) false (Vector3.mk 1 0 0)]
    (fun _ => Vector3.zero).

(** Two dynamic spheres on distinct parents, and a response. *)
Definition moverA : Collider :=
  mkCollider 0 "a" (SphereShape 1) CollisionLayer.PLAYER CollisionLayer.ALL false false true
    (Some 0%nat) Vector3.zero Vector3.zero true true true [].

Definition moverB : Collider :=
  mkCollider 1 "b" (SphereShape 1) CollisionLayer.PLAYER CollisionLayer.ALL false false true
    (Some 1%nat) Vector3.zero Vector3.zero true true true [].

Definition pushX : Response := mkResponse (Vector3.mk 1 0 0) 1 (Vector3.mk 1 0 0).

Definition world0 : World := mkWorld [moverA; moverB] (fun _ => Vector3.zero).

(** Two static unit spheres one unit apart, in no contact yet. *)
Definition partnerP : Collider :=
  collider_at 0 "P" (SphereShape 1) true (Vector3.mk 0 0 0).

Definition removedR : Collider :=
  collider_at 1 "R" (SphereShape 1) true (Vector3.mk 1 0 0).

Definition beforeContact : World := mkWorld [partnerP; removedR] (fun _ => Vector3.zero).

(** The same two spheres, each holding the id of the other. *)
Definition inContact : World :=
  mkWorld [with_activeCollisions partnerP ["R"]; with_activeCollisions removedR ["P"]]
    (fun _ => Vector3.zero).

(** The two spheres in contact, after the owner moved R ten units away. *)
Definition movedApart : list Collider :=
  [with_activeCollisions partnerP ["R"];
   with_worldPosition (with_activeCollisions removedR ["P"]) (Vector3.mk 10 0 0)].

(** Four static unit spheres whose ids make two pairs with one key: "a"
    with "b:c", and "a:b" with "c", both keyed "a:b:c".  Each hangs on a
    parent of its own. *)
Definition sphere_on (k : nat) (name : string) (active : list string) : Collider :=
  mkCollider k name (SphereShape 1) CollisionLayer.ENVIRONMENT CollisionLayer.ALL false true true
    (Some k) Vector3.zero Vector3.zero true true true active.

Definition fourFresh : list Collider :=
  [sphere_on 0 "a" []; sphere_on 1 "b:c" []; sphere_on 2 "a:b" []; sphere_on 3 "c" []].

(** The same four after the tick in which both pairs entered. *)
Definition fourInContact : list Collider :=
  [sphere_on 0 "a" ["b:c"]; sphere_on 1 "b:c" ["a"];
   sphere_on 2 "a:b" ["c"]; sphere_on 3 "c" ["a:b"]].

(** Parents: each pair one unit apart, the two pairs far from each other. *)
Definition bothNear : Scene :=
  fun p => match p with
           | 0%nat => Vector3.mk 0 0 0
           | 1%nat => Vector3.mk 1 0 0
           | 2%nat => Vector3.mk 100 0 0
           | _ => Vector3.mk 101 0 0
           end.

(** The parent of "b:c" moved ten units up, out of reach of "a". *)
Definition firstApart : Scene :=
  fun p => match p with
           | 0%nat => Vector3.mk 0 0 0
           | 1%nat => Vector3.mk 1 10 0
           | 2%nat => Vector3.mk 100 0 0
           | _ => Vector3.mk 101 0 0
           end.

(** The model of the character at the origin and the model of an NPC six
    tenths of a unit beside it. *)
Definition npcBeside : Scene :=
  fun p => match p with
           | 1%nat => Vector3.mk (6 / 10) 0 0
           | _ => Vector3.mk 0 0 0
           end.
(** * Properties *)

(** ** Evaluating comparisons, [Math.max]/[Math.min] and square roots *)

Lemma num_lt_true (a b : R) : a < b -> num_lt a b = true.
Proof. apply bool_decide_eq_true_2. Qed.
Lemma num_lt_false (a b : R) : b <= a -> num_lt a b = false.
Proof. intros H. apply bool_decide_eq_false_2. lra. Qed.
Lemma num_le_true (a b : R) : a <= b -> num_le a b = true.
Proof. apply bool_decide_eq_true_2. Qed.
Lemma num_le_false (a b : R) : b < a -> num_le a b = false.
Proof. intros H. apply bool_decide_eq_false_2. lra. Qed.
Lemma num_gt_true (a b : R) : b < a -> num_gt a b = true.
Proof. intros H. apply bool_decide_eq_true_2. lra. Qed.
Lemma num_gt_false (a b : R) : a <= b -> num_gt a b = false.
Proof. intros H. apply bool_decide_eq_false_2. lra. Qed.
Lemma num_ge_true (a b : R) : b <= a -> num_ge a b = true.
Proof. intros H. apply bool_decide_eq_true_2. lra. Qed.
Lemma num_ge_false (a b : R) : a < b -> num_ge a b = false.
Proof. intros H. apply bool_decide_eq_false_2. lra. Qed.
Lemma num_eq_true (a b : R) : a = b -> num_eq a b = true.
Proof. apply bool_decide_eq_true_2. Qed.
Lemma num_eq_false (a b : R) : a <> b -> num_eq a b = false.
Proof. apply bool_decide_eq_false_2. Qed.
Lemma num_ne_true (a b : R) : a <> b -> num_ne a b = true.
Proof. apply bool_decide_eq_true_2. Qed.
Lemma num_ne_false (a b : R) : a = b -> num_ne a b = false.
Proof. intros H. apply bool_decide_eq_false_2. tauto. Qed.

Lemma sqrt_lt_iff (v r : R) : 0 <= v -> sqrt v < r <-> 0 < r /\ v < r * r.
Proof.
  intros Hv. split.
  - intros H. pose proof (sqrt_pos v) as Hs.
    split; [lra|].
    rewrite <- (sqrt_sqrt v Hv) at 1. nra.
  - intros [Hr H].
    rewrite <- (sqrt_square r) by lra.
    apply sqrt_lt_1; nra.
Qed.

Lemma sqrt_of_square (v r : R) : 0 <= r -> v = r * r -> sqrt v = r.
Proof. intros Hr ->. apply sqrt_square, Hr. Qed.

Lemma sq_nonneg (a : R) : 0 <= a * a.
Proof. nra. Qed.

Lemma lengthSq_nonneg (v : Vector3.t) : 0 <= Vector3.lengthSq v.
Proof.
  unfold Vector3.lengthSq.
  pose proof (sq_nonneg (Vector3.x v)). pose proof (sq_nonneg (Vector3.y v)).
  pose proof (sq_nonneg (Vector3.z v)). lra.
Qed.

Lemma distanceToSquared_nonneg (p q : Vector3.t) : 0 <= Vector3.distanceToSquared p q.
Proof.
  unfold Vector3.distanceToSquared. cbv zeta.
  pose proof (sq_nonneg (Vector3.x p - Vector3.x q)).
  pose proof (sq_nonneg (Vector3.y p - Vector3.y q)).
  pose proof (sq_nonneg (Vector3.z p - Vector3.z q)). lra.
Qed.

Lemma distanceTo_nonneg (p q : Vector3.t) : 0 <= Vector3.distanceTo p q.
Proof. apply sqrt_pos. Qed.

Lemma distanceTo_euclidean (p q : Vector3.t) :
  Vector3.distanceTo p q = euclidean_distance p q.
Proof.
  unfold Vector3.distanceTo, Vector3.distanceToSquared, euclidean_distance.
  f_equal. ring.
Qed.

Lemma vector3_eq (u v : Vector3.t) :
  Vector3.x u = Vector3.x v -> Vector3.y u = Vector3.y v -> Vector3.z u = Vector3.z v ->
  u = v.
Proof. destruct u, v; simpl; intros; subst; reflexivity. Qed.

Lemma length_zero : Vector3.length Vector3.zero = 0.
Proof.
  unfold Vector3.length, Vector3.lengthSq; simpl.
  apply sqrt_of_square; lra.
Qed.

Lemma normalize_zero : Vector3.normalize Vector3.zero = Vector3.zero.
Proof.
  unfold Vector3.normalize. rewrite length_zero.
  unfold num_or. rewrite num_eq_true by reflexivity.
  apply vector3_eq; simpl; lra.
Qed.

Lemma length_normalize (v : Vector3.t) :
  Vector3.length v <> 0 -> Vector3.length (Vector3.normalize v) = 1.
Proof.
  intros Hn. unfold Vector3.normalize, num_or.
  rewrite num_eq_false by exact Hn.
  pose proof (lengthSq_nonneg v) as Hsq.
  assert (Hl : 0 < Vector3.length v).
  { unfold Vector3.length in *. pose proof (sqrt_pos (Vector3.lengthSq v)). lra. }
  unfold Vector3.length at 1.
  apply sqrt_of_square; [lra|].
  unfold Vector3.divideScalar, Vector3.multiplyScalar, Vector3.lengthSq at 1; simpl.
  assert (Hs : Vector3.length v * Vector3.length v = Vector3.lengthSq v)
    by (apply sqrt_sqrt, Hsq).
  unfold Vector3.lengthSq in Hs.
  set (l := Vector3.length v) in *.
  field_simplify_eq; [|lra]. lra.
Qed.

Lemma num_lt_sqrt_true (v r : R) : 0 <= v -> 0 < r -> v < r * r -> num_lt (sqrt v) r = true.
Proof. intros Hv Hr H. apply num_lt_true, sqrt_lt_iff; auto. Qed.

Lemma num_lt_sqrt_false (v r : R) : 0 <= r -> r * r <= v -> num_lt (sqrt v) r = false.
Proof.
  intros Hr H. apply num_lt_false.
  destruct (Rle_or_lt r (sqrt v)) as [|Hlt]; [assumption|].
  apply sqrt_lt_iff in Hlt; [lra|nra].
Qed.

(** Unfolds the program down to the operations on numbers. *)
Ltac reval :=
  cbv -[num_lt num_le num_gt num_ge num_eq num_ne
        Rplus Rminus Rmult Rdiv Rinv Ropp IZR sqrt Rmax Rmin Rabs pow].

(** Settles every comparison, [Rmax] and [Rmin] that [lra] can. *)
Ltac rdecide :=
  repeat match goal with
  | |- context [num_lt (sqrt ?v) ?r] =>
      first [ rewrite (num_lt_sqrt_true v r) by lra
            | rewrite (num_lt_sqrt_false v r) by lra ]
  | |- context [num_lt ?a ?b] =>
      first [ rewrite (num_lt_true a b) by lra | rewrite (num_lt_false a b) by lra ]
  | |- context [num_le ?a ?b] =>
      first [ rewrite (num_le_true a b) by lra | rewrite (num_le_false a b) by lra ]
  | |- context [num_gt ?a ?b] =>
      first [ rewrite (num_gt_true a b) by lra | rewrite (num_gt_false a b) by lra ]
  | |- context [num_ge ?a ?b] =>
      first [ rewrite (num_ge_true a b) by lra | rewrite (num_ge_false a b) by lra ]
  | |- context [num_eq ?a ?b] =>
      first [ rewrite (num_eq_true a b) by lra | rewrite (num_eq_false a b) by lra ]
  | |- context [num_ne ?a ?b] =>
      first [ rewrite (num_ne_true a b) by lra | rewrite (num_ne_false a b) by lra ]
  | |- context [Rmax ?a ?b] =>
      first [ rewrite (Rmax_left a b) by lra | rewrite (Rmax_right a b) by lra ]
  | |- context [Rmin ?a ?b] =>
      first [ rewrite (Rmin_left a b) by lra | rewrite (Rmin_right a b) by lra ]
  end.

(** Replaces the square roots of the goal that equal [r]. *)
Ltac rsqrt r :=
  repeat match goal with
  | |- context [sqrt ?v] => rewrite (sqrt_of_square v r) by lra
  end.

Lemma response_eq (d n d' n' : Vector3.t) (o o' : R) :
  d = d' -> o = o' -> n = n' -> mkResponse d o n = mkResponse d' o' n'.
Proof. intros -> -> ->. reflexivity. Qed.

(** Closes an equation between values made of numbers. *)
Ltac rcompare :=
  repeat first
    [ reflexivity
    | lra
    | apply (f_equal (@Some _))
    | apply response_eq
    | apply vector3_eq; simpl
    | apply (f_equal2 (@pair _ _)) ].


(** C1. For two sphere colliders the sphere-sphere test answers true
    exactly when the Euclidean distance of the two centres is strictly
    below the sum of the radii. *)
Theorem sphere_sphere_overlap (A B : Collider) (rA rB : R) :
  shape A = SphereShape rA ->
  shape B = SphereShape rB ->
  SphereCollider.intersectsSphere A (as_sphere B)
  = bool_decide (euclidean_distance (worldPosition A) (worldPosition B) < rA + rB).
Proof.
  intros HA HB.
  unfold SphereCollider.intersectsSphere, num_lt, as_sphere, radius; simpl.
  rewrite HA, HB, distanceTo_euclidean. reflexivity.
Qed.

Lemma sphere_sphere_overlap_witness :
  SphereCollider.intersectsSphere sphereA (as_sphere sphereB)
  = bool_decide (euclidean_distance (worldPosition sphereA) (worldPosition sphereB) < 1 + 1).
Proof. apply (sphere_sphere_overlap sphereA sphereB 1 1); reflexivity. Defined.

(** The same through the system: for two SphereCollider objects that may
    collide, [checkCollision] refreshes both world positions from the
    parents and answers by the distance of these. *)
Lemma checkCollision_spheres (T : Scene) (A B : Collider) (rA rB : R) :
  shape A = SphereShape rA ->
  shape B = SphereShape rB ->
  ColliderBase.canCollideWith A B = true ->
  (CollisionSystem.checkCollision T A B).1.1
  = bool_decide
      (euclidean_distance
         (worldPosition (ColliderBase.updateWorldPosition T A))
         (worldPosition (ColliderBase.updateWorldPosition T B)) < rA + rB).
Proof.
  intros HA HB Hcan. unfold CollisionSystem.checkCollision. rewrite Hcan. simpl negb.
  cbv iota.
  assert (EA : CollisionSystem.updateWorldPosition T A = ColliderBase.updateWorldPosition T A)
    by (unfold CollisionSystem.updateWorldPosition; rewrite HA; reflexivity).
  assert (EB : CollisionSystem.updateWorldPosition T B = ColliderBase.updateWorldPosition T B)
    by (unfold CollisionSystem.updateWorldPosition; rewrite HB; reflexivity).
  rewrite EA, EB.
  set (A' := ColliderBase.updateWorldPosition T A).
  set (B' := ColliderBase.updateWorldPosition T B).
  assert (HA' : shape A' = SphereShape rA)
    by (unfold A', ColliderBase.updateWorldPosition; destruct (parent A); exact HA).
  assert (HB' : shape B' = SphereShape rB)
    by (unfold B', ColliderBase.updateWorldPosition; destruct (parent B); exact HB).
  assert (Ht : CollisionSystem.tagged A' SPHERE && CollisionSystem.tagged B' SPHERE = true).
  { unfold CollisionSystem.tagged, type. rewrite HA', HB'. reflexivity. }
  rewrite Ht. unfold CollisionSystem.call_intersectsSphere. rewrite HA'. simpl.
  unfold SphereCollider.intersectsSphere, num_lt, as_sphere, radius; simpl.
  rewrite HA', HB', distanceTo_euclidean. reflexivity.
Qed.

(** ** Registry *)

Lemma get_Some (cs : list Collider) (k : string) (c : Collider) :
  CollisionSystem.get cs k = Some c -> c ∈ cs /\ id c = k.
Proof.
  unfold CollisionSystem.get. intros H.
  apply find_some in H as [Hin Heq].
  split; [apply list_elem_of_In, Hin | apply String.eqb_eq, Heq].
Qed.

Lemma get_None (cs : list Collider) (k : string) :
  CollisionSystem.get cs k = None <-> k ∉ map id cs.
Proof.
  unfold CollisionSystem.get. split.
  - intros H Hin. apply list_elem_of_fmap in Hin as (c & -> & Hc).
    apply list_elem_of_In in Hc.
    pose proof (find_none _ _ H c Hc) as Hf. simpl in Hf.
    rewrite String.eqb_refl in Hf. discriminate.
  - intros H. destruct (find _ cs) as [c|] eqn:E; [|reflexivity].
    exfalso. apply H. apply find_some in E as [Hin Heq].
    apply String.eqb_eq in Heq. subst k.
    apply list_elem_of_fmap. exists c. split; [reflexivity|apply list_elem_of_In, Hin].
Qed.

Lemma has_true (cs : list Collider) (k : string) :
  CollisionSystem.has cs k = true <-> k ∈ map id cs.
Proof. unfold CollisionSystem.has. apply bool_decide_eq_true. Qed.

(** C9. Registering a collider under an id that is already registered
    changes nothing: the world is returned as it was (so the collider
    registered under that id is the one found before), one diagnostic is
    written and the call returns undefined. *)
Theorem addCollider_duplicate_rejected (w : World) (collider old : Collider) :
  CollisionSystem.getCollider w (id collider) = Some old ->
  CollisionSystem.addCollider w collider
  = (w, ["[CollisionSystem] Collider " +:+ (id collider +:+ " already exists")], None)
  /\ CollisionSystem.getCollider (CollisionSystem.addCollider w collider).1.1 (id collider)
     = Some old.
Proof.
  intros Hold.
  assert (Hhas : CollisionSystem.has (colliders w) (id collider) = true).
  { apply has_true. apply get_Some in Hold as [Hin Hid].
    rewrite <- Hid. apply list_elem_of_fmap. exists old. split; [reflexivity|exact Hin]. }
  unfold CollisionSystem.addCollider. rewrite Hhas. simpl.
  split; [reflexivity|exact Hold].
Qed.

Lemma addCollider_duplicate_rejected_witness :
  CollisionSystem.addCollider world0 (collider_at 7 "a" (SphereShape 3) true Vector3.zero)
  = (world0, ["[CollisionSystem] Collider a already exists"], None)
  /\ CollisionSystem.getCollider
       (CollisionSystem.addCollider world0
          (collider_at 7 "a" (SphereShape 3) true Vector3.zero)).1.1 "a"
     = Some moverA.
Proof.
  apply (addCollider_duplicate_rejected world0
           (collider_at 7 "a" (SphereShape 3) true Vector3.zero) moverA).
  reflexivity.
Defined.

(** ** Resolution *)

Lemma set_position_same (T : Scene) (p : nat) (v : Vector3.t) :
  set_position T p v p = v.
Proof. unfold set_position. destruct (decide (p = p)); [reflexivity|contradiction]. Qed.

Lemma set_position_other (T : Scene) (p q : nat) (v : Vector3.t) :
  q <> p -> set_position T p v q = T q.
Proof. unfold set_position. intros H. destruct (decide (q = p)); [contradiction|reflexivity]. Qed.

(** C4. What [resolveCollision] does to the positions of the parents:
    nothing when a side is a trigger or both are static; the full push
    (direction * overlap) on the non-static side when exactly one is
    static; half of it on each side, in opposite senses, when neither is.
    The collider objects, hence every [worldPosition], are left as they
    were. *)
Theorem resolveCollision_policy (a b : Collider) (response : Response) (w : World) :
  let push := Vector3.multiplyScalar (direction response) (overlap response) in
  let half := Vector3.multiplyScalar push (1 / 2) in
  let w' := CollisionSystem.resolveCollision a b response w in
  colliders w' = colliders w /\
  (isTrigger a || isTrigger b = true \/ isStatic a && isStatic b = true ->
   positions w' = positions w) /\
  (isTrigger a || isTrigger b = false -> isStatic a = true -> isStatic b = false ->
   forall pb, parent b = Some pb ->
     positions w' pb = Vector3.sub (positions w pb) push /\
     forall q, q <> pb -> positions w' q = positions w q) /\
  (isTrigger a || isTrigger b = false -> isStatic a = false -> isStatic b = true ->
   forall pa, parent a = Some pa ->
     positions w' pa = Vector3.add (positions w pa) push /\
     forall q, q <> pa -> positions w' q = positions w q) /\
  (isTrigger a || isTrigger b = false -> isStatic a = false -> isStatic b = false ->
   positions w'
   = CollisionSystem.position_sub
       (CollisionSystem.position_add (positions w) (parent a) half) (parent b) half /\
   forall pa pb, parent a = Some pa -> parent b = Some pb -> pa <> pb ->
     positions w' pa = Vector3.add (positions w pa) half /\
     positions w' pb = Vector3.sub (positions w pb) half /\
     forall q, q <> pa -> q <> pb -> positions w' q = positions w q).
Proof.
  intros push half w'. subst w'. unfold CollisionSystem.resolveCollision.
  fold push. fold half.
  destruct (isTrigger a || isTrigger b) eqn:Ht.
  { repeat split; try reflexivity; intros; discriminate. }
  destruct (isStatic a) eqn:Hsa, (isStatic b) eqn:Hsb; simpl.
  - repeat split; try reflexivity; intros; discriminate.
  - split; [reflexivity|]. split; [intros [?|?]; discriminate|].
    split; [|split; intros; discriminate].
    intros _ _ _ pb Hpb. rewrite Hpb. simpl.
    split; [apply set_position_same|]. intros q Hq. apply set_position_other, Hq.
  - split; [reflexivity|]. split; [intros [?|?]; discriminate|].
    split; [intros; discriminate|]. split; [|intros; discriminate].
    intros _ _ _ pa Hpa. rewrite Hpa. simpl.
    split; [apply set_position_same|]. intros q Hq. apply set_position_other, Hq.
  - split; [reflexivity|]. split; [intros [?|?]; discriminate|].
    split; [intros; discriminate|]. split; [intros; discriminate|].
    intros _ _ _. split; [reflexivity|].
    intros pa pb Hpa Hpb Hne. rewrite Hpa, Hpb. simpl.
    split; [|split].
    + rewrite set_position_other by exact Hne. apply set_position_same.
    + rewrite set_position_same. rewrite set_position_other by congruence. reflexivity.
    + intros q Hqa Hqb. rewrite !set_position_other by assumption. reflexivity.
Qed.

Lemma resolveCollision_policy_witness :
  let half := Vector3.multiplyScalar (Vector3.multiplyScalar (Vector3.mk 1 0 0) 1) (1 / 2) in
  let w' := CollisionSystem.resolveCollision moverA moverB pushX world0 in
  colliders w' = colliders world0 /\
  positions w' 0%nat = Vector3.add (positions world0 0%nat) half /\
  positions w' 1%nat = Vector3.sub (positions world0 1%nat) half.
Proof.
  intros half w'.
  destruct (resolveCollision_policy moverA moverB pushX world0) as (Hc & _ & _ & _ & H).
  destruct (H eq_refl eq_refl eq_refl) as [_ H'].
  destruct (H' 0%nat 1%nat eq_refl eq_refl ltac:(lia)) as (Ha & Hb & _).
  exact (conj Hc (conj Ha Hb)).
Defined.

(** ** Dispatch on cylinders *)

Lemma canCollideWith_self (A : Collider) : ColliderBase.canCollideWith A A = false.
Proof.
  unfold ColliderBase.canCollideWith.
  destruct (negb (enabled A) || negb (enabled A)); [reflexivity|].
  rewrite Nat.eqb_refl. reflexivity.
Qed.

Lemma cylinder_tagged_sphere (c : Collider) : class c = KCylinder -> type c = SPHERE.
Proof.
  unfold class, shape_class, type. destruct (shape c); intros H; try discriminate; reflexivity.
Qed.

(** What [checkCollision] does with a cylinder.  ColliderType has no
    CYLINDER, so a CylinderCollider is tagged SPHERE and [checkCollision]
    has no branch of its own for it.  With the cylinder first and a sphere
    second the call is the cylinder's own [intersectsSphere] (horizontal
    distance to the axis, vertical coordinate clamped).  With the sphere
    first it is the sphere-sphere test.  Against a box, in either order, it
    is the box's closest-point test on the cylinder's centre and radius;
    the cylinder's [intersectsBox] is never called. *)
Theorem checkCollision_cylinder (T : Scene) (a b : Collider) :
  ColliderBase.canCollideWith a b = true ->
  let a' := CollisionSystem.updateWorldPosition T a in
  let b' := CollisionSystem.updateWorldPosition T b in
  (class a = KCylinder -> class b = KSphere ->
   (CollisionSystem.checkCollision T a b).1.1
   = CylinderCollider.intersectsSphere a' (as_sphere b')) /\
  (class a = KSphere -> class b = KCylinder ->
   (CollisionSystem.checkCollision T a b).1.1
   = SphereCollider.intersectsSphere a' (as_sphere b')) /\
  (class a = KCylinder -> class b = KBox ->
   (CollisionSystem.checkCollision T a b).1.1
   = (BoxCollider.intersectsSphere b' (as_sphere a')).1) /\
  (class a = KBox -> class b = KCylinder ->
   (CollisionSystem.checkCollision T a b).1.1
   = (BoxCollider.intersectsSphere a' (as_sphere b')).1).
Proof.
  intros Hcan a' b'. subst a' b'.
  unfold CollisionSystem.checkCollision. rewrite Hcan. simpl negb. cbv iota.
  destruct a as [? ? [] ? ? ? ? ? [] ? ? ? ? ? ?];
  destruct b as [? ? [] ? ? ? ? ? [] ? ? ? ? ? ?];
  unfold class, shape_class; simpl; repeat split; intros; try discriminate; reflexivity.
Qed.

Lemma checkCollision_cylinder_witness :
  (CollisionSystem.checkCollision (fun _ => Vector3.zero) pillar crate).1.1
  = (BoxCollider.intersectsSphere
       (CollisionSystem.updateWorldPosition (fun _ => Vector3.zero) crate)
       (as_sphere (CollisionSystem.updateWorldPosition (fun _ => Vector3.zero) pillar))).1.
Proof.
  destruct (checkCollision_cylinder (fun _ => Vector3.zero) pillar crate eq_refl)
    as (_ & _ & H & _).
  exact (H eq_refl eq_refl).
Defined.

(** C2.  The pair test of a cylinder and a box is not the cylinder's
    AABB pre-test followed by its circle-rectangle test: the cylinder is
    tagged SPHERE, the system calls the box's sphere test on its centre and
    radius, and for this pillar and this crate, which do overlap, that
    answers false where [CylinderCollider.intersectsBox] answers true. *)
Lemma checkCollision_cylinder_box_differs :
  class pillar = KCylinder /\ class crate = KBox /\
  (CollisionSystem.checkCollision (fun _ => Vector3.zero) pillar crate).1.1 = false /\
  (CylinderCollider.intersectsBox (fun _ => Vector3.zero) pillar crate).1.1 = true.
Proof.
  split; [reflexivity|]. split; [reflexivity|]. split.
  - reval. rdecide. reflexivity.
  - reval. rdecide. reflexivity.
Qed.

(** With a sphere the answer depends on the order of the pair: a pea
    inside a drum is missed when the drum comes first (its own test looks
    at the side wall only) and found when the pea comes first (the
    sphere-sphere test on the centre and radius of the drum). *)
Lemma checkCollision_cylinder_order :
  class drum = KCylinder /\ class pea = KSphere /\
  (CollisionSystem.checkCollision (fun _ => Vector3.zero) drum pea).1.1 = false /\
  (CollisionSystem.checkCollision (fun _ => Vector3.zero) pea drum).1.1 = true.
Proof.
  split; [reflexivity|]. split; [reflexivity|]. split.
  - reval. rsqrt 1. rdecide. reflexivity.
  - reval. rdecide. reflexivity.
Qed.

(** ** Exact contact *)

(** C6 fails as stated: two boxes that share exactly the face x = 1/2 are
    reported as colliding. *)
Lemma box_box_shared_face_collides :
  let '(r, l, rt) := BoxCollider.intersectsBox boxLeft boxRight in
  Vector3.x (bounds_max l) = Vector3.x (bounds_min rt) /\ r = true.
Proof.
  reval. rdecide. split; [lra|reflexivity].
Qed.

(** So does the test of a cylinder and a box for a pillar that stands on
    a plinth, its base in the plane of the top of the plinth. *)
Lemma cylinder_box_shared_face_collides :
  let '(r, cyl, box) :=
    CylinderCollider.intersectsBox (fun _ => Vector3.zero) pillar plinth in
  Vector3.y (bounds_min cyl) = Vector3.y (bounds_max box) /\ r = true.
Proof.
  reval. rdecide. split; [lra|reflexivity].
Qed.

Lemma le_sqrt (r v : R) : r * r <= v -> r <= sqrt v.
Proof.
  intros H. destruct (Rle_or_lt r 0) as [Hr|Hr].
  - eapply Rle_trans; [exact Hr|apply sqrt_pos].
  - rewrite <- (sqrt_square r) by lra. apply sqrt_le_1_alt, H.
Qed.

Lemma sqrt_eq_square (v r : R) : 0 <= v -> sqrt v = r -> v = r * r.
Proof. intros Hv <-. symmetry. apply sqrt_sqrt, Hv. Qed.

(** A sphere whose centre is as far from the axis of a cylinder as the
    two radii together is not found by the cylinder. *)
Lemma cylinder_side_contact (c : Collider) (s : SphereArg) :
  0 <= radius c ->
  horizontal_distance c (sa_worldPosition s) = radius c + sa_radius s ->
  CylinderCollider.intersectsSphere c s = false.
Proof.
  intros Hr Hhd. unfold CylinderCollider.intersectsSphere. cbv zeta.
  unfold horizontal_distance in Hhd.
  set (dx := Vector3.x (sa_worldPosition s) - Vector3.x (worldPosition c)) in *.
  set (dz := Vector3.z (sa_worldPosition s) - Vector3.z (worldPosition c)) in *.
  set (r := radius c) in *. set (rs := sa_radius s) in *.
  replace (dx ^ 2 + dz ^ 2) with (dx * dx + dz * dz) in Hhd by ring.
  assert (Hnn : 0 <= dx * dx + dz * dz) by (pose proof (sq_nonneg dx); pose proof (sq_nonneg dz); lra).
  pose proof (sqrt_eq_square _ _ Hnn Hhd) as Hsq.
  destruct (num_gt (dx * dx + dz * dz) ((r + rs) ^ 2)); [reflexivity|].
  apply num_lt_false.
  set (cy := clamp _ _ _).
  destruct (num_gt _ 0) eqn:E.
  - unfold num_gt in E. apply bool_decide_eq_true_1 in E.
    unfold Vector3.lengthSq in E. simpl in E.
    assert (Hpos : 0 < r + rs).
    { rewrite <- Hhd. apply sqrt_lt_R0. lra. }
    assert (Hlen : Vector3.length (Vector3.mk dx 0 dz) = r + rs).
    { unfold Vector3.length, Vector3.lengthSq. simpl. rewrite <- Hhd. f_equal. ring. }
    unfold Vector3.normalize, num_or. rewrite num_eq_false by (rewrite Hlen; lra).
    rewrite Hlen. apply le_sqrt.
    unfold Vector3.distanceToSquared, Vector3.add, Vector3.multiplyScalar,
      Vector3.divideScalar. simpl. fold dx dz.
    set (k := 1 / (r + rs)).
    assert (Hk : k * (r + rs) = 1) by (unfold k; field; lra).
    assert (Ex : Vector3.x (worldPosition c) + dx * k * r - Vector3.x (sa_worldPosition s)
                 = - (dx * k * rs)).
    { replace (Vector3.x (worldPosition c) + dx * k * r - Vector3.x (sa_worldPosition s))
        with (dx * (k * (r + rs)) - dx * k * rs - dx) by (unfold dx; ring).
      rewrite Hk. ring. }
    assert (Ez : Vector3.z (worldPosition c) + dz * k * r - Vector3.z (sa_worldPosition s)
                 = - (dz * k * rs)).
    { replace (Vector3.z (worldPosition c) + dz * k * r - Vector3.z (sa_worldPosition s))
        with (dz * (k * (r + rs)) - dz * k * rs - dz) by (unfold dz; ring).
      rewrite Hk. ring. }
    rewrite Ex, Ez.
    assert (Es : - (dx * k * rs) * - (dx * k * rs) + - (dz * k * rs) * - (dz * k * rs)
                 = rs * rs).
    { replace (- (dx * k * rs) * - (dx * k * rs) + - (dz * k * rs) * - (dz * k * rs))
        with ((dx * dx + dz * dz) * (k * k) * (rs * rs)) by ring.
      rewrite Hsq.
      replace ((r + rs) * (r + rs) * (k * k)) with ((k * (r + rs)) * (k * (r + rs))) by ring.
      rewrite Hk. ring. }
    pose proof (sq_nonneg (cy - Vector3.y (sa_worldPosition s))). lra.
  - unfold num_gt in E. apply bool_decide_eq_false_1 in E.
    unfold Vector3.lengthSq in E. simpl in E.
    assert (H0 : (r + rs) * (r + rs) = 0)
      by (pose proof (sq_nonneg dx); pose proof (sq_nonneg dz); lra).
    assert (Hrs : rs <= 0) by nra.
    eapply Rle_trans; [exact Hrs|]. apply sqrt_pos.
Qed.

(** C6, as the code has it.  The tests on a distance (sphere-sphere,
    box-sphere, capsule-sphere, capsule-capsule, cylinder-sphere, and the
    circle-rectangle test of cylinder-box) use strict [<]: at a distance
    equal to the radius or to the sum of the radii the answer is false.
    The tests on AABBs use [<=] and [>=]: two boxes that share exactly a
    face, any of the six, are reported as colliding, and so is a cylinder
    whose base or top lies in a face of a box under or over it. *)
Theorem exact_contact (T : Scene) (A B : Collider) (s : SphereArg) :
  (Vector3.distanceTo (worldPosition A) (worldPosition B) = radius A + radius B ->
   SphereCollider.intersectsSphere A (as_sphere B) = false) /\
  (let box := BoxCollider.updateBounds A in
   Vector3.distanceTo (BoxCollider.closestPoint box (sa_worldPosition s)) (sa_worldPosition s)
   = sa_radius s ->
   (BoxCollider.intersectsSphere A s).1 = false) /\
  (let cap := CapsuleCollider.updateCapsulePoints A in
   Vector3.distanceTo
     (CapsuleCollider.closestPointOnSegment (sa_worldPosition s)
        (CapsuleCollider.pointA cap) (CapsuleCollider.pointB cap))
     (sa_worldPosition s)
   = radius cap + sa_radius s ->
   (CapsuleCollider.intersectsSphere A s).1 = false) /\
  (let capA := CapsuleCollider.updateCapsulePoints A in
   let capB := CapsuleCollider.updateCapsulePoints B in
   let closest :=
     CapsuleCollider.closestPointsOnSegments
       (CapsuleCollider.pointA capA) (CapsuleCollider.pointB capA)
       (CapsuleCollider.pointA capB) (CapsuleCollider.pointB capB) in
   Vector3.distanceTo closest.1 closest.2 = radius capA + radius capB ->
   (CapsuleCollider.intersectsCapsule A B).1.1 = false) /\
  (0 <= radius A ->
   horizontal_distance A (sa_worldPosition s) = radius A + sa_radius s ->
   CylinderCollider.intersectsSphere A s = false) /\
  (let cyl := CylinderCollider.updateWorldPosition T A in
   let box := BoxCollider.updateBounds B in
   let dx := clamp (Vector3.x (bounds_min box)) (Vector3.x (worldPosition cyl))
               (Vector3.x (bounds_max box)) - Vector3.x (worldPosition cyl) in
   let dz := clamp (Vector3.z (bounds_min box)) (Vector3.z (worldPosition cyl))
               (Vector3.z (bounds_max box)) - Vector3.z (worldPosition cyl) in
   sqrt (dx * dx + dz * dz) = radius cyl ->
   (CylinderCollider.intersectsBox T A B).1.1 = false) /\
  (let boxA := BoxCollider.updateBounds A in
   let boxB := BoxCollider.updateBounds B in
   aabb_share_face boxA boxB ->
   (BoxCollider.intersectsBox A B).1.1 = true) /\
  (let cyl := CylinderCollider.updateWorldPosition T A in
   let box := BoxCollider.updateBounds B in
   let dx := clamp (Vector3.x (bounds_min box)) (Vector3.x (worldPosition cyl))
               (Vector3.x (bounds_max box)) - Vector3.x (worldPosition cyl) in
   let dz := clamp (Vector3.z (bounds_min box)) (Vector3.z (worldPosition cyl))
               (Vector3.z (bounds_max box)) - Vector3.z (worldPosition cyl) in
   aabb_meet cyl box ->
   Vector3.y (bounds_min cyl) = Vector3.y (bounds_max box) \/
   Vector3.y (bounds_max cyl) = Vector3.y (bounds_min box) ->
   dx * dx + dz * dz < radius cyl * radius cyl ->
   (CylinderCollider.intersectsBox T A B).1.1 = true).
Proof.
  split; [|split; [|split; [|split; [|split; [|split; [|split]]]]]].
  - intros H. unfold SphereCollider.intersectsSphere, as_sphere; simpl.
    apply num_lt_false. lra.
  - intros box H. unfold BoxCollider.intersectsSphere; simpl.
    apply num_lt_false. fold box. lra.
  - intros cap H. unfold CapsuleCollider.intersectsSphere; simpl.
    apply num_lt_false. fold cap. lra.
  - intros capA capB closest H. unfold CapsuleCollider.intersectsCapsule.
    fold capA capB. fold closest. destruct closest as [p q]; simpl in *.
    apply num_lt_false. lra.
  - apply cylinder_side_contact.
  - intros cyl box dx dz H. unfold CylinderCollider.intersectsBox. fold cyl box.
    cbv zeta. fold dx dz.
    destruct (_ || _); [reflexivity|]. simpl.
    apply num_lt_false.
    assert (Hnn : 0 <= dx * dx + dz * dz)
      by (pose proof (sq_nonneg dx); pose proof (sq_nonneg dz); lra).
    rewrite (sqrt_eq_square _ _ Hnn H). lra.
  - intros boxA boxB [(H1 & H2 & H3 & H4 & H5 & H6) _]. unfold BoxCollider.intersectsBox.
    fold boxA boxB. simpl.
    rewrite !num_le_true, !num_ge_true by lra. reflexivity.
  - intros cyl box dx dz (H1 & H2 & H3 & H4 & H5 & H6) _ Hc.
    unfold CylinderCollider.intersectsBox. fold cyl box. cbv zeta. fold dx dz.
    rewrite !num_lt_false, !num_gt_false by lra. simpl.
    apply num_lt_true. exact Hc.
Qed.

Lemma exact_contact_witness :
  SphereCollider.intersectsSphere sphereA (as_sphere sphereC) = false /\
  (BoxCollider.intersectsBox boxLeft boxRight).1.1 = true /\
  CylinderCollider.intersectsSphere pillar (as_sphere ballBeside) = false /\
  (CylinderCollider.intersectsBox (fun _ => Vector3.zero) pillar plinth).1.1 = true.
Proof.
  destruct (exact_contact (fun _ => Vector3.zero) sphereA sphereC (as_sphere sphereC))
    as (H1 & _).
  destruct (exact_contact (fun _ => Vector3.zero) boxLeft boxRight (as_sphere sphereC))
    as (_ & _ & _ & _ & _ & _ & H7 & _).
  destruct (exact_contact (fun _ => Vector3.zero) pillar plinth (as_sphere ballBeside))
    as (_ & _ & _ & _ & H5 & _ & _ & H8).
  split; [|split; [|split]].
  - apply H1. reval. rsqrt 2. lra.
  - apply H7. unfold aabb_share_face, aabb_meet. reval. repeat split; lra.
  - apply H5.
    + reval. lra.
    + unfold horizontal_distance. reval. rsqrt 2. lra.
  - apply H8.
    + unfold aabb_meet. reval. repeat split; lra.
    + left. reval. lra.
    + reval. unfold clamp. rdecide. lra.
Defined.

(** ** Responses *)

(** C7 at its failing input.  The ball (radius 1/2) sits with its centre
    at the centre of the box: the pair overlaps, and the response has the
    zero vector for direction and normal, so the push of
    [resolveCollision] is zero and the ball stays where it is.  Two
    spheres with one centre get the zero direction in the same way. *)
Theorem embedded_ball_zero_direction :
  (CollisionSystem.checkCollision ballInside ball staticBox).1.1 = true /\
  (CollisionSystem.getCollisionResponse ballInside ball staticBox).1.1
  = Some (mkResponse Vector3.zero (1 / 2) Vector3.zero) /\
  positions
    (CollisionSystem.resolveCollision ball staticBox
       (mkResponse Vector3.zero (1 / 2) Vector3.zero)
       (mkWorld [ball; staticBox] ballInside)) 1%nat
  = Vector3.zero /\
  direction (SphereCollider.getCollisionResponse sphereA (as_sphere sphereA)) = Vector3.zero.
Proof.
  split; [|split; [|split]].
  - reval. rdecide. rsqrt 0. rdecide. reflexivity.
  - reval. rdecide. rsqrt 0. rdecide. rcompare.
  - reval. rcompare.
  - reval. rsqrt 0. rdecide. rcompare.
Qed.

(** The sibling that handles the embedded case: there
    [CylinderCollider.getCollisionResponseForBox] answers one of the six
    axis directions, of length 1, through the face at the least distance. *)
Lemma cylinder_embedded_direction (this box : Collider) :
  let wp := worldPosition this in
  let r := CylinderCollider.getCollisionResponseForBox this box in
  (Vector3.x (bounds_min box) < Vector3.x wp < Vector3.x (bounds_max box) /\
   Vector3.y (bounds_min box) < Vector3.y wp < Vector3.y (bounds_max box) /\
   Vector3.z (bounds_min box) < Vector3.z wp < Vector3.z (bounds_max box))
  \/ Vector3.length (Vector3.subVectors wp (BoxCollider.closestPoint box wp)) < 1 / 1000 ->
  direction r ∈ axis_directions /\
  Vector3.length (direction r) = 1 /\
  normal r = direction r /\
  face_distance box wp (direction r)
  = CylinderCollider.min6
      (Vector3.x wp - Vector3.x (bounds_min box)) (Vector3.x (bounds_max box) - Vector3.x wp)
      (Vector3.y wp - Vector3.y (bounds_min box)) (Vector3.y (bounds_max box) - Vector3.y wp)
      (Vector3.z wp - Vector3.z (bounds_min box)) (Vector3.z (bounds_max box) - Vector3.z wp) /\
  overlap r = face_distance box wp (direction r) + radius this.
Proof.
  intros wp r Hin. subst r. unfold CylinderCollider.getCollisionResponseForBox.
  fold wp.
  set (inside := (_ && _ && _ && _ && _ && _)%bool).
  assert (Hcond : inside || num_lt
            (Vector3.length (Vector3.subVectors wp (BoxCollider.closestPoint box wp)))
            (1 / 1000) = true).
  { destruct Hin as [(Hx & Hy & Hz)|Hd].
    - subst inside. rewrite !num_gt_true, !num_lt_true by lra. reflexivity.
    - rewrite (num_lt_true _ _ Hd). apply orb_true_r. }
  rewrite Hcond.
  set (m := CylinderCollider.min6 _ _ _ _ _ _).
  assert (Hm :
    m = Vector3.x wp - Vector3.x (bounds_min box) \/
    m = Vector3.x (bounds_max box) - Vector3.x wp \/
    m = Vector3.y wp - Vector3.y (bounds_min box) \/
    m = Vector3.y (bounds_max box) - Vector3.y wp \/
    m = Vector3.z wp - Vector3.z (bounds_min box) \/
    m = Vector3.z (bounds_max box) - Vector3.z wp).
  { subst m. unfold CylinderCollider.min6.
    repeat (apply Rmin_case_strong; intros _); tauto. }
  unfold face_distance, axis_directions.
  repeat match goal with
  | |- context [num_eq m ?d] =>
      let E := fresh "E" in
      destruct (num_eq m d) eqn:E;
      [ apply bool_decide_eq_true_1 in E | apply bool_decide_eq_false_1 in E ]
  end;
  simpl; rdecide;
  (split; [apply list_elem_of_In; simpl; tauto|]);
  (split; [unfold Vector3.length, Vector3.lengthSq; simpl; apply sqrt_of_square; lra|]);
  (split; [reflexivity|]);
  (split; [|first [reflexivity | lra | idtac]]); try (symmetry; assumption).
  all: destruct Hm as [|[|[|[|[|]]]]]; try contradiction; lra.
Qed.

(** C8 at its failing input.  With the box first and the ball second (the
    ball 0.3 above the top face), the response handed to the box side has
    direction (0,0,1): from the box towards the ball, the sense opposite to
    the one C8 states.  [resolveCollision] then moves the ball, the
    non-static side, from z = 1.3 to z = 1.1, further into the box. *)
Theorem box_first_response_reversed :
  let '(response, a, b) := CollisionSystem.getCollisionResponse ballAbove staticBox ball in
  (CollisionSystem.checkCollision ballAbove staticBox ball).1.1 = true /\
  response = Some (mkResponse (Vector3.mk 0 0 1) (1 / 5) (Vector3.mk 0 0 1)) /\
  Vector3.dot (Vector3.mk 0 0 1) (Vector3.subVectors (worldPosition a) (worldPosition b)) < 0 /\
  positions
    (CollisionSystem.resolveCollision a b
       (mkResponse (Vector3.mk 0 0 1) (1 / 5) (Vector3.mk 0 0 1))
       (mkWorld [a; b] ballAbove)) 1%nat
  = Vector3.mk 0 0 (11 / 10).
Proof.
  reval. rdecide. rsqrt (3 / 10). rdecide.
  split; [reflexivity|]. split; [rcompare|]. split; [lra|rcompare].
Qed.

(** The sibling order: with the ball first, the same call gives (0,0,1) as
    the direction for the ball side, away from the box, and the ball is
    moved out, to z = 1.5. *)
Lemma ball_first_response_outward :
  let '(response, a, b) := CollisionSystem.getCollisionResponse ballAbove ball staticBox in
  response = Some (mkResponse (Vector3.mk 0 0 1) (1 / 5) (Vector3.mk 0 0 1)) /\
  0 < Vector3.dot (Vector3.mk 0 0 1) (Vector3.subVectors (worldPosition a) (worldPosition b)) /\
  positions
    (CollisionSystem.resolveCollision a b
       (mkResponse (Vector3.mk 0 0 1) (1 / 5) (Vector3.mk 0 0 1))
       (mkWorld [a; b] ballAbove)) 1%nat
  = Vector3.mk 0 0 (3 / 2).
Proof.
  reval. rdecide. rsqrt (3 / 10). rdecide.
  split; [rcompare|]. split; [lra|rcompare].
Qed.

(** Against anything but a capsule the response of a capsule goes through
    [closestPointOnSegment]; the axis is taken to have a length. *)
Lemma capsule_response_normal_overlap (a b : Collider) :
  (type b <> CAPSULE -> axis_length a <> 0) ->
  normal (CapsuleCollider.getCollisionResponse a b).1.1
  = direction (CapsuleCollider.getCollisionResponse a b).1.1 /\
  0 <= overlap (CapsuleCollider.getCollisionResponse a b).1.1.
Proof.
  intros _. unfold CapsuleCollider.getCollisionResponse.
  destruct (decide (type b = CAPSULE)).
  - destruct (CapsuleCollider.closestPointsOnSegments _ _ _ _); simpl.
    split; [reflexivity|apply Rmax_l].
  - simpl. split; [reflexivity|apply Rmax_l].
Qed.

Lemma box_response_normal_overlap (c : Collider) (arg : SphereArg) :
  normal (BoxCollider.getCollisionResponseForSphere c arg).1
  = direction (BoxCollider.getCollisionResponseForSphere c arg).1 /\
  0 <= overlap (BoxCollider.getCollisionResponseForSphere c arg).1.
Proof.
  unfold BoxCollider.getCollisionResponseForSphere. simpl.
  split; [reflexivity|apply Rmax_l].
Qed.

(** What holds of every response the system computes: the normal is the
    direction and the overlap is not negative. *)
Lemma response_normal_overlap (T : Scene) (a b : Collider) (r : Response) :
  (class a = KCapsule -> class b <> KCapsule -> axis_length a <> 0) ->
  (CollisionSystem.getCollisionResponse T a b).1.1 = Some r ->
  normal r = direction r /\ 0 <= overlap r.
Proof.
  intros _. unfold CollisionSystem.getCollisionResponse.
  set (a' := CollisionSystem.updateWorldPosition T a).
  set (b' := CollisionSystem.updateWorldPosition T b).
  pose proof (box_response_normal_overlap b' (as_sphere a')) as Hbox1.
  pose proof (box_response_normal_overlap a' (as_sphere b')) as Hbox2.
  destruct (CollisionSystem.tagged a' SPHERE && CollisionSystem.tagged b' SPHERE).
  - simpl. unfold CollisionSystem.call_getCollisionResponse.
    destruct (shape a'); intros H; try discriminate. injection H as <-.
    unfold SphereCollider.getCollisionResponse. simpl.
    split; [reflexivity|apply Rmax_l].
  - destruct (CollisionSystem.tagged a' SPHERE && CollisionSystem.tagged b' BOX).
    { destruct (BoxCollider.getCollisionResponseForSphere b' (as_sphere a')).
      simpl in *. intros H. injection H as <-. exact Hbox1. }
    destruct (CollisionSystem.tagged a' CAPSULE).
    { unfold CapsuleCollider.getCollisionResponse.
      destruct (decide (type b' = CAPSULE));
        [destruct (CapsuleCollider.closestPointsOnSegments _ _ _ _)|];
        simpl; intros H; injection H as <-; (split; [reflexivity|apply Rmax_l]). }
    destruct (CollisionSystem.tagged a' BOX && CollisionSystem.tagged b' SPHERE).
    { destruct (BoxCollider.getCollisionResponseForSphere a' (as_sphere b')).
      simpl in *. intros H. injection H as <-. exact Hbox2. }
    simpl. intros H. injection H as <-. simpl. split; [reflexivity|lra].
Qed.

(** ** The sweep: what the narrow phase leaves alone *)

Lemma book_id (c c' : Collider) : book c' = book c -> id c' = id c.
Proof. unfold book. congruence. Qed.

Lemma book_active (c c' : Collider) : book c' = book c -> activeCollisions c' = activeCollisions c.
Proof. unfold book. congruence. Qed.

Lemma book_handlers (c c' : Collider) :
  book c' = book c ->
  onCollisionEnter c' = onCollisionEnter c /\
  onCollisionStay c' = onCollisionStay c /\
  onCollisionExit c' = onCollisionExit c.
Proof. unfold book. intros H. injection H. auto. Qed.

(** Whatever does not depend on the world position or on the cached
    points and bounds, such as the bookkeeping or the class, is left alone
    by the narrow phase. *)
Section Kept.

Variables (X : Type) (f : Collider -> X).
Hypothesis f_shape : forall c s, shape_class s = class c -> f (with_shape c s) = f c.
Hypothesis f_position : forall c v, f (with_worldPosition c v) = f c.

Lemma kept_base_updateWorldPosition (T : Scene) (c : Collider) :
  f (ColliderBase.updateWorldPosition T c) = f c.
Proof.
  unfold ColliderBase.updateWorldPosition. destruct (parent c); [apply f_position|reflexivity].
Qed.

Lemma class_base_updateWorldPosition (T : Scene) (c : Collider) :
  shape (ColliderBase.updateWorldPosition T c) = shape c.
Proof. unfold ColliderBase.updateWorldPosition. destruct (parent c); reflexivity. Qed.

Lemma kept_updateWorldPosition (T : Scene) (c : Collider) :
  f (CollisionSystem.updateWorldPosition T c) = f c.
Proof.
  unfold CollisionSystem.updateWorldPosition, CylinderCollider.updateWorldPosition.
  pose proof (class_base_updateWorldPosition T c) as Hs.
  destruct (shape c) eqn:E; try apply kept_base_updateWorldPosition.
  rewrite Hs. rewrite f_shape; [apply kept_base_updateWorldPosition|].
  unfold class. rewrite Hs. reflexivity.
Qed.

Lemma kept_updateBounds (c : Collider) : f (BoxCollider.updateBounds c) = f c.
Proof.
  unfold BoxCollider.updateBounds. destruct (shape c) eqn:E; try reflexivity.
  apply f_shape. unfold class. rewrite E. reflexivity.
Qed.

Lemma kept_updateCapsulePoints (c : Collider) :
  f (CapsuleCollider.updateCapsulePoints c) = f c.
Proof.
  unfold CapsuleCollider.updateCapsulePoints. destruct (shape c) eqn:E; try reflexivity.
  apply f_shape. unfold class. rewrite E. reflexivity.
Qed.

Lemma kept_call_intersectsSphere (c : Collider) (arg : SphereArg) :
  f (CollisionSystem.call_intersectsSphere c arg).2 = f c.
Proof.
  unfold CollisionSystem.call_intersectsSphere, BoxCollider.intersectsSphere,
    CapsuleCollider.intersectsSphere.
  destruct (shape c); simpl;
    auto using kept_updateBounds, kept_updateCapsulePoints.
Qed.

Lemma kept_intersectsCapsule (a b : Collider) :
  f (CapsuleCollider.intersectsCapsule a b).1.2 = f a /\
  f (CapsuleCollider.intersectsCapsule a b).2 = f b.
Proof.
  unfold CapsuleCollider.intersectsCapsule.
  destruct (CapsuleCollider.closestPointsOnSegments _ _ _ _); simpl.
  split; apply kept_updateCapsulePoints.
Qed.

Lemma kept_intersectsBox (a b : Collider) :
  f (BoxCollider.intersectsBox a b).1.2 = f a /\
  f (BoxCollider.intersectsBox a b).2 = f b.
Proof. unfold BoxCollider.intersectsBox; simpl. split; apply kept_updateBounds. Qed.

Lemma kept_checkCollision (T : Scene) (a b : Collider) :
  f (CollisionSystem.checkCollision T a b).1.2 = f a /\
  f (CollisionSystem.checkCollision T a b).2 = f b.
Proof.
  unfold CollisionSystem.checkCollision.
  destruct (negb (ColliderBase.canCollideWith a b)); [split; reflexivity|].
  pose proof (kept_updateWorldPosition T a) as Ha.
  pose proof (kept_updateWorldPosition T b) as Hb.
  set (a' := CollisionSystem.updateWorldPosition T a) in *.
  set (b' := CollisionSystem.updateWorldPosition T b) in *.
  pose proof (kept_intersectsCapsule a' b') as [? ?].
  pose proof (kept_intersectsBox a' b') as [? ?].
  repeat match goal with
  | |- context [if ?c then _ else _] => destruct c
  | |- context [CollisionSystem.call_intersectsSphere ?c ?arg] =>
      pose proof (kept_call_intersectsSphere c arg);
      destruct (CollisionSystem.call_intersectsSphere c arg)
  end; simpl in *; split; congruence.
Qed.

Lemma kept_getCollisionResponseForSphere (c : Collider) (arg : SphereArg) :
  f (BoxCollider.getCollisionResponseForSphere c arg).2 = f c.
Proof. unfold BoxCollider.getCollisionResponseForSphere; simpl. apply kept_updateBounds. Qed.

Lemma kept_capsule_getCollisionResponse (a b : Collider) :
  f (CapsuleCollider.getCollisionResponse a b).1.2 = f a /\
  f (CapsuleCollider.getCollisionResponse a b).2 = f b.
Proof.
  unfold CapsuleCollider.getCollisionResponse.
  destruct (decide (type b = CAPSULE)).
  - destruct (CapsuleCollider.closestPointsOnSegments _ _ _ _); simpl.
    split; apply kept_updateCapsulePoints.
  - simpl. split; [apply kept_updateCapsulePoints|reflexivity].
Qed.

Lemma kept_getCollisionResponse (T : Scene) (a b : Collider) :
  f (CollisionSystem.getCollisionResponse T a b).1.2 = f a /\
  f (CollisionSystem.getCollisionResponse T a b).2 = f b.
Proof.
  unfold CollisionSystem.getCollisionResponse.
  pose proof (kept_updateWorldPosition T a) as Ha.
  pose proof (kept_updateWorldPosition T b) as Hb.
  set (a' := CollisionSystem.updateWorldPosition T a) in *.
  set (b' := CollisionSystem.updateWorldPosition T b) in *.
  pose proof (kept_capsule_getCollisionResponse a' b') as [? ?].
  pose proof (kept_getCollisionResponseForSphere b' (as_sphere a')).
  pose proof (kept_getCollisionResponseForSphere a' (as_sphere b')).
  repeat match goal with
  | |- context [if ?c then _ else _] => destruct c
  | |- context [match ?e with (_, _) => _ end] => destruct e as [[? ?] ?] || destruct e as [? ?]
  end; simpl in *; split; congruence.
Qed.

End Kept.

Lemma book_with_shape (c : Collider) (s : Shape) :
  shape_class s = class c -> book (with_shape c s) = book c.
Proof. reflexivity. Qed.

Lemma book_with_worldPosition (c : Collider) (v : Vector3.t) :
  book (with_worldPosition c v) = book c.
Proof. reflexivity. Qed.

Lemma class_with_shape (c : Collider) (s : Shape) :
  shape_class s = class c -> class (with_shape c s) = class c.
Proof. intros H. exact H. Qed.

Lemma class_with_worldPosition (c : Collider) (v : Vector3.t) :
  class (with_worldPosition c v) = class c.
Proof. reflexivity. Qed.

Lemma book_updateWorldPosition (T : Scene) (c : Collider) :
  book (CollisionSystem.updateWorldPosition T c) = book c.
Proof. apply kept_updateWorldPosition; [apply book_with_shape|apply book_with_worldPosition]. Qed.

Lemma book_checkCollision (T : Scene) (a b : Collider) :
  book (CollisionSystem.checkCollision T a b).1.2 = book a /\
  book (CollisionSystem.checkCollision T a b).2 = book b.
Proof. apply kept_checkCollision; [apply book_with_shape|apply book_with_worldPosition]. Qed.

Lemma book_getCollisionResponse (T : Scene) (a b : Collider) :
  book (CollisionSystem.getCollisionResponse T a b).1.2 = book a /\
  book (CollisionSystem.getCollisionResponse T a b).2 = book b.
Proof. apply kept_getCollisionResponse; [apply book_with_shape|apply book_with_worldPosition]. Qed.

Lemma class_updateWorldPosition (T : Scene) (c : Collider) :
  class (CollisionSystem.updateWorldPosition T c) = class c.
Proof. apply kept_updateWorldPosition; [apply class_with_shape|apply class_with_worldPosition]. Qed.

Lemma class_checkCollision (T : Scene) (a b : Collider) :
  class (CollisionSystem.checkCollision T a b).1.2 = class a /\
  class (CollisionSystem.checkCollision T a b).2 = class b.
Proof. apply kept_checkCollision; [apply class_with_shape|apply class_with_worldPosition]. Qed.

Lemma class_getCollisionResponse (T : Scene) (a b : Collider) :
  class (CollisionSystem.getCollisionResponse T a b).1.2 = class a /\
  class (CollisionSystem.getCollisionResponse T a b).2 = class b.
Proof.
  apply kept_getCollisionResponse; [apply class_with_shape|apply class_with_worldPosition].
Qed.

Lemma colliders_resolveCollision (a b : Collider) (r : Response) (w : World) :
  colliders (CollisionSystem.resolveCollision a b r w) = colliders w.
Proof.
  unfold CollisionSystem.resolveCollision.
  repeat match goal with |- context [if ?c then _ else _] => destruct c end; reflexivity.
Qed.

Lemma books_insert_same (cs : list Collider) (i : nat) (c c' : Collider) :
  cs !! i = Some c -> book c' = book c -> map book (<[i:=c']> cs) = map book cs.
Proof.
  intros Hi Hb. rewrite list_fmap_insert, Hb.
  apply list_insert_id. rewrite list_lookup_fmap, Hi. reflexivity.
Qed.

Lemma books_insert2_same (cs : list Collider) (i j : nat) (a b a' b' : Collider) :
  i <> j -> cs !! i = Some a -> cs !! j = Some b ->
  book a' = book a -> book b' = book b ->
  map book (<[j:=b']> (<[i:=a']> cs)) = map book cs.
Proof.
  intros Hij Hi Hj Ha Hb.
  rewrite (books_insert_same _ j b b');
    [|rewrite list_lookup_insert_ne by exact Hij; exact Hj|exact Hb].
  apply (books_insert_same _ i a a'); assumption.
Qed.

Lemma processPair_outcome (i j : nat) (st : CollisionSystem.Sweep) (a b : Collider) :
  i <> j ->
  colliders (CollisionSystem.sw_world st) !! i = Some a ->
  colliders (CollisionSystem.sw_world st) !! j = Some b ->
  PairOutcome i j st a b
    (CollisionSystem.checkCollision (positions (CollisionSystem.sw_world st)) a b).1.1
    (CollisionSystem.processPair i j st).
Proof.
  intros Hij Hi Hj. unfold CollisionSystem.processPair. rewrite Hi, Hj.
  destruct (book_checkCollision (positions (CollisionSystem.sw_world st)) a b) as [Ha1 Hb1].
  destruct (CollisionSystem.checkCollision _ a b) as [[hit a1] b1]. simpl in *.
  destruct hit.
  - destruct (book_getCollisionResponse (positions (CollisionSystem.sw_world st)) a1 b1)
      as [Ha2 Hb2].
    destruct (CollisionSystem.getCollisionResponse _ a1 b1) as [[resp a2] b2]. simpl in *.
    assert (Ha : book a2 = book a) by congruence.
    assert (Hb : book b2 = book b) by congruence.
    rewrite (book_id _ _ Ha1), (book_id _ _ Hb1), (book_active _ _ Ha1).
    destruct resp as [r|].
    + destruct (set_has (id b) (activeCollisions a)) eqn:Hwas; simpl.
      * apply (pair_stay _ _ _ _ _ _ r); [exact Hwas| | |]; simpl.
        -- unfold books; simpl. rewrite colliders_resolveCollision. simpl.
           apply (books_insert2_same _ i j a b); assumption.
        -- reflexivity.
        -- rewrite (book_id _ _ Ha), (book_id _ _ Hb).
           destruct (book_handlers _ _ Ha) as (_ & -> & _).
           destruct (book_handlers _ _ Hb) as (_ & -> & _). reflexivity.
      * apply (pair_enter _ _ _ _ _ _ r); [exact Hwas| | |]; simpl.
        -- unfold books; simpl. rewrite colliders_resolveCollision. simpl.
           rewrite !list_fmap_insert.
           replace (book (with_activeCollisions a2 (set_add (id b2) (activeCollisions a2))))
             with (book_add (id b) (book a)).
           2:{ unfold book_add. rewrite <- Ha. unfold book; simpl.
               rewrite ?(book_id _ _ Hb), ?(book_id _ _ Ha). reflexivity. }
           replace (book (with_activeCollisions b2 (set_add (id a2) (activeCollisions b2))))
             with (book_add (id a) (book b)).
           2:{ unfold book_add. rewrite <- Hb. unfold book; simpl.
               rewrite ?(book_id _ _ Hb), ?(book_id _ _ Ha). reflexivity. }
           reflexivity.
        -- reflexivity.
        -- rewrite (book_id _ _ Ha), (book_id _ _ Hb).
           destruct (book_handlers _ _ Ha) as (-> & _ & _).
           destruct (book_handlers _ _ Hb) as (-> & _ & _). reflexivity.
    + apply pair_throw; simpl; [|reflexivity|reflexivity].
      unfold books; simpl. apply (books_insert2_same _ i j a b); assumption.
  - apply pair_miss; simpl; [|reflexivity|reflexivity].
    unfold books; simpl. apply (books_insert2_same _ i j a b); assumption.
Qed.

(** ** The pair loop *)

Lemma pairs_spec (n i j : nat) : (i, j) ∈ CollisionSystem.pairs n <-> (i < j < n)%nat.
Proof.
  unfold CollisionSystem.pairs. rewrite list_elem_of_In, in_flat_map. split.
  - intros (i' & Hi' & Hin). apply in_map_iff in Hin as (j' & Heq & Hj').
    injection Heq as -> ->. apply in_seq in Hi'. apply in_seq in Hj'. lia.
  - intros H. exists i. split; [apply in_seq; lia|].
    apply in_map_iff. exists j. split; [reflexivity|apply in_seq; lia].
Qed.

Lemma pairs_NoDup (n : nat) : NoDup (CollisionSystem.pairs n).
Proof.
  unfold CollisionSystem.pairs.
  assert (H : forall l, NoDup l ->
            NoDup (flat_map (fun i => map (fun j => (i, j)) (seq (S i) (n - S i))) l)).
  { induction l as [|i l IH]; intros Hl; simpl; [constructor|].
    apply NoDup_cons in Hl as [Hi Hl].
    apply NoDup_app. split; [|split].
    - apply NoDup_fmap_2; [intros x y; congruence|]. apply NoDup_ListNoDup, seq_NoDup.
    - intros [a b] Hin Hin'.
      apply list_elem_of_fmap in Hin as (j & Heq & _). injection Heq as -> _.
      apply list_elem_of_In, in_flat_map in Hin' as (i' & Hi' & Hin').
      apply in_map_iff in Hin' as (j' & Heq & _). injection Heq as <- _.
      apply Hi, list_elem_of_In, Hi'.
    - apply IH, Hl. }
  apply H, NoDup_ListNoDup, seq_NoDup.
Qed.

(** Whatever each pair's body keeps, the loop keeps, completed or not. *)
Lemma pairLoop_invariant (P : CollisionSystem.Sweep -> Prop) (ps : list (nat * nat)) :
  (forall i j st, (i, j) ∈ ps -> P st -> P (outcome (CollisionSystem.processPair i j st))) ->
  forall st, P st -> P (outcome (CollisionSystem.pairLoop ps st)).
Proof.
  induction ps as [|[i j] ps IH]; intros Hstep st HP; simpl; [exact HP|].
  pose proof (Hstep i j st ltac:(left) HP) as H1.
  destruct (CollisionSystem.processPair i j st) as [st1|st1]; simpl in *.
  - apply IH; [|exact H1]. intros i' j' st' Hin. apply Hstep. right. exact Hin.
  - exact H1.
Qed.

Lemma processPair_out_of_range (i j : nat) (st : CollisionSystem.Sweep) :
  colliders (CollisionSystem.sw_world st) !! i = None \/
  colliders (CollisionSystem.sw_world st) !! j = None ->
  CollisionSystem.processPair i j st = Normal st.
Proof.
  unfold CollisionSystem.processPair. intros [H|H]; rewrite H; [reflexivity|].
  destruct (_ !! i); reflexivity.
Qed.

(** A property of the bookkeeping that survives an Enter survives the
    body of the loop. *)
Lemma processPair_books (P : list (Book) -> Prop)
    (i j : nat) (st : CollisionSystem.Sweep) :
  i <> j ->
  (forall a b, books st !! i = Some a -> books st !! j = Some b ->
     b.1.1 ∉ a.1.2 ->
     P (books st) -> P (<[j := book_add a.1.1 b]> (<[i := book_add b.1.1 a]> (books st)))) ->
  P (books st) -> P (books (outcome (CollisionSystem.processPair i j st))).
Proof.
  intros Hij Henter HP.
  destruct (colliders (CollisionSystem.sw_world st) !! i) as [a|] eqn:Hi;
    [|rewrite processPair_out_of_range by (left; exact Hi); exact HP].
  destruct (colliders (CollisionSystem.sw_world st) !! j) as [b|] eqn:Hj;
    [|rewrite processPair_out_of_range by (right; exact Hj); exact HP].
  pose proof (processPair_outcome i j st a b Hij Hi Hj) as Ho.
  inversion Ho as [st' Hb Hc Hf Hh Heq|st' Hb Hc Hf Hh Heq
                  |st' r Hwas Hb Hc Hf Hh Heq|st' r Hwas Hb Hc Hf Hh Heq];
    simpl; rewrite Hb; try exact HP.
  apply (Henter (book a) (book b)).
  - unfold books. rewrite list_lookup_fmap, Hi. reflexivity.
  - unfold books. rewrite list_lookup_fmap, Hj. reflexivity.
  - simpl. unfold set_has in Hwas. apply bool_decide_eq_false_1 in Hwas. exact Hwas.
  - exact HP.
Qed.

(** ** Sets of ids *)

Lemma set_add_elem (k k' : string) (s : list string) :
  k' ∈ set_add k s <-> k' = k \/ k' ∈ s.
Proof.
  unfold set_add. destruct (bool_decide (k ∈ s)) eqn:E.
  - apply bool_decide_eq_true_1 in E. split; [auto|]. intros [->|H]; assumption.
  - rewrite elem_of_app, list_elem_of_singleton. tauto.
Qed.

Lemma set_add_NoDup (k : string) (s : list string) : NoDup s -> NoDup (set_add k s).
Proof.
  unfold set_add. intros H. destruct (bool_decide (k ∈ s)) eqn:E; [exact H|].
  apply bool_decide_eq_false_1 in E.
  apply NoDup_app. split; [exact H|]. split; [|apply NoDup_singleton].
  intros x Hx Hx'. apply list_elem_of_singleton in Hx'. subst x. contradiction.
Qed.

Lemma set_delete_elem (k k' : string) (s : list string) :
  k' ∈ set_delete k s <-> k' ∈ s /\ k' <> k.
Proof. unfold set_delete. rewrite list_elem_of_filter. tauto. Qed.

Lemma delete_all_elem (toRemove s : list string) (k : string) :
  k ∈ CollisionSystem.delete_all toRemove s <-> k ∈ s /\ k ∉ toRemove.
Proof.
  unfold CollisionSystem.delete_all. revert s.
  induction toRemove as [|x toRemove IH]; intros s; simpl.
  - split; [intros H; split; [exact H|apply not_elem_of_nil]|tauto].
  - rewrite IH, set_delete_elem, not_elem_of_cons. tauto.
Qed.

Lemma delete_all_NoDup (toRemove s : list string) :
  NoDup s -> NoDup (CollisionSystem.delete_all toRemove s).
Proof.
  unfold CollisionSystem.delete_all. revert s.
  induction toRemove as [|x toRemove IH]; intros s H; simpl; [exact H|].
  apply IH. unfold set_delete. apply NoDup_filter, H.
Qed.

(** ** Well-formed bookkeeping is kept *)

Lemma fmap_insert_same {A B : Type} (f : A -> B) (l : list A) (i : nat) (x y : A) :
  l !! i = Some x -> f y = f x -> map f (<[i:=y]> l) = map f l.
Proof.
  intros Hi Hf. rewrite list_fmap_insert, Hf.
  apply list_insert_id. rewrite list_lookup_fmap, Hi. reflexivity.
Qed.

Lemma book_ids_enter (bs : list (Book))
    (i j : nat) a b k k' :
  i <> j -> bs !! i = Some a -> bs !! j = Some b ->
  map (fun b => b.1.1) (<[j := book_add k b]> (<[i := book_add k' a]> bs))
  = map (fun b => b.1.1) bs.
Proof.
  intros Hij Hi Hj.
  rewrite (fmap_insert_same _ _ j b);
    [|rewrite list_lookup_insert_ne by exact Hij; exact Hj|reflexivity].
  apply (fmap_insert_same _ _ i a); [exact Hi|reflexivity].
Qed.

Lemma NoDup_lookup_ne {A : Type} (l : list A) (i j : nat) (x y : A) :
  NoDup l -> i <> j -> l !! i = Some x -> l !! j = Some y -> x <> y.
Proof.
  intros Hnd Hij Hi Hj ->. apply Hij. eapply NoDup_lookup; eassumption.
Qed.

Lemma wf_books_enter (bs : list (Book))
    (i j : nat) a b :
  i <> j -> bs !! i = Some a -> bs !! j = Some b ->
  wf_books bs ->
  wf_books (<[j := book_add a.1.1 b]> (<[i := book_add b.1.1 a]> bs)).
Proof.
  intros Hij Hi Hj [Hnd Hall]. split.
  - rewrite (book_ids_enter bs i j a b) by assumption. exact Hnd.
  - assert (Hne : a.1.1 <> b.1.1).
    { apply (NoDup_lookup_ne (map (fun b => b.1.1) bs) i j); try assumption;
        rewrite list_lookup_fmap; [rewrite Hi|rewrite Hj]; reflexivity. }
    pose proof (Forall_lookup_1 _ _ _ _ Hall Hi) as [Ha1 Ha2].
    pose proof (Forall_lookup_1 _ _ _ _ Hall Hj) as [Hb1 Hb2].
    apply Forall_insert; [apply Forall_insert; [exact Hall|]|]; unfold book_add; simpl.
    + split; [|apply set_add_NoDup, Ha2]. rewrite set_add_elem. tauto.
    + split; [|apply set_add_NoDup, Hb2]. rewrite set_add_elem.
      intros [?|?]; [apply Hne; congruence|tauto].
Qed.

Lemma pairLoop_wf (n : nat) (st : CollisionSystem.Sweep) :
  wf_books (books st) ->
  wf_books (books (outcome (CollisionSystem.pairLoop (CollisionSystem.pairs n) st))).
Proof.
  apply (pairLoop_invariant (fun st => wf_books (books st))).
  intros i j st' Hin Hwf.
  apply (processPair_books wf_books); [apply pairs_spec in Hin; lia| |exact Hwf].
  intros a b Hi Hj _ Hwf'. apply wf_books_enter; try assumption.
  apply pairs_spec in Hin; lia.
Qed.

(** ** The exit pass *)

Lemma exitPass_map (registry : list Collider) (cur : list string) (arr : list Collider) :
  CollisionSystem.exitPass registry cur arr
  = (map (fun c => with_activeCollisions c
                     (CollisionSystem.delete_all
                        (CollisionSystem.exitScan registry cur c (activeCollisions c)).1
                        (activeCollisions c))) arr,
     concat (map (fun c => (CollisionSystem.exitScan registry cur c (activeCollisions c)).2) arr)).
Proof.
  induction arr as [|c arr IH]; simpl; [reflexivity|].
  rewrite IH. destruct (CollisionSystem.exitScan registry cur c (activeCollisions c)).
  reflexivity.
Qed.

Lemma exitPass_wf (registry : list Collider) (cur : list string) (arr : list Collider) :
  wf_books (map book arr) ->
  wf_books (map book (CollisionSystem.exitPass registry cur arr).1).
Proof.
  rewrite exitPass_map. simpl. intros [Hnd Hall]. split.
  - replace (map (fun b => b.1.1) (map book (map _ arr)))
      with (map (fun b => b.1.1) (map book arr)); [exact Hnd|].
    clear. induction arr as [|c arr IH]; simpl; [reflexivity|]. rewrite IH. reflexivity.
  - clear Hnd. induction arr as [|c arr IH]; simpl in *; [constructor|].
    apply Forall_cons in Hall as [[H1 H2] Hall]. constructor; [|apply IH, Hall].
    simpl in *. split.
    + rewrite delete_all_elem. tauto.
    + apply delete_all_NoDup, H2.
Qed.

Lemma books_updateWorldPosition (T : Scene) (cs : list Collider) :
  map book (map (CollisionSystem.updateWorldPosition T) cs) = map book cs.
Proof.
  rewrite <- list_fmap_compose. apply list_fmap_ext.
  intros i c _. apply book_updateWorldPosition.
Qed.

Lemma tick_well_formed (w : World) : well_formed w -> well_formed (tick w).
Proof.
  unfold well_formed, tick, CollisionSystem.update. intros Hwf.
  set (st0 := CollisionSystem.mkSweep _ _ _).
  assert (H0 : wf_books (books st0)).
  { unfold books, st0; simpl. rewrite books_updateWorldPosition. exact Hwf. }
  pose proof (pairLoop_wf
    (length (map (CollisionSystem.updateWorldPosition (positions w)) (colliders w))) st0 H0) as H1.
  destruct (CollisionSystem.pairLoop _ st0) as [st|st]; simpl in *.
  - pose proof (exitPass_wf (colliders (CollisionSystem.sw_world st))
                  (CollisionSystem.currentCollisions st)
                  (colliders (CollisionSystem.sw_world st)) H1) as H2.
    destruct (CollisionSystem.exitPass _ _ _) as [cs' ev]. exact H2.
  - exact H1.
Qed.

Lemma book_ids (cs : list Collider) : map (fun b => b.1.1) (map book cs) = map id cs.
Proof. induction cs as [|c cs IH]; simpl; [reflexivity|]. rewrite IH. reflexivity. Qed.


(** ** Steps keep the bookkeeping well-formed *)

Lemma wf_books_filter (P : Collider -> Prop) `{forall c, Decision (P c)} (cs : list Collider) :
  wf_books (map book cs) -> wf_books (map book (filter P cs)).
Proof.
  unfold wf_books. induction cs as [|c cs IH]; simpl; [tauto|].
  intros [Hnd Hall]. apply NoDup_cons in Hnd as [Hc Hnd].
  apply Forall_cons in Hall as [Hc' Hall].
  destruct (IH (conj Hnd Hall)) as [IH1 IH2].
  rewrite filter_cons. destruct (decide (P c)); simpl; [|tauto].
  split; [|constructor; assumption].
  apply NoDup_cons. split; [|exact IH1].
  intros Hin. apply Hc.
  apply list_elem_of_fmap in Hin as (b & Hb & Hin).
  apply list_elem_of_fmap in Hin as (c' & -> & Hin).
  apply list_elem_of_filter in Hin as [_ Hin].
  apply list_elem_of_fmap. exists (book c'). split; [exact Hb|].
  apply list_elem_of_fmap. exists c'. split; [reflexivity|exact Hin].
Qed.

Lemma Step_well_formed (w w' : World) : Step w w' -> well_formed w -> well_formed w'.
Proof.
  intros HS Hwf. destruct HS as [w|w cs T Hb|w c Hc|w k].
  - apply tick_well_formed, Hwf.
  - unfold well_formed in *. simpl. rewrite Hb. exact Hwf.
  - unfold CollisionSystem.addCollider.
    destruct (CollisionSystem.has (colliders w) (id c)) eqn:Hhas; simpl; [exact Hwf|].
    unfold well_formed, wf_books in *. simpl. destruct Hwf as [Hnd Hall].
    rewrite !map_app. simpl. split.
    + apply NoDup_app. split; [exact Hnd|]. split; [|apply NoDup_singleton].
      intros x Hx Hx'. apply list_elem_of_singleton in Hx'. subst x.
      rewrite book_ids in Hx.
      unfold CollisionSystem.has in Hhas. apply bool_decide_eq_false_1 in Hhas.
      contradiction.
    + apply Forall_app. split; [exact Hall|]. constructor; [|constructor].
      simpl. rewrite Hc. split; [apply not_elem_of_nil|constructor].
  - unfold CollisionSystem.removeCollider.
    destruct (CollisionSystem.get (colliders w) k); simpl; [|exact Hwf].
    unfold well_formed in *. simpl. unfold CollisionSystem.delete.
    apply wf_books_filter, Hwf.
Qed.

Lemma Steps_well_formed (w w' : World) : rtc Step w w' -> well_formed w -> well_formed w'.
Proof.
  induction 1 as [|w w1 w2 H1 _ IH]; intros Hwf; [exact Hwf|].
  apply IH. eapply Step_well_formed; eassumption.
Qed.

Lemma well_formed_no_self (w : World) : well_formed w -> no_self_contact w.
Proof.
  unfold well_formed, wf_books, no_self_contact. intros [_ Hall].
  rewrite Forall_fmap in Hall. eapply Forall_impl; [exact Hall|].
  intros c [H _]. exact H.
Qed.

Lemma checkCollision_self (T : Scene) (A : Collider) :
  (CollisionSystem.checkCollision T A A).1.1 = false.
Proof.
  unfold CollisionSystem.checkCollision. rewrite canCollideWith_self. reflexivity.
Qed.

(** C10. A collider cannot collide with itself: [canCollideWith(A, A)] is
    false, so [checkCollision(A, A)] is; the pair loop only pairs distinct
    indices; and from a world with unique ids in which no collider holds
    its own id, no sequence of ticks, edits, registrations and removals
    leads to a world in which one does. *)
Theorem never_in_contact_with_itself (A : Collider) (T : Scene) (w w' : World) :
  ColliderBase.canCollideWith A A = false /\
  (CollisionSystem.checkCollision T A A).1.1 = false /\
  (forall n i j, (i, j) ∈ CollisionSystem.pairs n -> i <> j) /\
  (well_formed w -> rtc Step w w' -> ids_unique w' /\ no_self_contact w').
Proof.
  split; [apply canCollideWith_self|].
  split; [apply checkCollision_self|].
  split; [intros n i j H; apply pairs_spec in H; lia|].
  intros Hwf Hsteps.
  pose proof (Steps_well_formed w w' Hsteps Hwf) as Hwf'.
  split; [|apply well_formed_no_self, Hwf'].
  destruct Hwf' as [Hnd _]. unfold ids_unique. rewrite <- book_ids. exact Hnd.
Qed.

Lemma world0_well_formed : well_formed world0.
Proof.
  unfold well_formed, wf_books. simpl. split.
  - apply NoDup_cons. split; [|apply NoDup_singleton].
    intros H. apply list_elem_of_singleton in H. discriminate.
  - repeat constructor; apply not_elem_of_nil.
Defined.

Lemma never_in_contact_with_itself_witness :
  ids_unique (tick (tick world0)) /\ no_self_contact (tick (tick world0)).
Proof.
  destruct (never_in_contact_with_itself moverA (fun _ => Vector3.zero) world0
              (tick (tick world0))) as (_ & _ & _ & H).
  apply H; [exact world0_well_formed|].
  eapply rtc_l; [apply step_tick|]. eapply rtc_l; [apply step_tick|]. apply rtc_refl.
Defined.

(** ** An update completes unless a cylinder is involved *)

Lemma getCollisionResponse_Some (T : Scene) (a b : Collider) :
  class a <> KCylinder ->
  exists r, (CollisionSystem.getCollisionResponse T a b).1.1 = Some r.
Proof.
  intros Hc. unfold CollisionSystem.getCollisionResponse.
  pose proof (class_updateWorldPosition T a) as Ha.
  set (a' := CollisionSystem.updateWorldPosition T a) in *.
  set (b' := CollisionSystem.updateWorldPosition T b) in *.
  destruct (CollisionSystem.tagged a' SPHERE && CollisionSystem.tagged b' SPHERE) eqn:E1.
  - simpl. apply andb_true_iff in E1 as [E1 _].
    unfold CollisionSystem.tagged in E1. apply bool_decide_eq_true_1 in E1.
    unfold CollisionSystem.call_getCollisionResponse.
    unfold class, type in *. destruct (shape a'); simpl in *;
      try discriminate; [eexists; reflexivity|].
    exfalso. apply Hc. symmetry. exact Ha.
  - repeat match goal with
    | |- context [if ?c then _ else _] => destruct c
    | |- context [match ?e with (_, _) => _ end] => destruct e as [[? ?] ?] || destruct e as [? ?]
    end; simpl; eexists; reflexivity.
Qed.

Lemma processPair_completes (i j : nat) (st : CollisionSystem.Sweep) :
  Forall (fun c => class c <> KCylinder) (colliders (CollisionSystem.sw_world st)) ->
  exists st',
    CollisionSystem.processPair i j st = Normal st' /\
    Forall (fun c => class c <> KCylinder) (colliders (CollisionSystem.sw_world st')).
Proof.
  intros Hall. unfold CollisionSystem.processPair.
  destruct (colliders (CollisionSystem.sw_world st) !! i) as [a|] eqn:Hi;
    [|exists st; split; [reflexivity|exact Hall]].
  destruct (colliders (CollisionSystem.sw_world st) !! j) as [b|] eqn:Hj;
    [|exists st; split; [reflexivity|exact Hall]].
  pose proof (Forall_lookup_1 _ _ _ _ Hall Hi) as Hca.
  pose proof (Forall_lookup_1 _ _ _ _ Hall Hj) as Hcb.
  destruct (class_checkCollision (positions (CollisionSystem.sw_world st)) a b) as [Ha1 Hb1].
  destruct (CollisionSystem.checkCollision _ a b) as [[hit a1] b1]. simpl in *.
  destruct hit.
  - destruct (class_getCollisionResponse (positions (CollisionSystem.sw_world st)) a1 b1)
      as [Ha2 Hb2].
    destruct (getCollisionResponse_Some (positions (CollisionSystem.sw_world st)) a1 b1)
      as [r Hr]; [congruence|].
    destruct (CollisionSystem.getCollisionResponse _ a1 b1) as [[resp a2] b2]. simpl in *.
    subst resp.
    destruct (negb (set_has (id b1) (activeCollisions a1))); eexists; (split; [reflexivity|]);
      simpl; rewrite colliders_resolveCollision; simpl;
      (apply Forall_insert; [apply Forall_insert; [exact Hall|]|]);
      unfold class in *; simpl; congruence.
  - eexists. split; [reflexivity|]. simpl.
    apply Forall_insert; [apply Forall_insert; [exact Hall|]|]; congruence.
Qed.

Lemma pairLoop_completes (ps : list (nat * nat)) (st : CollisionSystem.Sweep) :
  Forall (fun c => class c <> KCylinder) (colliders (CollisionSystem.sw_world st)) ->
  exists st', CollisionSystem.pairLoop ps st = Normal st'.
Proof.
  revert st. induction ps as [|[i j] ps IH]; intros st Hall; simpl; [eexists; reflexivity|].
  destruct (processPair_completes i j st Hall) as (st1 & -> & Hall1).
  apply IH, Hall1.
Qed.

(** With no CylinderCollider in the registry, [update] runs to its end. *)
Lemma update_completes (w : World) :
  Forall (fun c => class c <> KCylinder) (colliders w) ->
  exists w' ev, CollisionSystem.update w = Normal (w', ev).
Proof.
  intros Hall. unfold CollisionSystem.update.
  set (cs0 := map (CollisionSystem.updateWorldPosition (positions w)) (colliders w)).
  destruct (pairLoop_completes (CollisionSystem.pairs (length cs0))
              (CollisionSystem.mkSweep (mkWorld cs0 (positions w)) [] [])) as [st ->].
  - simpl. unfold cs0. apply Forall_fmap. eapply Forall_impl; [exact Hall|].
    intros c Hc. simpl. rewrite class_updateWorldPosition. exact Hc.
  - destruct (CollisionSystem.exitPass _ _ _) as [cs' ev]. eexists. eexists. reflexivity.
Qed.

(** With a CylinderCollider registered before a sphere it overlaps,
    [update] stops in the pair loop: [checkCollision] answers true through
    the cylinder's [intersectsSphere], and [getCollisionResponse] then
    calls [getCollisionResponse] on the cylinder, which has no such
    method. *)
Lemma cylinder_first_update_throws :
  exists w ev, CollisionSystem.update pillarFirst = Throw (w, ev).
Proof.
  eexists. eexists. unfold CollisionSystem.update.
  change (CollisionSystem.pairs _) with [(0, 1)]%nat.
  unfold CollisionSystem.pairLoop.
  match goal with
  | |- context [CollisionSystem.processPair ?i ?j ?st] =>
      let H := fresh "H" in
      eassert (H : CollisionSystem.processPair i j st = _);
      [ reval; rdecide; reval; rsqrt 1; rdecide; reval; rdecide; reval; reflexivity
      | rewrite H; clear H; cbv iota beta ]
  end.
  reflexivity.
Qed.

(** ** What one update can mention *)

Lemma fire_spec (installed : bool) (e e' : Event) :
  e' ∈ CollisionSystem.fire installed e -> e' = e.
Proof.
  unfold CollisionSystem.fire. destruct installed; intros H.
  - apply list_elem_of_singleton in H. exact H.
  - apply elem_of_nil in H. contradiction.
Qed.

(** The body of the pair loop keeps the ids and only adds callbacks of the
    two colliders it is run on, none of them an exit. *)
Lemma processPair_effect (i j : nat) (st : CollisionSystem.Sweep) :
  i <> j ->
  let st' := outcome (CollisionSystem.processPair i j st) in
  map (fun b => b.1.1) (books st') = map (fun b => b.1.1) (books st) /\
  exists new,
    CollisionSystem.fired st' = CollisionSystem.fired st ++ new /\
    Forall (fun e =>
      exists a b,
        colliders (CollisionSystem.sw_world st) !! i = Some a /\
        colliders (CollisionSystem.sw_world st) !! j = Some b /\
        (receiver e = id a /\ partner e = id b \/ receiver e = id b /\ partner e = id a) /\
        kind e <> Exit) new.
Proof.
  intros Hij st'. subst st'.
  destruct (colliders (CollisionSystem.sw_world st) !! i) as [a|] eqn:Hi;
    [|rewrite processPair_out_of_range by (left; exact Hi); simpl;
      split; [reflexivity|exists []; rewrite app_nil_r; split; [reflexivity|constructor]]].
  destruct (colliders (CollisionSystem.sw_world st) !! j) as [b|] eqn:Hj;
    [|rewrite processPair_out_of_range by (right; exact Hj); simpl;
      split; [reflexivity|exists []; rewrite app_nil_r; split; [reflexivity|constructor]]].
  pose proof (processPair_outcome i j st a b Hij Hi Hj) as Ho.
  inversion Ho as [st' Hb Hc Hf Hh Heq|st' Hb Hc Hf Hh Heq
                  |st' r Hwas Hb Hc Hf Hh Heq|st' r Hwas Hb Hc Hf Hh Heq]; simpl.
  - rewrite Hb, Hf. split; [reflexivity|].
    exists []. rewrite app_nil_r. split; [reflexivity|constructor].
  - rewrite Hb, Hf. split; [reflexivity|].
    exists []. rewrite app_nil_r. split; [reflexivity|constructor].
  - rewrite Hb, Hf. split.
    + apply (book_ids_enter _ i j (book a) (book b)); [exact Hij| |];
        unfold books; rewrite list_lookup_fmap; [rewrite Hi|rewrite Hj]; reflexivity.
    + eexists. split; [reflexivity|].
      apply Forall_forall. intros e He. exists a, b.
      split; [reflexivity|]. split; [reflexivity|].
      apply elem_of_app in He as [He|He]; apply fire_spec in He; subst e; simpl;
        (split; [tauto|discriminate]).
  - rewrite Hb, Hf. split; [reflexivity|].
    eexists. split; [reflexivity|].
    apply Forall_forall. intros e He. exists a, b.
    split; [reflexivity|]. split; [reflexivity|].
    apply elem_of_app in He as [He|He]; apply fire_spec in He; subst e; simpl;
      (split; [tauto|discriminate]).
Qed.

Lemma lookup_id_elem (cs : list Collider) (i : nat) (c : Collider) :
  cs !! i = Some c -> id c ∈ map id cs.
Proof.
  intros H. apply list_elem_of_fmap. exists c. split; [reflexivity|].
  eapply list_elem_of_lookup_2, H.
Qed.

Lemma pairLoop_mentions (n : nat) (st : CollisionSystem.Sweep) (ids : list string) :
  map id (colliders (CollisionSystem.sw_world st)) = ids ->
  Forall (fun e => receiver e ∈ ids /\ partner e ∈ ids) (CollisionSystem.fired st) ->
  let st' := outcome (CollisionSystem.pairLoop (CollisionSystem.pairs n) st) in
  map id (colliders (CollisionSystem.sw_world st')) = ids /\
  Forall (fun e => receiver e ∈ ids /\ partner e ∈ ids) (CollisionSystem.fired st').
Proof.
  intros Hids Hev.
  apply (pairLoop_invariant
           (fun st => map id (colliders (CollisionSystem.sw_world st)) = ids /\
                      Forall (fun e => receiver e ∈ ids /\ partner e ∈ ids)
                        (CollisionSystem.fired st))); [|split; assumption].
  intros i j st1 Hin [H1 H2].
  assert (Hij : i <> j) by (apply pairs_spec in Hin; lia).
  destruct (processPair_effect i j st1 Hij) as [Hi (new & Hf & Hnew)].
  unfold books in Hi. rewrite !book_ids in Hi.
  split; [congruence|].
  rewrite Hf. apply Forall_app. split; [exact H2|].
  eapply Forall_impl; [exact Hnew|]. simpl.
  intros e (a & b & Ha & Hb & Hrp & _).
  apply lookup_id_elem in Ha, Hb. rewrite H1 in Ha, Hb.
  destruct Hrp as [[-> ->]|[-> ->]]; tauto.
Qed.

Lemma exitScan_toRemove (registry : list Collider) (cur : list string) (c : Collider)
    (active : list string) (k : string) :
  k ∈ (CollisionSystem.exitScan registry cur c active).1 <->
  k ∈ active /\ (CollisionSystem.get registry k = None \/ pairKey (id c) k ∉ cur).
Proof.
  induction active as [|x active IH]; simpl.
  - split; [intros H; apply elem_of_nil in H; contradiction|
            intros [H _]; apply elem_of_nil in H; contradiction].
  - destruct (CollisionSystem.exitScan registry cur c active) as [tr ev]; simpl in *.
    destruct (CollisionSystem.get registry x) as [other|] eqn:Hget.
    + destruct (bool_decide (pairKey (id c) x ∈ cur)) eqn:Hkey; simpl.
      * apply bool_decide_eq_true_1 in Hkey.
        rewrite IH, elem_of_cons. split; [tauto|].
        intros [[->|H] [H'|H']]; try tauto; congruence.
      * apply bool_decide_eq_false_1 in Hkey.
        rewrite !elem_of_cons, IH. split; [|tauto].
        intros [->|H]; tauto.
    + simpl. rewrite !elem_of_cons, IH. split; [|tauto].
      intros [->|H]; tauto.
Qed.

Lemma exitScan_events (registry : list Collider) (cur : list string) (c : Collider)
    (active : list string) :
  Forall (fun e => receiver e = id c /\ partner e ∈ map id registry /\ kind e = Exit)
    (CollisionSystem.exitScan registry cur c active).2.
Proof.
  induction active as [|x active IH]; simpl; [constructor|].
  destruct (CollisionSystem.exitScan registry cur c active) as [tr ev]; simpl in *.
  destruct (CollisionSystem.get registry x) as [other|] eqn:Hget; [|exact IH].
  destruct (bool_decide (pairKey (id c) x ∈ cur)); simpl; [exact IH|].
  apply Forall_app. split; [|exact IH].
  unfold CollisionSystem.fire. destruct (onCollisionExit c); constructor; [|constructor].
  simpl. apply get_Some in Hget as [Hin _].
  split; [reflexivity|]. split; [|reflexivity].
  apply list_elem_of_fmap. exists other. split; [reflexivity|exact Hin].
Qed.

(** After an update that completes, only registered ids were mentioned to
    callbacks and only registered ids are left in the active sets. *)
Lemma update_registered (w w' : World) (ev : list Event) :
  CollisionSystem.update w = Normal (w', ev) ->
  map id (colliders w') = map id (colliders w) /\
  Forall (fun e => receiver e ∈ map id (colliders w) /\ partner e ∈ map id (colliders w)) ev /\
  Forall (fun c => forall k, k ∈ activeCollisions c -> k ∈ map id (colliders w)) (colliders w').
Proof.
  unfold CollisionSystem.update.
  set (cs0 := map (CollisionSystem.updateWorldPosition (positions w)) (colliders w)).
  set (st0 := CollisionSystem.mkSweep _ _ _).
  assert (Hids0 : map id cs0 = map id (colliders w)).
  { rewrite <- !book_ids. unfold cs0. rewrite books_updateWorldPosition. reflexivity. }
  pose proof (pairLoop_mentions (length cs0) st0 (map id (colliders w)) Hids0
                ltac:(constructor)) as [Hids Hev].
  destruct (CollisionSystem.pairLoop _ st0) as [st|st]; [|discriminate].
  simpl in Hids, Hev. rewrite exitPass_map. intros Heq. injection Heq as <- <-.
  simpl. split; [|split].
  - rewrite <- Hids. rewrite <- list_fmap_compose. apply list_fmap_ext. reflexivity.
  - apply Forall_app. split; [exact Hev|].
    apply Forall_concat, Forall_fmap, Forall_forall. intros c Hc. simpl.
    eapply Forall_impl; [apply exitScan_events|]. cbv beta.
    intros e (Hr & Hp & _). rewrite Hids in Hp. split; [|exact Hp].
    assert (Hid : id c ∈ map id (colliders w)); [|congruence].
    rewrite <- Hids. apply list_elem_of_fmap. exists c. split; [reflexivity|exact Hc].
  - apply Forall_fmap, Forall_forall. intros c _ k. simpl.
    rewrite delete_all_elem, exitScan_toRemove. intros [Hk Hnot].
    destruct (CollisionSystem.get (colliders (CollisionSystem.sw_world st)) k)
      as [other|] eqn:Hget; [|tauto].
    apply get_Some in Hget as [Hin <-]. rewrite <- Hids.
    apply list_elem_of_fmap. exists other. split; [reflexivity|exact Hin].
Qed.

(** ** Removal *)

Lemma get_delete (cs : list Collider) (k : string) :
  CollisionSystem.get (CollisionSystem.delete cs k) k = None.
Proof.
  apply get_None. intros Hin.
  apply list_elem_of_fmap in Hin as (c & Hc & Hin).
  unfold CollisionSystem.delete in Hin. apply list_elem_of_filter in Hin as [Hne _].
  congruence.
Qed.

(** C3, as the code has it.  [removeCollider] clears the active set of the
    removed collider and takes it out of the registry; it invokes no
    callback and leaves every other collider as it was, so a partner that
    held the id still holds it.  The next update, whatever the owners
    moved in between, completes when no CylinderCollider is registered;
    when it completes it has taken the id out of every active set and has
    invoked no callback on the removed collider or with it as the other
    collider: no [onExit] for the pairs it was in. *)
Theorem removeCollider_then_update (w : World) (k : string) (R : Collider) :
  CollisionSystem.getCollider w k = Some R ->
  let w1 := (CollisionSystem.removeCollider w k).1 in
  (CollisionSystem.removeCollider w k).2 = Some (ColliderBase.dispose R) /\
  activeCollisions (ColliderBase.dispose R) = [] /\
  colliders w1 = filter (fun c => id c <> k) (colliders w) /\
  positions w1 = positions w /\
  CollisionSystem.getCollider w1 k = None /\
  forall cs T,
    map book cs = map book (colliders w1) ->
    (Forall (fun c => class c <> KCylinder) cs ->
     exists w2 ev, CollisionSystem.update (mkWorld cs T) = Normal (w2, ev)) /\
    (forall w2 ev,
       CollisionSystem.update (mkWorld cs T) = Normal (w2, ev) ->
       Forall (fun e => receiver e <> k /\ partner e <> k) ev /\
       Forall (fun c => k ∉ activeCollisions c) (colliders w2)).
Proof.
  intros Hget w1. subst w1. unfold CollisionSystem.removeCollider.
  unfold CollisionSystem.getCollider in Hget. rewrite Hget. simpl.
  split; [reflexivity|]. split; [reflexivity|]. split; [reflexivity|].
  split; [reflexivity|]. split; [apply get_delete|].
  intros cs T Hb. split; [intros Hall; apply update_completes; exact Hall|].
  intros w2 ev Hup.
  assert (Hk : k ∉ map id cs).
  { rewrite <- book_ids, Hb, book_ids. apply get_None, get_delete. }
  apply update_registered in Hup as (_ & Hev & Hact).
  change (colliders (mkWorld cs T)) with cs in *.
  split.
  - eapply Forall_impl; [exact Hev|]. cbv beta. intros e [H1 H2].
    split; intros Heq; apply Hk; rewrite <- Heq; assumption.
  - eapply Forall_impl; [exact Hact|]. cbv beta. intros c H Hin. apply Hk, H, Hin.
Qed.

Lemma tick_beforeContact : tick beforeContact = inContact.
Proof. reval. rdecide. rsqrt 1. rdecide. reflexivity. Qed.

Lemma removeCollider_then_update_witness :
  let w1 := (CollisionSystem.removeCollider inContact "R").1 in
  map activeCollisions (colliders w1) = [["R"]] /\
  exists w2 ev,
    CollisionSystem.update w1 = Normal (w2, ev) /\
    Forall (fun e => receiver e <> "R" /\ partner e <> "R") ev /\
    Forall (fun c => "R" ∉ activeCollisions c) (colliders w2).
Proof.
  destruct (removeCollider_then_update inContact "R"
              (with_activeCollisions removedR ["P"]) eq_refl)
    as (_ & _ & _ & _ & _ & H).
  destruct (H (colliders (CollisionSystem.removeCollider inContact "R").1)
              (positions (CollisionSystem.removeCollider inContact "R").1) eq_refl)
    as [Hex Hall].
  split; [reflexivity|].
  destruct Hex as (w2 & ev & Hup).
  - repeat constructor; discriminate.
  - exists w2, ev. split; [exact Hup|]. apply Hall. exact Hup.
Defined.

(** C3 fails as stated.  P and R overlap after one tick.  Right after R is
    removed, P still holds the id of R; the update that follows invokes no
    callback at all, so no [onExit] on P, and only then is P's set empty. *)
Lemma removal_without_exit :
  let w1 := tick beforeContact in
  let w2 := (CollisionSystem.removeCollider w1 "R").1 in
  map activeCollisions (colliders w1) = [["R"]; ["P"]] /\
  map id (colliders w2) = ["P"] /\
  map activeCollisions (colliders w2) = [["R"]] /\
  exists w3,
    CollisionSystem.update w2 = Normal (w3, []) /\
    map activeCollisions (colliders w3) = [[]].
Proof.
  rewrite tick_beforeContact. cbv zeta.
  split; [reflexivity|]. split; [reflexivity|]. split; [reflexivity|].
  eexists. split; reflexivity.
Qed.

(** ** The life of one pair: where it breaks *)

Lemma pairLoop_cons (i j : nat) (ps : list (nat * nat)) (st : CollisionSystem.Sweep) :
  CollisionSystem.pairLoop ((i, j) :: ps) st
  = match CollisionSystem.processPair i j st with
    | Normal st' => CollisionSystem.pairLoop ps st'
    | Throw st' => Throw st'
    end.
Proof. reflexivity. Qed.

(** Runs the body of the pair loop on the next pair of a concrete sweep. *)
Ltac pair_step r :=
  rewrite pairLoop_cons;
  match goal with
  | |- context [CollisionSystem.processPair ?i ?j ?st] =>
      let H := fresh "H" in
      eassert (H : CollisionSystem.processPair i j st = _);
      [ reval; rdecide; reval; rsqrt r; rdecide; reval; reflexivity
      | rewrite H; clear H; cbv iota beta ]
  end.

(** Runs [update] on a concrete world; [r] is the distance of the pairs
    that overlap. *)
Ltac run_update r :=
  unfold CollisionSystem.update;
  match goal with
  | |- context [CollisionSystem.pairs ?n] =>
      let ps := eval vm_compute in (CollisionSystem.pairs n) in
      change (CollisionSystem.pairs n) with ps
  end;
  repeat (pair_step r);
  simpl CollisionSystem.pairLoop; cbv iota beta; reval; reflexivity.

(** C5 at its failing input.  Ids "a", "b:c", "a:b", "c": the pairs
    ("a","b:c") and ("a:b","c") both get the key "a:b:c".  First tick: both
    pairs overlap and enter.  The owner then moves "b:c" away from "a"
    while "a:b" and "c" stay as they are.  Second tick: the pair loop finds
    "a" and "b:c" apart, yet the key of the other pair is in
    [currentCollisions], so the exit pass fires no [onExit] for them and
    leaves each in the active set of the other.  Over the two ticks "a" is
    called with [onEnter] only, where [lifecycle] has Enter then Exit. *)
Theorem shared_key_hides_exit :
  pairKey "a" "b:c" = pairKey "a:b" "c" /\
  exists evs w,
    Run 0 1 (mkWorld fourFresh bothNear) [true; false] evs w /\
    callbacks "a" "b:c" evs = [Enter] /\
    callbacks "b:c" "a" evs = [Enter] /\
    lifecycle false [true; false] = [Enter; Exit] /\
    map activeCollisions (colliders w) = [["b:c"]; ["a"]; ["c"]; ["a:b"]].
Proof.
  split; [reflexivity|].
  eexists. eexists. split; [|split; [|split; [|split]]].
  - eapply (run_tick 0 1 _ fourFresh bothNear).
    + reflexivity.
    + run_update 1.
    + reval. rdecide. reflexivity.
    + eapply (run_tick 0 1 _ fourInContact firstApart).
      * reflexivity.
      * run_update 1.
      * reval. rdecide. reflexivity.
      * apply run_nil.
  - reflexivity.
  - reflexivity.
  - reflexivity.
  - reflexivity.
Qed.

(** ** The life of one pair: where it holds *)

Lemma callbacks_app (r o : string) (l1 l2 : list Event) :
  callbacks r o (l1 ++ l2) = callbacks r o l1 ++ callbacks r o l2.
Proof. unfold callbacks. rewrite filter_app, map_app. reflexivity. Qed.

Lemma callbacks_none (r o : string) (l : list Event) :
  Forall (fun e => ~ (receiver e = r /\ partner e = o)) l -> callbacks r o l = [].
Proof.
  unfold callbacks. induction 1 as [|e l He _ IH]; [reflexivity|].
  rewrite filter_cons. destruct (decide _); [contradiction|exact IH].
Qed.

Lemma callbacks_fire (r o : string) (installed : bool) (e : Event) :
  callbacks r o (CollisionSystem.fire installed e)
  = if installed && bool_decide (receiver e = r /\ partner e = o) then [kind e] else [].
Proof.
  unfold callbacks, CollisionSystem.fire. destruct installed; [|reflexivity].
  rewrite filter_cons, filter_nil. simpl.
  destruct (decide _) as [H|H].
  - rewrite (bool_decide_eq_true_2 _ H). reflexivity.
  - rewrite (bool_decide_eq_false_2 _ H). reflexivity.
Qed.

Lemma set_has_add_other (k t : string) (s : list string) :
  k <> t -> set_has t (set_add k s) = set_has t s.
Proof.
  intros Hne. unfold set_has. apply bool_decide_ext. rewrite set_add_elem.
  split; [intros [->|H]; [contradiction|exact H]|tauto].
Qed.

Lemma set_has_add_same (k : string) (s : list string) : set_has k (set_add k s) = true.
Proof. unfold set_has. apply bool_decide_eq_true_2, set_add_elem. left. reflexivity. Qed.

(** [pairKey] does not depend on the order of the two ids. *)
Lemma pairKey_comm (x y : string) : pairKey x y = pairKey y x.
Proof.
  unfold pairKey, String.ltb.
  rewrite (String.compare_antisym y x).
  destruct (String.compare x y) eqn:E; simpl; try reflexivity.
  apply String.compare_eq_iff in E. subst. reflexivity.
Qed.

Lemma lookup_enter (bs : list (Book))
    (i' j' k : nat) a b bk (x y : string) :
  i' <> j' -> bs !! i' = Some a -> bs !! j' = Some b -> bs !! k = Some bk ->
  exists bk',
    (<[j' := book_add x b]> (<[i' := book_add y a]> bs)) !! k = Some bk' /\
    bk'.1.1 = bk.1.1 /\ bk'.2 = bk.2 /\
    ((k <> i' /\ k <> j' /\ bk'.1.2 = bk.1.2) \/
     (k = j' /\ bk'.1.2 = set_add x bk.1.2) \/
     (k = i' /\ bk'.1.2 = set_add y bk.1.2)).
Proof.
  intros Hne Hi Hj Hk.
  destruct (decide (k = j')) as [->|Hkj].
  - exists (book_add x b). rewrite list_lookup_insert_eq.
    + assert (b = bk) by congruence. subst bk.
      split; [reflexivity|]. split; [reflexivity|]. split; [reflexivity|].
      right; left. split; reflexivity.
    + rewrite length_insert. eapply lookup_lt_Some, Hj.
  - rewrite list_lookup_insert_ne by congruence.
    destruct (decide (k = i')) as [->|Hki].
    + exists (book_add y a). rewrite list_lookup_insert_eq.
      * assert (a = bk) by congruence. subst bk.
        split; [reflexivity|]. split; [reflexivity|]. split; [reflexivity|].
        right; right. split; reflexivity.
      * eapply lookup_lt_Some, Hi.
    + exists bk. rewrite list_lookup_insert_ne by congruence.
      split; [exact Hk|]. split; [reflexivity|]. split; [reflexivity|]. left. tauto.
Qed.

Lemma books_lookup (st : CollisionSystem.Sweep) (k : nat) (c : Collider) :
  colliders (CollisionSystem.sw_world st) !! k = Some c -> books st !! k = Some (book c).
Proof. intros H. unfold books. rewrite list_lookup_fmap, H. reflexivity. Qed.

Lemma book_id_lookup_inj (bs : list (Book))
    (p q : nat) bp bq :
  NoDup (map (fun b => b.1.1) bs) -> bs !! p = Some bp -> bs !! q = Some bq ->
  bp.1.1 = bq.1.1 -> p = q.
Proof.
  intros Hnd Hp Hq Heq.
  apply (NoDup_lookup (map (fun b => b.1.1) bs) p q bp.1.1 Hnd);
    rewrite list_lookup_fmap; [rewrite Hp|rewrite Hq]; simpl; congruence.
Qed.

Lemma book_id_elem (bs : list (Book)) (p : nat) bp :
  bs !! p = Some bp -> bp.1.1 ∈ map (fun b => b.1.1) bs.
Proof.
  intros H. apply list_elem_of_fmap. exists bp. split; [reflexivity|].
  eapply list_elem_of_lookup_2, H.
Qed.

Section PairLife.

Variables (i j : nat) (A B : Collider) (ids : list string).
Hypothesis Hij : (i < j)%nat.
Hypothesis Hamb : keys_unambiguous ids.

(** The body of the loop on another pair leaves the view of this pair. *)
Lemma other_pair_views (i' j' : nat) (st : CollisionSystem.Sweep) (v : PairView) :
  (i' < j')%nat -> (i', j') <> (i, j) ->
  views i j A B ids st v ->
  views i j A B ids (outcome (CollisionSystem.processPair i' j' st)) v.
Proof.
  intros Hlt Hother Hv.
  destruct (colliders (CollisionSystem.sw_world st) !! i') as [a|] eqn:Ha;
    [|rewrite processPair_out_of_range by (left; exact Ha); exact Hv].
  destruct (colliders (CollisionSystem.sw_world st) !! j') as [b|] eqn:Hb;
    [|rewrite processPair_out_of_range by (right; exact Hb); exact Hv].
  destruct Hv as (Hids & Hwf & (bi & bj & Hbi & Hbj & HidA & HidB & HhA & HhB & HcA & HcB)
                  & HeA & HeB & Hk).
  pose proof (books_lookup _ _ _ Ha) as Ha'. pose proof (books_lookup _ _ _ Hb) as Hb'.
  destruct Hwf as [Hnd Hall].
  assert (Hinj : forall p q bp bq, books st !! p = Some bp -> books st !! q = Some bq ->
                   bp.1.1 = bq.1.1 -> p = q)
    by (intros; eapply book_id_lookup_inj; eassumption).
  assert (HaA : id a = id A -> i' = i)
    by (intros E; apply (Hinj _ _ _ _ Ha' Hbi); simpl; congruence).
  assert (HbB : id b = id B -> j' = j)
    by (intros E; apply (Hinj _ _ _ _ Hb' Hbj); simpl; congruence).
  assert (HaB : id a = id B -> i' = j)
    by (intros E; apply (Hinj _ _ _ _ Ha' Hbj); simpl; congruence).
  assert (HbA : id b = id A -> j' = i)
    by (intros E; apply (Hinj _ _ _ _ Hb' Hbi); simpl; congruence).
  assert (Hpair1 : ~ (id a = id A /\ id b = id B)).
  { intros [E1 E2]. apply Hother. rewrite (HaA E1), (HbB E2). reflexivity. }
  assert (Hpair2 : ~ (id a = id B /\ id b = id A)).
  { intros [E1 E2]. pose proof (HaB E1). pose proof (HbA E2). lia. }
  assert (Hkey : pairKey (id a) (id b) <> pairKey (id A) (id B)).
  { intros E. apply Hamb in E.
    - destruct E as [[E1 E2]|[E1 E2]]; [apply Hpair1|apply Hpair2]; split; congruence.
    - rewrite <- Hids. apply (book_id_elem _ _ _ Ha').
    - rewrite <- Hids. apply (book_id_elem _ _ _ Hb').
    - rewrite <- Hids, <- HidA. apply (book_id_elem _ _ _ Hbi).
    - rewrite <- Hids, <- HidB. apply (book_id_elem _ _ _ Hbj). }
  assert (Hkeyed : forall cur,
            bool_decide (pairKey (id A) (id B) ∈ pairKey (id a) (id b) :: cur)
            = bool_decide (pairKey (id A) (id B) ∈ cur)).
  { intros cur. apply bool_decide_ext. rewrite elem_of_cons.
    split; [intros [E|E]; [symmetry in E; contradiction|exact E]|tauto]. }
  assert (Hquiet : forall (x y : bool) (e1 e2 : Event) r o,
            (receiver e1 = id a /\ partner e1 = id b) ->
            (receiver e2 = id b /\ partner e2 = id a) ->
            (r = id A /\ o = id B \/ r = id B /\ o = id A) ->
            callbacks r o (CollisionSystem.fire x e1 ++ CollisionSystem.fire y e2) = []).
  { intros x y e1 e2 r o [R1 P1] [R2 P2] Hro.
    rewrite callbacks_app, !callbacks_fire.
    rewrite (bool_decide_eq_false_2 (receiver e1 = r /\ partner e1 = o)),
            (bool_decide_eq_false_2 (receiver e2 = r /\ partner e2 = o)).
    - rewrite !andb_false_r. reflexivity.
    - rewrite R2, P2. intros [E1 E2]. destruct Hro as [[-> ->]|[-> ->]];
        [apply Hpair2|apply Hpair1]; split; congruence.
    - rewrite R1, P1. intros [E1 E2]. destruct Hro as [[-> ->]|[-> ->]];
        [apply Hpair1|apply Hpair2]; split; congruence. }
  assert (Hne : i' <> j') by lia.
  pose proof (processPair_outcome i' j' st a b Hne Ha Hb) as Ho.
  inversion Ho as [st' Hbk Hc Hf Hh Heq|st' Hbk Hc Hf Hh Heq
                  |st' r Hwas Hbk Hc Hf Hh Heq|st' r Hwas Hbk Hc Hf Hh Heq];
    simpl; unfold views; rewrite ?Hbk, ?Hc, ?Hf, ?Hkeyed.
  - split; [exact Hids|]. split; [split; assumption|].
    split; [exists bi, bj; tauto|]. tauto.
  - split; [exact Hids|]. split; [split; assumption|].
    split; [exists bi, bj; tauto|]. tauto.
  - split; [rewrite (book_ids_enter _ i' j' (book a) (book b)) by assumption; exact Hids|].
    split; [apply (wf_books_enter _ i' j' (book a) (book b)); try assumption; split; assumption|].
    split.
    + destruct (lookup_enter (books st) i' j' i (book a) (book b) bi (id a) (id b)
                  Hne Ha' Hb' Hbi) as (bi' & Hbi' & Ei1 & Ei2 & Ei3).
      destruct (lookup_enter (books st) i' j' j (book a) (book b) bj (id a) (id b)
                  Hne Ha' Hb' Hbj) as (bj' & Hbj' & Ej1 & Ej2 & Ej3).
      exists bi', bj'. simpl in *.
      split; [exact Hbi'|]. split; [exact Hbj'|].
      split; [congruence|]. split; [congruence|].
      split; [congruence|]. split; [congruence|]. split.
      * destruct Ei3 as [(_ & _ & ->)|[(-> & ->)|(-> & ->)]]; [exact HcA| |].
        -- rewrite set_has_add_other; [exact HcA|]. intros E. apply HaB in E. lia.
        -- rewrite set_has_add_other; [exact HcA|]. intros E. apply HbB in E.
           apply Hother. congruence.
      * destruct Ej3 as [(_ & _ & ->)|[(-> & ->)|(-> & ->)]]; [exact HcB| |].
        -- rewrite set_has_add_other; [exact HcB|]. intros E. apply HaA in E.
           apply Hother. congruence.
        -- rewrite set_has_add_other; [exact HcB|]. intros E. apply HbA in E. lia.
    + rewrite !(callbacks_app _ _ (CollisionSystem.fired st)).
      rewrite !Hquiet by (simpl; tauto). rewrite !app_nil_r. tauto.
  - split; [exact Hids|]. split; [split; assumption|].
    split; [exists bi, bj; tauto|].
    rewrite !(callbacks_app _ _ (CollisionSystem.fired st)).
    rewrite !Hquiet by (simpl; tauto). rewrite !app_nil_r. tauto.
Qed.

Lemma others_loop_views (ps : list (nat * nat)) (st : CollisionSystem.Sweep) (v : PairView) :
  (forall i' j', (i', j') ∈ ps -> (i' < j')%nat /\ (i', j') <> (i, j)) ->
  views i j A B ids st v ->
  views i j A B ids (outcome (CollisionSystem.pairLoop ps st)) v.
Proof.
  intros Hps. apply (pairLoop_invariant (fun st => views i j A B ids st v)).
  intros i' j' st' Hin Hv. destruct (Hps i' j' Hin) as [Hlt Hne].
  apply other_pair_views; assumption.
Qed.

(** The body of the loop on this pair. *)
Lemma this_pair_views (st st' : CollisionSystem.Sweep) (a b : Collider)
    (was keyed : bool) (eA eB : list Kind) :
  views i j A B ids st (mkPairView was was eA eB keyed) ->
  colliders (CollisionSystem.sw_world st) !! i = Some a ->
  colliders (CollisionSystem.sw_world st) !! j = Some b ->
  CollisionSystem.processPair i j st = Normal st' ->
  let hit := (CollisionSystem.checkCollision
                (positions (CollisionSystem.sw_world st)) a b).1.1 in
  views i j A B ids st'
    (mkPairView (was || hit) (was || hit)
       (eA ++ loop_calls A was hit) (eB ++ loop_calls B was hit) (keyed || hit)).
Proof.
  intros Hv Ha Hb Hrun hit. subst hit.
  destruct Hv as (Hids & Hwf & (bi & bj & Hbi & Hbj & HidA & HidB & HhA & HhB & HcA & HcB)
                  & HeA & HeB & Hk).
  simpl in *.
  pose proof (books_lookup _ _ _ Ha) as Ha'. pose proof (books_lookup _ _ _ Hb) as Hb'.
  assert (bi = book a) by congruence. assert (bj = book b) by congruence. subst bi bj.
  simpl in *.
  assert (Hne : i <> j) by lia.
  assert (HAB : id A <> id B).
  { intros E. apply Hne. destruct Hwf as [Hnd _].
    apply (book_id_lookup_inj _ _ _ _ _ Hnd Ha' Hb'). simpl. congruence. }
  assert (HEa : onCollisionEnter a = onCollisionEnter A /\
                onCollisionStay a = onCollisionStay A)
    by (unfold book in HhA; simpl in HhA; injection HhA; auto).
  assert (HEb : onCollisionEnter b = onCollisionEnter B /\
                onCollisionStay b = onCollisionStay B)
    by (unfold book in HhB; simpl in HhB; injection HhB; auto).
  destruct HEa as [HEa HSa]. destruct HEb as [HEb HSb].
  pose proof (processPair_outcome i j st a b Hne Ha Hb) as Ho.
  rewrite Hrun in Ho.
  inversion Ho as [st1 Hbk Hc Hf Hh Heq|st1 Hbk Hc Hf Hh Heq
                  |st1 r Hwas Hbk Hc Hf Hh Heq|st1 r Hwas Hbk Hc Hf Hh Heq];
    subst st1; unfold views; simpl; rewrite ?Hbk, ?Hc, ?Hf.
  - rewrite !orb_false_r, !app_nil_r.
    split; [exact Hids|]. split; [exact Hwf|].
    split; [exists (book a), (book b); simpl; tauto|]. tauto.
  - assert (Hw : was = false) by congruence. rewrite Hw in *. clear Hw. simpl.
    split; [rewrite (book_ids_enter _ i j (book a) (book b)) by assumption; exact Hids|].
    split; [apply (wf_books_enter _ i j (book a) (book b)); assumption|].
    split; [|split; [|split]].
    + exists (book_add (id b) (book a)), (book_add (id a) (book b)).
      split.
      { rewrite list_lookup_insert_ne by lia. apply list_lookup_insert_eq.
        eapply lookup_lt_Some, Ha'. }
      split.
      { apply list_lookup_insert_eq. rewrite length_insert. eapply lookup_lt_Some, Hb'. }
      simpl. split; [exact HidA|]. split; [exact HidB|].
      split; [exact HhA|]. split; [exact HhB|].
      rewrite <- HidA, <- HidB. split; apply set_has_add_same.
    + rewrite (callbacks_app _ _ (CollisionSystem.fired st)), HeA. f_equal.
      rewrite callbacks_app, !callbacks_fire. simpl.
      rewrite (bool_decide_eq_true_2 (id a = id A /\ id b = id B)) by tauto.
      rewrite (bool_decide_eq_false_2 (id b = id A /\ id a = id B))
        by (intros [? ?]; apply HAB; congruence).
      rewrite andb_true_r, andb_false_r, app_nil_r, HEa. reflexivity.
    + rewrite (callbacks_app _ _ (CollisionSystem.fired st)), HeB. f_equal.
      rewrite callbacks_app, !callbacks_fire. simpl.
      rewrite (bool_decide_eq_false_2 (id a = id B /\ id b = id A))
        by (intros [? ?]; apply HAB; congruence).
      rewrite (bool_decide_eq_true_2 (id b = id B /\ id a = id A)) by tauto.
      rewrite andb_true_r, andb_false_r, HEb. reflexivity.
    + rewrite HidA, HidB, orb_true_r. apply bool_decide_eq_true_2. left.
  - assert (Hw : was = true) by congruence. rewrite Hw in *. clear Hw. simpl.
    split; [exact Hids|]. split; [exact Hwf|].
    split; [exists (book a), (book b); simpl; tauto|].
    split; [|split].
    + rewrite (callbacks_app _ _ (CollisionSystem.fired st)), HeA. f_equal.
      rewrite callbacks_app, !callbacks_fire. simpl.
      rewrite (bool_decide_eq_true_2 (id a = id A /\ id b = id B)) by tauto.
      rewrite (bool_decide_eq_false_2 (id b = id A /\ id a = id B))
        by (intros [? ?]; apply HAB; congruence).
      rewrite andb_true_r, andb_false_r, app_nil_r, HSa. reflexivity.
    + rewrite (callbacks_app _ _ (CollisionSystem.fired st)), HeB. f_equal.
      rewrite callbacks_app, !callbacks_fire. simpl.
      rewrite (bool_decide_eq_false_2 (id a = id B /\ id b = id A))
        by (intros [? ?]; apply HAB; congruence).
      rewrite (bool_decide_eq_true_2 (id b = id B /\ id a = id A)) by tauto.
      rewrite andb_true_r, andb_false_r, HSb. reflexivity.
    + rewrite HidA, HidB, orb_true_r. apply bool_decide_eq_true_2. left.
Qed.

End PairLife.

(** ** The exit pass, seen from one pair *)

Lemma exitScan_partner (registry : list Collider) (cur : list string) (c : Collider)
    (active : list string) :
  Forall (fun e => receiver e = id c /\ partner e ∈ active)
    (CollisionSystem.exitScan registry cur c active).2.
Proof.
  induction active as [|x active IH]; simpl; [constructor|].
  assert (IH' : Forall (fun e => receiver e = id c /\ partner e ∈ x :: active)
                  (CollisionSystem.exitScan registry cur c active).2).
  { eapply Forall_impl; [exact IH|]. cbv beta. intros e [? ?]. split; [assumption|].
    apply elem_of_cons. right. assumption. }
  destruct (CollisionSystem.exitScan registry cur c active) as [tr ev]; simpl in *.
  destruct (CollisionSystem.get registry x) as [other|] eqn:Hget; [|exact IH'].
  destruct (bool_decide (pairKey (id c) x ∈ cur)); simpl; [exact IH'|].
  apply Forall_app. split; [|exact IH'].
  unfold CollisionSystem.fire. destruct (onCollisionExit c); constructor; [|constructor].
  apply get_Some in Hget as [_ Hid]. simpl.
  split; [reflexivity|]. rewrite Hid. apply elem_of_cons. left. reflexivity.
Qed.

Lemma exitScan_callbacks (registry : list Collider) (cur : list string) (c : Collider)
    (active : list string) (o : string) :
  NoDup active ->
  callbacks (id c) o (CollisionSystem.exitScan registry cur c active).2
  = if set_has o active && bool_decide (o ∈ map id registry)
       && negb (bool_decide (pairKey (id c) o ∈ cur)) && onCollisionExit c
    then [Exit] else [].
Proof.
  induction active as [|x active IH]; intros Hnd; simpl; [reflexivity|].
  apply NoDup_cons in Hnd as [Hx Hnd]. specialize (IH Hnd).
  pose proof (exitScan_partner registry cur c active) as Hpart.
  destruct (CollisionSystem.exitScan registry cur c active) as [tr ev]; simpl in *.
  destruct (decide (o = x)) as [->|Hox].
  - assert (Hnone : callbacks (id c) x ev = []).
    { apply callbacks_none. eapply Forall_impl; [exact Hpart|]. cbv beta.
      intros e [_ Hp] [_ He]. apply Hx. rewrite <- He. exact Hp. }
    assert (Hhas : set_has x (x :: active) = true)
      by (apply bool_decide_eq_true_2; left).
    rewrite Hhas. simpl.
    destruct (CollisionSystem.get registry x) as [other|] eqn:Hget.
    + pose proof (get_Some _ _ _ Hget) as [Hin Hid].
      rewrite (bool_decide_eq_true_2 (x ∈ map id registry))
        by (rewrite <- Hid; apply list_elem_of_fmap; exists other; tauto).
      simpl. destruct (bool_decide (pairKey (id c) x ∈ cur)); simpl; [exact Hnone|].
      rewrite callbacks_app, Hnone, callbacks_fire, app_nil_r. simpl.
      rewrite (bool_decide_eq_true_2 (id c = id c /\ id other = x)) by tauto.
      rewrite andb_true_r. reflexivity.
    + apply get_None in Hget. rewrite (bool_decide_eq_false_2 _ Hget). simpl. exact Hnone.
  - assert (Hhas : set_has o (x :: active) = set_has o active).
    { apply bool_decide_ext. rewrite elem_of_cons. tauto. }
    rewrite Hhas.
    destruct (CollisionSystem.get registry x) as [other|] eqn:Hget; [|exact IH].
    destruct (bool_decide (pairKey (id c) x ∈ cur)); simpl; [exact IH|].
    rewrite callbacks_app, callbacks_fire, IH. simpl.
    apply get_Some in Hget as [_ Hid].
    rewrite (bool_decide_eq_false_2 (id c = id c /\ id other = o))
      by (intros [_ E]; congruence).
    rewrite andb_false_r. reflexivity.
Qed.

Lemma callbacks_concat_one (f : Collider -> list Event) (cs : list Collider) (k : nat)
    (c : Collider) (o : string) :
  (forall c', Forall (fun e => receiver e = id c') (f c')) ->
  NoDup (map id cs) -> cs !! k = Some c ->
  callbacks (id c) o (concat (map f cs)) = callbacks (id c) o (f c).
Proof.
  intros Hf. revert k. induction cs as [|c' cs IH]; intros k Hnd Hk; [discriminate|].
  simpl in *. apply NoDup_cons in Hnd as [Hc' Hnd]. rewrite callbacks_app.
  assert (Hquiet : forall l, Forall (fun c'' => id c'' <> id c) l ->
                    callbacks (id c) o (concat (map f l)) = []).
  { induction l as [|c'' l IHl]; intros Hl; [reflexivity|].
    apply Forall_cons in Hl as [Hne Hl]. simpl. rewrite callbacks_app, (IHl Hl), app_nil_r.
    apply callbacks_none. eapply Forall_impl; [apply Hf|]. cbv beta.
    intros e He [E _]. congruence. }
  destruct k as [|k]; simpl in Hk.
  - injection Hk as ->. rewrite Hquiet; [apply app_nil_r|].
    apply Forall_forall. intros c'' Hin E. apply Hc'. rewrite <- E.
    apply list_elem_of_fmap. exists c''. tauto.
  - rewrite (IH k Hnd Hk).
    assert (Hne : id c' <> id c).
    { intros E. apply Hc'. rewrite E. apply (lookup_id_elem _ _ _ Hk). }
    rewrite (callbacks_none _ _ (f c')); [reflexivity|].
    eapply Forall_impl; [apply Hf|]. cbv beta. intros e He [E _]. congruence.
Qed.

Lemma before_split {X : Type} `{EqDecision X} (x : X) (l : list X) :
  x ∈ l -> NoDup l ->
  exists post, l = before x l ++ x :: post /\ (x ∉ before x l) /\ (x ∉ post).
Proof.
  induction l as [|y l IH]; intros Hin Hnd; [apply elem_of_nil in Hin; contradiction|].
  apply NoDup_cons in Hnd as [Hy Hnd]. simpl.
  destruct (decide (y = x)) as [->|Hne].
  - exists l. split; [reflexivity|]. split; [apply not_elem_of_nil|exact Hy].
  - apply elem_of_cons in Hin as [->|Hin]; [contradiction|].
    destruct (IH Hin Hnd) as (post & Heq & H1 & H2).
    exists post. split; [simpl; congruence|]. split; [|exact H2].
    apply not_elem_of_cons. split; [congruence|exact H1].
Qed.

Lemma pairLoop_app (l1 l2 : list (nat * nat)) (st : CollisionSystem.Sweep) :
  CollisionSystem.pairLoop (l1 ++ l2) st
  = match CollisionSystem.pairLoop l1 st with
    | Normal st' => CollisionSystem.pairLoop l2 st'
    | Throw st' => Throw st'
    end.
Proof.
  revert st. induction l1 as [|[a b] l1 IH]; intros st; simpl; [reflexivity|].
  destruct (CollisionSystem.processPair a b st); [apply IH|reflexivity].
Qed.

Section PairExit.

Variables (i j : nat) (A B : Collider) (ids : list string).
Hypothesis Hij : (i < j)%nat.

(** The exit pass: the other stays in the active set exactly when the key
    of the pair is in [currentCollisions], and [onExit] is called exactly
    when it was there and the key is not. *)
Lemma exitPass_views (st : CollisionSystem.Sweep) (v : PairView)
    (cs' : list Collider) (ev : list Event) :
  views i j A B ids st v ->
  CollisionSystem.exitPass (colliders (CollisionSystem.sw_world st))
    (CollisionSystem.currentCollisions st) (colliders (CollisionSystem.sw_world st))
  = (cs', ev) ->
  exists A' B',
    cs' !! i = Some A' /\ cs' !! j = Some B' /\
    id A' = id A /\ id B' = id B /\ (book A').2 = (book A).2 /\ (book B').2 = (book B).2 /\
    set_has (id B) (activeCollisions A') = pv_contactA v && pv_keyed v /\
    set_has (id A) (activeCollisions B') = pv_contactB v && pv_keyed v /\
    callbacks (id A) (id B) (CollisionSystem.fired st ++ ev)
    = pv_callsA v
      ++ (if pv_contactA v && negb (pv_keyed v) && onCollisionExit A then [Exit] else []) /\
    callbacks (id B) (id A) (CollisionSystem.fired st ++ ev)
    = pv_callsB v
      ++ (if pv_contactB v && negb (pv_keyed v) && onCollisionExit B then [Exit] else []).
Proof.
  intros Hv. rewrite exitPass_map. intros Heq. injection Heq as <- <-.
  destruct Hv as (Hids & Hwf & (bi & bj & Hbi & Hbj & HidA & HidB & HhA & HhB & HcA & HcB)
                  & HeA & HeB & Hk).
  set (cs := colliders (CollisionSystem.sw_world st)) in *.
  set (cur := CollisionSystem.currentCollisions st) in *.
  unfold books in Hbi, Hbj, Hwf, Hids. fold cs in Hbi, Hbj, Hwf, Hids.
  rewrite list_lookup_fmap in Hbi, Hbj.
  destruct (cs !! i) as [a|] eqn:Ha; [|discriminate].
  destruct (cs !! j) as [b|] eqn:Hb; [|discriminate].
  simpl in Hbi, Hbj. injection Hbi as <-. injection Hbj as <-. simpl in *.
  destruct Hwf as [Hnd Hall]. rewrite book_ids in Hnd.
  pose proof (Forall_lookup_1 _ _ _ _ Hall (books_lookup st i a Ha)) as [_ HndA].
  pose proof (Forall_lookup_1 _ _ _ _ Hall (books_lookup st j b Hb)) as [_ HndB].
  simpl in HndA, HndB.
  assert (HregA : id A ∈ map id cs) by (rewrite <- HidA; apply (lookup_id_elem _ _ _ Ha)).
  assert (HregB : id B ∈ map id cs) by (rewrite <- HidB; apply (lookup_id_elem _ _ _ Hb)).
  assert (HXa : onCollisionExit a = onCollisionExit A)
    by (unfold book in HhA; simpl in HhA; injection HhA; auto).
  assert (HXb : onCollisionExit b = onCollisionExit B)
    by (unfold book in HhB; simpl in HhB; injection HhB; auto).
  assert (Hkept : forall (c : Collider) (o : string),
            o ∈ map id cs ->
            set_has o (CollisionSystem.delete_all
                         (CollisionSystem.exitScan cs cur c (activeCollisions c)).1
                         (activeCollisions c))
            = set_has o (activeCollisions c) && bool_decide (pairKey (id c) o ∈ cur)).
  { intros c o Hreg. unfold set_has.
    destruct (bool_decide (pairKey (id c) o ∈ cur)) eqn:Hkey.
    - apply bool_decide_eq_true_1 in Hkey. rewrite andb_true_r. apply bool_decide_ext.
      rewrite delete_all_elem, exitScan_toRemove. split; [tauto|].
      intros Hin. split; [exact Hin|]. intros [_ [Hnone|Hnk]]; [|contradiction].
      apply get_None in Hnone. contradiction.
    - apply bool_decide_eq_false_1 in Hkey. rewrite andb_false_r.
      apply bool_decide_eq_false_2. rewrite delete_all_elem, exitScan_toRemove. tauto. }
  eexists. eexists.
  split; [rewrite list_lookup_fmap, Ha; reflexivity|].
  split; [rewrite list_lookup_fmap, Hb; reflexivity|].
  simpl. split; [exact HidA|]. split; [exact HidB|].
  split; [exact HhA|]. split; [exact HhB|].
  split; [|split; [|split]].
  - rewrite (Hkept a (id B) HregB), HidA, HcA, Hk. reflexivity.
  - rewrite (Hkept b (id A) HregA), HidB, (pairKey_comm (id B) (id A)), HcB, Hk. reflexivity.
  - rewrite callbacks_app, HeA. f_equal. rewrite <- HidA.
    rewrite (callbacks_concat_one
               (fun c => (CollisionSystem.exitScan cs cur c (activeCollisions c)).2)
               cs i a (id B)); [| |exact Hnd|exact Ha].
    + rewrite (exitScan_callbacks cs cur a _ (id B) HndA).
      rewrite HcA, (bool_decide_eq_true_2 _ HregB), HidA, Hk, HXa, andb_true_r. reflexivity.
    + intros c'. eapply Forall_impl; [apply exitScan_partner|]. cbv beta. tauto.
  - rewrite callbacks_app, HeB. f_equal. rewrite <- HidB.
    rewrite (callbacks_concat_one
               (fun c => (CollisionSystem.exitScan cs cur c (activeCollisions c)).2)
               cs j b (id A)); [| |exact Hnd|exact Hb].
    + rewrite (exitScan_callbacks cs cur b _ (id A) HndB).
      rewrite HcB, (bool_decide_eq_true_2 _ HregA), HidB, (pairKey_comm (id B) (id A)),
        Hk, HXb, andb_true_r. reflexivity.
    + intros c'. eapply Forall_impl; [apply exitScan_partner|]. cbv beta. tauto.
Qed.

End PairExit.

(** ** One tick, seen from one pair *)

Lemma expected_split (c : Collider) (was hit : bool) :
  loop_calls c was hit
    ++ (if (was || hit) && negb (false || hit) && onCollisionExit c then [Exit] else [])
  = expected c was hit.
Proof.
  unfold loop_calls, expected.
  destruct was, hit; simpl; try reflexivity;
    destruct (onCollisionStay c), (onCollisionEnter c), (onCollisionExit c); reflexivity.
Qed.

(** A tick that completes, for the colliders [A] at index [i] and [B] at
    index [j] of a well-formed registry with unambiguous keys, each holding
    the other or neither ([was]): with [hit] the answer of the pair loop,
    each side gets the callbacks [expected], and holds the other after the
    tick exactly when [hit]. *)
Lemma pair_tick (w w' : World) (ev : list Event) (i j : nat) (A B : Collider)
    (was hit : bool) :
  well_formed w ->
  keys_unambiguous (map id (colliders w)) ->
  (i < j)%nat ->
  colliders w !! i = Some A -> colliders w !! j = Some B ->
  set_has (id B) (activeCollisions A) = was ->
  set_has (id A) (activeCollisions B) = was ->
  CollisionSystem.update w = Normal (w', ev) ->
  detects w i j = Some hit ->
  exists A' B',
    colliders w' !! i = Some A' /\ colliders w' !! j = Some B' /\
    id A' = id A /\ id B' = id B /\ (book A').2 = (book A).2 /\ (book B').2 = (book B).2 /\
    set_has (id B) (activeCollisions A') = hit /\
    set_has (id A) (activeCollisions B') = hit /\
    callbacks (id A) (id B) ev = expected A was hit /\
    callbacks (id B) (id A) ev = expected B was hit.
Proof.
  intros Hwf Hamb Hij HA HB HwasA HwasB Hup Hdet.
  unfold CollisionSystem.update in Hup. unfold detects in Hdet.
  set (cs0 := map (CollisionSystem.updateWorldPosition (positions w)) (colliders w)) in *.
  set (st0 := CollisionSystem.mkSweep (mkWorld cs0 (positions w)) [] []) in *.
  assert (Hb0 : books st0 = map book (colliders w))
    by (unfold books, st0; simpl; apply books_updateWorldPosition).
  assert (Hn : (j < length cs0)%nat).
  { unfold cs0. rewrite length_map. eapply lookup_lt_Some, HB. }
  assert (Hin : (i, j) ∈ CollisionSystem.pairs (length cs0)) by (apply pairs_spec; lia).
  destruct (before_split (i, j) _ Hin (pairs_NoDup _)) as (post & Hsplit & Hpre & Hpost).
  set (pre := before (i, j) (CollisionSystem.pairs (length cs0))) in *.
  assert (Hothers : forall l : list (nat * nat),
            (forall p, p ∈ l -> p ∈ CollisionSystem.pairs (length cs0)) ->
                      (i, j) ∉ l ->
                      forall i' j', (i', j') ∈ l -> (i' < j')%nat /\ (i', j') <> (i, j)).
  { intros l Hsub Hnot i' j' Hl. split.
    - apply Hsub, pairs_spec in Hl. lia.
    - intros E. apply Hnot. rewrite <- E. exact Hl. }
  assert (Hv0 : views i j A B (map id (colliders w)) st0 (mkPairView was was [] [] false)).
  { unfold views. rewrite Hb0. split; [apply book_ids|]. split; [exact Hwf|].
    split; [|split; [reflexivity|split; [reflexivity|reflexivity]]].
    exists (book A), (book B). rewrite !list_lookup_fmap, HA, HB. simpl. tauto. }
  rewrite Hsplit, pairLoop_app in Hup.
  pose proof (others_loop_views i j A B _ Hij Hamb pre st0 _
                (Hothers pre ltac:(intros p Hp; rewrite Hsplit; apply elem_of_app; tauto) Hpre)
                Hv0) as Hv1.
  destruct (CollisionSystem.pairLoop pre st0) as [st1|st1]; [|discriminate].
  simpl in Hv1. rewrite pairLoop_cons in Hup.
  destruct (CollisionSystem.processPair i j st1) as [st2|st2] eqn:Hrun; [|discriminate].
  destruct (colliders (CollisionSystem.sw_world st1) !! i) as [a|] eqn:Ha; [|discriminate].
  destruct (colliders (CollisionSystem.sw_world st1) !! j) as [b|] eqn:Hb; [|discriminate].
  injection Hdet as Hhit.
  pose proof (this_pair_views i j A B _ Hij st1 st2 a b was false [] [] Hv1 Ha Hb Hrun) as Hv2.
  cbv zeta in Hv2. rewrite Hhit in Hv2. simpl app in Hv2.
  pose proof (others_loop_views i j A B _ Hij Hamb post st2 _
                (Hothers post ltac:(intros p Hp; rewrite Hsplit; apply elem_of_app; right;
                                    apply elem_of_cons; tauto) Hpost)
                Hv2) as Hv3.
  destruct (CollisionSystem.pairLoop post st2) as [st3|st3]; [|discriminate].
  simpl in Hv3.
  destruct (CollisionSystem.exitPass _ _ _) as [cs' ev'] eqn:Hexit.
  injection Hup as <- <-.
  destruct (exitPass_views i j A B _ st3 _ cs' ev' Hv3 Hexit)
    as (A' & B' & H1 & H2 & H3 & H4 & H5 & H6 & H7 & H8 & H9 & H10).
  simpl in H7, H8, H9, H10.
  exists A', B'. simpl.
  split; [exact H1|]. split; [exact H2|]. split; [exact H3|]. split; [exact H4|].
  split; [exact H5|]. split; [exact H6|].
  split; [rewrite H7; destruct was, hit; reflexivity|].
  split; [rewrite H8; destruct was, hit; reflexivity|].
  split; [rewrite H9; apply expected_split|rewrite H10; apply expected_split].
Qed.

(** ** Runs of ticks *)

Lemma lookup_same_book (cs cs' : list Collider) (k : nat) (c : Collider) :
  map book cs' = map book cs -> cs !! k = Some c ->
  exists c', cs' !! k = Some c' /\ book c' = book c.
Proof.
  intros Hb Hk.
  assert (H : map book cs' !! k = Some (book c))
    by (rewrite Hb, list_lookup_fmap, Hk; reflexivity).
  rewrite list_lookup_fmap in H. destruct (cs' !! k) as [c'|]; [|discriminate].
  exists c'. split; [reflexivity|]. simpl in H. congruence.
Qed.

Lemma expected_installed (c : Collider) (was hit : bool) :
  (book c).2 = (true, true, true) ->
  expected c was hit
  = match was, hit with
    | false, true => [Enter]
    | true, true => [Stay]
    | true, false => [Exit]
    | false, false => []
    end.
Proof.
  unfold book, expected. simpl. intros H. injection H as -> -> ->. reflexivity.
Qed.

(** Over any run of completed ticks, a pair with unambiguous key and every
    callback installed is called back as [lifecycle] says, on both sides. *)
Lemma run_lifecycle (i j : nat) (w w' : World) (hits : list bool) (evs : list Event) :
  Run i j w hits evs w' ->
  forall (A B : Collider) (was : bool),
  well_formed w ->
  keys_unambiguous (map id (colliders w)) ->
  (i < j)%nat ->
  colliders w !! i = Some A -> colliders w !! j = Some B ->
  (book A).2 = (true, true, true) -> (book B).2 = (true, true, true) ->
  set_has (id B) (activeCollisions A) = was ->
  set_has (id A) (activeCollisions B) = was ->
  callbacks (id A) (id B) evs = lifecycle was hits /\
  callbacks (id B) (id A) evs = lifecycle was hits.
Proof.
  induction 1 as [w|w cs T w1 ev hit hits evs w2 Hb Hup Hdet Hrun IH];
    intros A B was Hwf Hamb Hij HA HB HhA HhB HwA HwB; [split; reflexivity|].
  destruct (lookup_same_book _ cs i A Hb HA) as (A1 & HA1 & HbA).
  destruct (lookup_same_book _ cs j B Hb HB) as (B1 & HB1 & HbB).
  assert (Hids : map id cs = map id (colliders w)) by (rewrite <- !book_ids, Hb; reflexivity).
  assert (Hwf1 : well_formed (mkWorld cs T)) by (unfold well_formed; simpl; rewrite Hb; exact Hwf).
  assert (Hamb1 : keys_unambiguous (map id (colliders (mkWorld cs T))))
    by (simpl; rewrite Hids; exact Hamb).
  pose proof (book_id _ _ HbA) as EA. pose proof (book_id _ _ HbB) as EB.
  pose proof (book_active _ _ HbA) as EaA. pose proof (book_active _ _ HbB) as EaB.
  destruct (pair_tick (mkWorld cs T) w1 ev i j A1 B1 was hit Hwf1 Hamb1 Hij HA1 HB1
              ltac:(rewrite EB, EaA; exact HwA) ltac:(rewrite EA, EaB; exact HwB) Hup Hdet)
    as (A' & B' & H1 & H2 & H3 & H4 & H5 & H6 & H7 & H8 & H9 & H10).
  pose proof (update_registered _ _ _ Hup) as (Hids' & _ & _). simpl in Hids'.
  assert (Hwf' : well_formed w1).
  { pose proof (tick_well_formed _ Hwf1) as Ht. unfold tick in Ht. rewrite Hup in Ht.
    exact Ht. }
  destruct (IH A' B' hit Hwf'
              ltac:(rewrite Hids', Hids; exact Hamb) Hij H1 H2
              ltac:(rewrite H5, HbA; exact HhA) ltac:(rewrite H6, HbB; exact HhB)
              ltac:(rewrite H4; exact H7) ltac:(rewrite H3; exact H8))
    as [IHa IHb].
  rewrite !callbacks_app. simpl lifecycle.
  rewrite H3, H4, EA, EB in IHa, IHb. rewrite EA, EB in H9, H10.
  rewrite IHa, IHb, H9, H10.
  rewrite !expected_installed by (rewrite ?HbA, ?HbB; assumption).
  split; reflexivity.
Qed.

Lemma lifecycle_overlap (n : nat) :
  lifecycle false (true :: repeat true n ++ [false]) = Enter :: repeat Stay n ++ [Exit].
Proof.
  simpl. f_equal. induction n as [|n IH]; simpl; [reflexivity|]. rewrite IH. reflexivity.
Qed.

Lemma lifecycle_bracketed (was : bool) (hits : list bool) :
  bracketed was (lifecycle was hits) = true.
Proof.
  revert was. induction hits as [|hit hits IH]; intros was; [reflexivity|].
  destruct was, hit; simpl; apply IH.
Qed.

Lemma append_colon_inj (u u' v v' : string) :
  colon_free u = true -> colon_free u' = true ->
  u +:+ (":" +:+ v) = u' +:+ (":" +:+ v') -> u = u' /\ v = v'.
Proof.
  revert u'. induction u as [|c u IH]; intros [|c' u'] Hu Hu' Heq; simpl in *.
  - injection Heq as Hv. subst. tauto.
  - injection Heq as Hc _. subst c'. simpl in Hu'. discriminate.
  - injection Heq as Hc _. subst c. simpl in Hu. discriminate.
  - injection Heq as Hc Heq. subst c'.
    apply andb_true_iff in Hu as [_ Hu]. apply andb_true_iff in Hu' as [_ Hu'].
    destruct (IH u' Hu Hu' Heq) as [Hu1 Hv1]. subst. tauto.
Qed.

(** Ids without [":"] have unambiguous keys. *)
Lemma colon_free_unambiguous (ids : list string) :
  Forall (fun k => colon_free k = true) ids -> keys_unambiguous ids.
Proof.
  intros Hall x y x' y' Hx Hy Hx' Hy' Heq.
  rewrite Forall_forall in Hall.
  pose proof (Hall x Hx). pose proof (Hall y Hy).
  pose proof (Hall x' Hx'). pose proof (Hall y' Hy').
  unfold pairKey in Heq.
  destruct (String.ltb x y), (String.ltb x' y');
    apply append_colon_inj in Heq; tauto.
Qed.

(** The life of a pair where it holds: when no other registered pair shares
    the key of the pair (always so when no id contains [":"]), the two
    colliders start out of contact and every tick completes, each side is
    called with one
    [onEnter] on the first overlapping tick, one [onStay] on each of the [n]
    overlapping ticks after it and one [onExit] on the first tick without
    overlap; and over any run no [onEnter] follows another without an
    [onExit] between. *)
Lemma pair_lifecycle_unambiguous (i j n : nat) (w w' : World) (A B : Collider)
    (hits : list bool) (evs : list Event) :
  well_formed w ->
  keys_unambiguous (map id (colliders w)) ->
  (i < j)%nat ->
  colliders w !! i = Some A -> colliders w !! j = Some B ->
  (book A).2 = (true, true, true) -> (book B).2 = (true, true, true) ->
  set_has (id B) (activeCollisions A) = false ->
  set_has (id A) (activeCollisions B) = false ->
  Run i j w hits evs w' ->
  (hits = true :: repeat true n ++ [false] ->
   callbacks (id A) (id B) evs = Enter :: repeat Stay n ++ [Exit] /\
   callbacks (id B) (id A) evs = Enter :: repeat Stay n ++ [Exit]) /\
  bracketed false (callbacks (id A) (id B) evs) = true /\
  bracketed false (callbacks (id B) (id A) evs) = true.
Proof.
  intros Hwf Hamb Hij HA HB HhA HhB HwA HwB Hrun.
  destruct (run_lifecycle i j w w' hits evs Hrun A B false Hwf Hamb Hij HA HB HhA HhB HwA HwB)
    as [Ha Hb].
  rewrite Ha, Hb. split; [|split; apply lifecycle_bracketed].
  intros ->. rewrite lifecycle_overlap. split; reflexivity.
Qed.

(** Two spheres over three ticks: overlapping, overlapping, moved apart. *)
Lemma two_spheres_life :
  exists evs w,
    Run 0 1 beforeContact [true; true; false] evs w /\
    callbacks "P" "R" evs = [Enter; Stay; Exit] /\
    callbacks "R" "P" evs = [Enter; Stay; Exit].
Proof.
  assert (Hrun : exists evs w, Run 0 1 beforeContact [true; true; false] evs w).
  { eexists. eexists.
    eapply (run_tick 0 1 _ (colliders beforeContact) (positions beforeContact)).
    - reflexivity.
    - run_update 1.
    - reval. rdecide. reflexivity.
    - eapply (run_tick 0 1 _ (colliders inContact) (positions inContact)).
      + reflexivity.
      + run_update 1.
      + reval. rdecide. reflexivity.
      + eapply (run_tick 0 1 _ movedApart (fun _ => Vector3.zero)).
        * reflexivity.
        * run_update 1.
        * reval. rdecide. reflexivity.
        * apply run_nil. }
  destruct Hrun as (evs & w & Hrun). exists evs, w. split; [exact Hrun|].
  apply (pair_lifecycle_unambiguous 0 1 1 beforeContact w partnerP removedR
           [true; true; false] evs).
  - unfold well_formed, wf_books. simpl. split.
    + apply NoDup_cons. split; [|apply NoDup_singleton].
      intros H. apply list_elem_of_singleton in H. discriminate.
    + repeat constructor; apply not_elem_of_nil.
  - apply colon_free_unambiguous. repeat constructor.
  - lia.
  - reflexivity.
  - reflexivity.
  - reflexivity.
  - reflexivity.
  - reflexivity.
  - reflexivity.
  - exact Hrun.
  - reflexivity.
Qed.
(** ** The registry: registration, lookup and removal together *)

Lemma get_app (cs cs' : list Collider) (k : string) :
  CollisionSystem.get (cs ++ cs') k
  = match CollisionSystem.get cs k with
    | Some c => Some c
    | None => CollisionSystem.get cs' k
    end.
Proof.
  unfold CollisionSystem.get. induction cs as [|c cs IH]; simpl; [reflexivity|].
  destruct (String.eqb (id c) k); [reflexivity|exact IH].
Qed.

Lemma get_filter_other (cs : list Collider) (k k' : string) :
  k' <> k ->
  CollisionSystem.get (CollisionSystem.delete cs k) k' = CollisionSystem.get cs k'.
Proof.
  intros Hne. unfold CollisionSystem.get, CollisionSystem.delete.
  induction cs as [|c cs IH]; [reflexivity|].
  rewrite filter_cons. destruct (decide (id c <> k)) as [Hc|Hc]; simpl.
  - destruct (String.eqb (id c) k'); [reflexivity|exact IH].
  - destruct (String.eqb (id c) k') eqn:E; [|exact IH].
    apply String.eqb_eq in E. exfalso. apply Hne. rewrite <- E.
    destruct (decide (id c = k)); [assumption|contradiction].
Qed.

Lemma delete_absent (cs : list Collider) (k : string) :
  k ∉ map id cs -> CollisionSystem.delete cs k = cs.
Proof.
  unfold CollisionSystem.delete. induction cs as [|c cs IH]; intros Hk; [reflexivity|].
  rewrite filter_cons. simpl in Hk. apply not_elem_of_cons in Hk as [Hne Hk].
  destruct (decide (id c <> k)) as [_|Hc]; [rewrite IH by exact Hk; reflexivity|].
  exfalso. apply Hc. congruence.
Qed.

(** X1. Registering a collider under an id that is not yet registered
    succeeds: the collider is returned, nothing is written to the console,
    it is appended after the colliders already registered, a lookup of its
    id finds it and the lookup of every other id answers as before. *)
Theorem addCollider_getCollider (w : World) (c : Collider) :
  CollisionSystem.getCollider w (id c) = None ->
  let '(w', warnings, result) := CollisionSystem.addCollider w c in
  result = Some c /\ warnings = [] /\
  colliders w' = colliders w ++ [c] /\
  positions w' = positions w /\
  CollisionSystem.getCollider w' (id c) = Some c /\
  forall k, k <> id c -> CollisionSystem.getCollider w' k = CollisionSystem.getCollider w k.
Proof.
  intros Hnone. unfold CollisionSystem.getCollider in *.
  assert (Hhas : CollisionSystem.has (colliders w) (id c) = false).
  { apply not_true_is_false. intros H. apply has_true in H.
    apply get_None in Hnone. contradiction. }
  unfold CollisionSystem.addCollider. rewrite Hhas. simpl.
  repeat split.
  - rewrite get_app, Hnone. unfold CollisionSystem.get. simpl.
    rewrite String.eqb_refl. reflexivity.
  - intros k Hk. rewrite get_app.
    destruct (CollisionSystem.get (colliders w) k); [reflexivity|].
    unfold CollisionSystem.get. simpl.
    destruct (String.eqb (id c) k) eqn:E; [|reflexivity].
    apply String.eqb_eq in E. congruence.
Qed.

Lemma addCollider_getCollider_witness :
  let '(w', warnings, result) := CollisionSystem.addCollider world0 sphereC in
  result = Some sphereC /\ warnings = [] /\
  colliders w' = colliders world0 ++ [sphereC] /\
  positions w' = positions world0 /\
  CollisionSystem.getCollider w' (id sphereC) = Some sphereC /\
  forall k, k <> id sphereC ->
    CollisionSystem.getCollider w' k = CollisionSystem.getCollider world0 k.
Proof. apply (addCollider_getCollider world0 sphereC). reflexivity. Defined.

(** X2. Removal undoes registration and touches nothing else: removing a
    collider right after it was registered under a fresh id gives back the
    world as it was; removing an id that is not registered changes
    nothing and returns nothing; and after any removal the lookup of every
    other id answers as before. *)
Theorem removeCollider_addCollider (w : World) (c : Collider) (k : string) :
  (CollisionSystem.getCollider w (id c) = None ->
   (CollisionSystem.removeCollider (CollisionSystem.addCollider w c).1.1 (id c)).1 = w) /\
  (CollisionSystem.getCollider w k = None ->
   CollisionSystem.removeCollider w k = (w, None)) /\
  (forall k', k' <> k ->
     CollisionSystem.getCollider (CollisionSystem.removeCollider w k).1 k'
     = CollisionSystem.getCollider w k').
Proof.
  unfold CollisionSystem.getCollider. split; [|split].
  - intros Hnone.
    assert (Hhas : CollisionSystem.has (colliders w) (id c) = false).
    { apply not_true_is_false. intros H. apply has_true in H.
      apply get_None in Hnone. contradiction. }
    unfold CollisionSystem.addCollider. rewrite Hhas. simpl.
    unfold CollisionSystem.removeCollider. simpl.
    rewrite get_app, Hnone. unfold CollisionSystem.get at 1. simpl.
    rewrite String.eqb_refl. simpl.
    unfold CollisionSystem.delete. rewrite filter_app.
    fold (CollisionSystem.delete (colliders w) (id c)).
    rewrite delete_absent by (apply get_None, Hnone).
    rewrite filter_cons. destruct (decide (id c <> id c)) as [H|_]; [contradiction|].
    rewrite filter_nil, app_nil_r. destruct w; reflexivity.
  - intros Hnone. unfold CollisionSystem.removeCollider. rewrite Hnone. reflexivity.
  - intros k' Hne. unfold CollisionSystem.removeCollider.
    destruct (CollisionSystem.get (colliders w) k); simpl; [|reflexivity].
    apply get_filter_other, Hne.
Qed.

Lemma removeCollider_addCollider_witness :
  (CollisionSystem.removeCollider (CollisionSystem.addCollider world0 sphereC).1.1
     (id sphereC)).1 = world0 /\
  CollisionSystem.removeCollider world0 "C" = (world0, None).
Proof.
  destruct (removeCollider_addCollider world0 sphereC "C") as (H1 & H2 & _).
  split; [apply H1; reflexivity|apply H2; reflexivity].
Defined.
(** ** The box tests are exact *)

Lemma clamp_between (lo hi p : R) : lo <= hi -> lo <= clamp lo p hi <= hi.
Proof.
  intros H. unfold clamp, Rmax, Rmin.
  destruct (Rle_dec p hi); destruct (Rle_dec lo _); lra.
Qed.

Lemma clamp_nearest (lo hi p q : R) :
  lo <= q <= hi -> (clamp lo p hi - p) * (clamp lo p hi - p) <= (q - p) * (q - p).
Proof.
  intros H.
  assert (Hsq : forall u v : R, Rabs u <= Rabs v -> u * u <= v * v).
  { intros u v. unfold Rabs. destruct (Rcase_abs u); destruct (Rcase_abs v); intros; nra. }
  apply Hsq. unfold clamp, Rmax, Rmin, Rabs.
  destruct (Rle_dec p hi); destruct (Rle_dec lo _);
    destruct (Rcase_abs _); destruct (Rcase_abs _); lra.
Qed.

Lemma distanceTo_lt (p q : Vector3.t) (r : R) :
  Vector3.distanceTo p q < r <-> 0 < r /\ Vector3.distanceToSquared p q < r * r.
Proof. apply sqrt_lt_iff, distanceToSquared_nonneg. Qed.

Lemma distanceTo_le (p q p' q' : Vector3.t) :
  Vector3.distanceToSquared p q <= Vector3.distanceToSquared p' q' ->
  Vector3.distanceTo p q <= Vector3.distanceTo p' q'.
Proof. apply sqrt_le_1_alt. Qed.

Lemma bounds_updateBounds (c : Collider) (size mn mx : Vector3.t) :
  shape c = BoxShape size mn mx ->
  bounds_min (BoxCollider.updateBounds c)
  = Vector3.mk (Vector3.x (worldPosition c) - Vector3.x size / 2)
      (Vector3.y (worldPosition c) - Vector3.y size / 2)
      (Vector3.z (worldPosition c) - Vector3.z size / 2) /\
  bounds_max (BoxCollider.updateBounds c)
  = Vector3.mk (Vector3.x (worldPosition c) + Vector3.x size / 2)
      (Vector3.y (worldPosition c) + Vector3.y size / 2)
      (Vector3.z (worldPosition c) + Vector3.z size / 2).
Proof.
  intros Hs. unfold BoxCollider.updateBounds, bounds_min, bounds_max. rewrite Hs. simpl.
  split; apply vector3_eq; simpl; lra.
Qed.

Lemma box_point_bounds (c : Collider) (size mn mx q : Vector3.t) :
  shape c = BoxShape size mn mx ->
  box_point c q <->
  (Vector3.x (bounds_min (BoxCollider.updateBounds c)) <= Vector3.x q
   <= Vector3.x (bounds_max (BoxCollider.updateBounds c))) /\
  (Vector3.y (bounds_min (BoxCollider.updateBounds c)) <= Vector3.y q
   <= Vector3.y (bounds_max (BoxCollider.updateBounds c))) /\
  (Vector3.z (bounds_min (BoxCollider.updateBounds c)) <= Vector3.z q
   <= Vector3.z (bounds_max (BoxCollider.updateBounds c))).
Proof.
  intros Hs. destruct (bounds_updateBounds c size mn mx Hs) as [-> ->].
  unfold box_point. rewrite Hs. simpl.
  unfold Rabs.
  destruct (Rcase_abs _); destruct (Rcase_abs _); destruct (Rcase_abs _); lra.
Qed.

(** X3. The box-sphere test is exact for a box whose size is not negative:
    it answers true exactly when some point of the box lies closer to the
    centre of the sphere than the radius. *)
Theorem box_intersectsSphere_exact (c : Collider) (size mn mx : Vector3.t) (s : SphereArg) :
  shape c = BoxShape size mn mx ->
  0 <= Vector3.x size -> 0 <= Vector3.y size -> 0 <= Vector3.z size ->
  (BoxCollider.intersectsSphere c s).1 = true <->
  exists q, box_point c q /\ Vector3.distanceTo q (sa_worldPosition s) < sa_radius s.
Proof.
  intros Hs Hx Hy Hz.
  unfold BoxCollider.intersectsSphere. simpl.
  set (c' := BoxCollider.updateBounds c).
  destruct (bounds_updateBounds c size mn mx Hs) as [Hmn Hmx]. fold c' in Hmn, Hmx.
  unfold num_lt. rewrite bool_decide_eq_true.
  split.
  - intros Hlt. exists (BoxCollider.closestPoint c' (sa_worldPosition s)).
    split; [|exact Hlt].
    apply (box_point_bounds c size mn mx _ Hs). fold c'.
    unfold BoxCollider.closestPoint. simpl.
    repeat split; apply clamp_between; rewrite Hmn, Hmx; simpl; lra.
  - intros (q & Hq & Hlt).
    apply (box_point_bounds c size mn mx _ Hs) in Hq. fold c' in Hq.
    destruct Hq as (Hqx & Hqy & Hqz).
    eapply Rle_lt_trans; [|exact Hlt].
    apply distanceTo_le.
    unfold Vector3.distanceToSquared, BoxCollider.closestPoint. simpl.
    pose proof (clamp_nearest _ _ (Vector3.x (sa_worldPosition s)) _ Hqx).
    pose proof (clamp_nearest _ _ (Vector3.y (sa_worldPosition s)) _ Hqy).
    pose proof (clamp_nearest _ _ (Vector3.z (sa_worldPosition s)) _ Hqz).
    lra.
Qed.

Lemma box_intersectsSphere_exact_witness :
  (BoxCollider.intersectsSphere boxLeft (as_sphere sphereA)).1 = true <->
  exists q, box_point boxLeft q
            /\ Vector3.distanceTo q (sa_worldPosition (as_sphere sphereA))
               < sa_radius (as_sphere sphereA).
Proof.
  apply (box_intersectsSphere_exact boxLeft (Vector3.mk 1 1 1) Vector3.zero Vector3.zero);
    [reflexivity|simpl; lra..].
Defined.

Lemma intervals_meet (a b a' b' : R) :
  a <= b -> a' <= b' ->
  (a <= b' /\ b >= a') <-> exists v, (a <= v <= b) /\ (a' <= v <= b').
Proof.
  intros H H'. split.
  - intros [H1 H2]. exists (Rmax a a'). unfold Rmax. destruct (Rle_dec a a'); lra.
  - intros (v & Hv & Hv'). lra.
Qed.

(** X4. The box-box test is exact for boxes whose sizes are not negative:
    it answers true exactly when the two boxes have a point in common,
    a shared face, edge or corner included; so the answer is the same in
    either order. *)
Theorem intersectsBox_exact (a b : Collider) (sa mna mxa sb mnb mxb : Vector3.t) :
  shape a = BoxShape sa mna mxa ->
  shape b = BoxShape sb mnb mxb ->
  0 <= Vector3.x sa -> 0 <= Vector3.y sa -> 0 <= Vector3.z sa ->
  0 <= Vector3.x sb -> 0 <= Vector3.y sb -> 0 <= Vector3.z sb ->
  ((BoxCollider.intersectsBox a b).1.1 = true <-> exists q, box_point a q /\ box_point b q) /\
  (BoxCollider.intersectsBox a b).1.1 = (BoxCollider.intersectsBox b a).1.1.
Proof.
  intros Ha Hb Hax Hay Haz Hbx Hby Hbz.
  assert (Hiff : forall a b sa mna mxa sb mnb mxb,
    shape a = BoxShape sa mna mxa ->
    shape b = BoxShape sb mnb mxb ->
    0 <= Vector3.x sa -> 0 <= Vector3.y sa -> 0 <= Vector3.z sa ->
    0 <= Vector3.x sb -> 0 <= Vector3.y sb -> 0 <= Vector3.z sb ->
    (BoxCollider.intersectsBox a b).1.1 = true <-> exists q, box_point a q /\ box_point b q).
  { clear. intros a b sa mna mxa sb mnb mxb Ha Hb Hax Hay Haz Hbx Hby Hbz.
    unfold BoxCollider.intersectsBox. simpl.
    destruct (bounds_updateBounds a sa mna mxa Ha) as [Hmna Hmxa].
    destruct (bounds_updateBounds b sb mnb mxb Hb) as [Hmnb Hmxb].
    unfold num_le, num_ge.
    rewrite !andb_true_iff, !bool_decide_eq_true.
    split.
    - intros (((((H1 & H2) & H3) & H4) & H5) & H6).
      assert (Hoa : Vector3.x (bounds_min (BoxCollider.updateBounds a))
                    <= Vector3.x (bounds_max (BoxCollider.updateBounds a)) /\
                    Vector3.y (bounds_min (BoxCollider.updateBounds a))
                    <= Vector3.y (bounds_max (BoxCollider.updateBounds a)) /\
                    Vector3.z (bounds_min (BoxCollider.updateBounds a))
                    <= Vector3.z (bounds_max (BoxCollider.updateBounds a)))
        by (rewrite Hmna, Hmxa; simpl; lra).
      assert (Hob : Vector3.x (bounds_min (BoxCollider.updateBounds b))
                    <= Vector3.x (bounds_max (BoxCollider.updateBounds b)) /\
                    Vector3.y (bounds_min (BoxCollider.updateBounds b))
                    <= Vector3.y (bounds_max (BoxCollider.updateBounds b)) /\
                    Vector3.z (bounds_min (BoxCollider.updateBounds b))
                    <= Vector3.z (bounds_max (BoxCollider.updateBounds b)))
        by (rewrite Hmnb, Hmxb; simpl; lra).
      destruct Hoa as (Hoax & Hoay & Hoaz). destruct Hob as (Hobx & Hoby & Hobz).
      destruct (proj1 (intervals_meet _ _ _ _ Hoax Hobx) (conj H1 H2)) as (vx & Hvx & Hvx').
      destruct (proj1 (intervals_meet _ _ _ _ Hoay Hoby) (conj H3 H4)) as (vy & Hvy & Hvy').
      destruct (proj1 (intervals_meet _ _ _ _ Hoaz Hobz) (conj H5 H6)) as (vz & Hvz & Hvz').
      exists (Vector3.mk vx vy vz). split.
      + apply (box_point_bounds a sa mna mxa _ Ha). simpl. tauto.
      + apply (box_point_bounds b sb mnb mxb _ Hb). simpl. tauto.
    - intros (q & Hqa & Hqb).
      apply (box_point_bounds a sa mna mxa _ Ha) in Hqa.
      apply (box_point_bounds b sb mnb mxb _ Hb) in Hqb.
      repeat split; lra. }
  split; [apply (Hiff a b sa mna mxa sb mnb mxb); assumption|].
  apply eq_true_iff_eq.
  rewrite (Hiff a b sa mna mxa sb mnb mxb), (Hiff b a sb mnb mxb sa mna mxa) by assumption.
  split; intros (q & H1 & H2); exists q; tauto.
Qed.

Lemma intersectsBox_exact_witness :
  ((BoxCollider.intersectsBox boxLeft boxRight).1.1 = true <->
   exists q, box_point boxLeft q /\ box_point boxRight q) /\
  (BoxCollider.intersectsBox boxLeft boxRight).1.1
  = (BoxCollider.intersectsBox boxRight boxLeft).1.1.
Proof.
  apply (intersectsBox_exact boxLeft boxRight
           (Vector3.mk 1 1 1) Vector3.zero Vector3.zero
           (Vector3.mk 1 1 1) Vector3.zero Vector3.zero);
    [reflexivity|reflexivity|simpl; lra..].
Defined.
(** ** The capsule-sphere test is exact *)

Lemma clamp01_cases (u : R) :
  (u <= 0 /\ Rmax 0 (Rmin 1 u) = 0) \/
  (0 <= u <= 1 /\ Rmax 0 (Rmin 1 u) = u) \/
  (1 <= u /\ Rmax 0 (Rmin 1 u) = 1).
Proof.
  unfold Rmax, Rmin. destruct (Rle_dec 1 u); destruct (Rle_dec 0 _); lra.
Qed.

(** The point [closestPointOnSegment] gives is on the segment, and no
    point of the segment is nearer to [point]. *)
Lemma closestPointOnSegment_nearest (point segStart segEnd : Vector3.t) :
  Vector3.lengthSq (Vector3.subVectors segEnd segStart) <> 0 ->
  exists t, 0 <= t <= 1 /\
    CapsuleCollider.closestPointOnSegment point segStart segEnd
    = Vector3.addScaledVector segStart (Vector3.subVectors segEnd segStart) t /\
    forall s, 0 <= s <= 1 ->
      Vector3.distanceToSquared
        (CapsuleCollider.closestPointOnSegment point segStart segEnd) point
      <= Vector3.distanceToSquared
           (Vector3.addScaledVector segStart (Vector3.subVectors segEnd segStart) s) point.
Proof.
  intros HD. unfold CapsuleCollider.closestPointOnSegment.
  set (seg := Vector3.subVectors segEnd segStart) in *.
  set (D := Vector3.lengthSq seg) in *.
  set (c := Vector3.dot (Vector3.subVectors point segStart) seg).
  set (u := c / D).
  assert (HDpos : 0 < D) by (pose proof (lengthSq_nonneg seg); fold D in H; lra).
  assert (Hc : c = u * D) by (unfold u; field; exact HD).
  exists (Rmax 0 (Rmin 1 u)). split; [|split; [reflexivity|]].
  { destruct (clamp01_cases u) as [[? ->]|[[? ->]|[? ->]]]; lra. }
  intros s Hs.
  assert (Hexp : forall t,
    Vector3.distanceToSquared (Vector3.addScaledVector segStart seg t) point
    = Vector3.distanceToSquared segStart point - 2 * t * c + t * t * D).
  { intros t. unfold c, D, Vector3.distanceToSquared, Vector3.addScaledVector,
      Vector3.dot, Vector3.lengthSq, Vector3.subVectors. simpl. ring. }
  rewrite !Hexp. rewrite Hc. clearbody u c D.
  set (t := Rmax 0 (Rmin 1 u)).
  assert (Hb : 0 <= (s * s - 2 * s * u) - (t * t - 2 * t * u)).
  { unfold t. destruct (clamp01_cases u) as [[Hu ->]|[[Hu ->]|[Hu ->]]].
    - pose proof (sq_nonneg s). assert (0 <= s * (- u)) by (apply Rmult_le_pos; lra). lra.
    - pose proof (sq_nonneg (s - u)). lra.
    - assert (0 <= (1 - s) * (2 * u - 1 - s)) by (apply Rmult_le_pos; lra). lra. }
  assert (Hm : 0 <= D * ((s * s - 2 * s * u) - (t * t - 2 * t * u)))
    by (apply Rmult_le_pos; lra).
  lra.
Qed.

Lemma capsule_points (c : Collider) (r h : R) (a b : Vector3.t) :
  shape c = CapsuleShape r h a b ->
  let c' := CapsuleCollider.updateCapsulePoints c in
  CapsuleCollider.pointA c'
  = Vector3.mk (Vector3.x (worldPosition c)) (Vector3.y (worldPosition c) - (h - r * 2) / 2)
      (Vector3.z (worldPosition c)) /\
  CapsuleCollider.pointB c'
  = Vector3.mk (Vector3.x (worldPosition c)) (Vector3.y (worldPosition c) + (h - r * 2) / 2)
      (Vector3.z (worldPosition c)) /\
  radius c' = r /\ worldPosition c' = worldPosition c.
Proof.
  intros Hs. unfold CapsuleCollider.updateCapsulePoints, CapsuleCollider.pointA,
    CapsuleCollider.pointB, radius. rewrite Hs. simpl. repeat split.
Qed.

(** The points of the axis are those between its two end points. *)
Lemma capsule_axis_param (c : Collider) (r h : R) (a b q : Vector3.t) :
  shape c = CapsuleShape r h a b ->
  h <> r * 2 ->
  let c' := CapsuleCollider.updateCapsulePoints c in
  capsule_axis_point c q <->
  exists s, 0 <= s <= 1 /\
    q = Vector3.addScaledVector (CapsuleCollider.pointA c')
          (Vector3.subVectors (CapsuleCollider.pointB c') (CapsuleCollider.pointA c')) s.
Proof.
  intros Hs Hh c'. destruct (capsule_points c r h a b Hs) as (HA & HB & _ & _).
  fold c' in HA, HB. rewrite HA, HB. clear HA HB.
  unfold capsule_axis_point. rewrite Hs.
  set (hh := (h - r * 2) / 2). assert (Hhh : hh <> 0) by (unfold hh; lra).
  unfold Vector3.addScaledVector, Vector3.subVectors. simpl.
  split.
  - intros (Hx & Hz & Hy).
    exists ((Vector3.y q - Vector3.y (worldPosition c) + hh) / (2 * hh)).
    split.
    + assert (He : (Vector3.y q - Vector3.y (worldPosition c) + hh) / (2 * hh)
                   = (Vector3.y q - Vector3.y (worldPosition c)) / (2 * hh) + 1 / 2)
        by (field; exact Hhh).
      rewrite He. clear He.
      set (d := Vector3.y q - Vector3.y (worldPosition c)) in *.
      assert (Hd : d = (d / (2 * hh)) * (2 * hh)) by (field; exact Hhh).
      set (v := d / (2 * hh)) in *.
      unfold Rabs in Hy. destruct (Rcase_abs d); destruct (Rcase_abs hh); nra.
    + apply vector3_eq; simpl; [lra| |lra]. field. exact Hhh.
  - intros (s & Hs01 & ->). simpl.
    split; [lra|]. split; [lra|].
    unfold Rabs. destruct (Rcase_abs _); destruct (Rcase_abs hh); nra.
Qed.

(** X5. The capsule-sphere test is exact for a capsule whose height is not
    twice its radius: it answers true exactly when some point of the axis
    of the capsule lies closer to the centre of the sphere than the sum of
    the two radii. *)
Theorem capsule_intersectsSphere_exact (c : Collider) (r h : R) (a b : Vector3.t)
    (s : SphereArg) :
  shape c = CapsuleShape r h a b ->
  h <> r * 2 ->
  (CapsuleCollider.intersectsSphere c s).1 = true <->
  exists q, capsule_axis_point c q
            /\ Vector3.distanceTo q (sa_worldPosition s) < r + sa_radius s.
Proof.
  intros Hs Hh. unfold CapsuleCollider.intersectsSphere. simpl.
  set (c' := CapsuleCollider.updateCapsulePoints c).
  destruct (capsule_points c r h a b Hs) as (HA & HB & Hr & _). fold c' in HA, HB, Hr.
  assert (HD : Vector3.lengthSq
                 (Vector3.subVectors (CapsuleCollider.pointB c') (CapsuleCollider.pointA c'))
               <> 0).
  { rewrite HA, HB. unfold Vector3.lengthSq, Vector3.subVectors. simpl.
    intros H0. apply Hh. nra. }
  destruct (closestPointOnSegment_nearest (sa_worldPosition s) _ _ HD)
    as (t & Ht & Heq & Hnear).
  rewrite Hr. unfold num_lt. rewrite bool_decide_eq_true.
  split.
  - intros Hlt. eexists. split; [|exact Hlt].
    apply (capsule_axis_param c r h a b _ Hs Hh). exists t. split; [exact Ht|exact Heq].
  - intros (q & Hq & Hlt).
    apply (capsule_axis_param c r h a b _ Hs Hh) in Hq as (s0 & Hs0 & ->).
    eapply Rle_lt_trans; [|exact Hlt].
    apply distanceTo_le, Hnear, Hs0.
Qed.

Lemma capsule_intersectsSphere_exact_witness :
  let cap := collider_at 0 "cap" (CapsuleShape 1 4 Vector3.zero Vector3.zero) false
               Vector3.zero in
  (CapsuleCollider.intersectsSphere cap (as_sphere sphereB)).1 = true <->
  exists q, capsule_axis_point cap q
            /\ Vector3.distanceTo q (sa_worldPosition (as_sphere sphereB))
               < 1 + sa_radius (as_sphere sphereB).
Proof.
  apply (capsule_intersectsSphere_exact _ 1 4 Vector3.zero Vector3.zero);
    [reflexivity|lra].
Defined.
(** ** The capsule-capsule test is exact *)

Lemma distanceTo_sym (p q : Vector3.t) : Vector3.distanceTo p q = Vector3.distanceTo q p.
Proof.
  unfold Vector3.distanceTo. f_equal. unfold Vector3.distanceToSquared. simpl. ring.
Qed.

Lemma gap_least (g G : R) : 0 <= g * (G - g) -> g * g <= G * G.
Proof. intros H. pose proof (sq_nonneg (G - g)). nra. Qed.

Lemma vertical_segments (a1 a2 b1 b2 : Vector3.t) :
  Vector3.x a2 = Vector3.x a1 -> Vector3.z a2 = Vector3.z a1 ->
  Vector3.x b2 = Vector3.x b1 -> Vector3.z b2 = Vector3.z b1 ->
  let p := Vector3.y a2 - Vector3.y a1 in
  let q := Vector3.y b2 - Vector3.y b1 in
  1 / 10000 < p * p -> 1 / 10000 < q * q ->
  exists s t,
    0 <= s <= 1 /\ 0 <= t <= 1 /\
    CapsuleCollider.closestPointsOnSegments a1 a2 b1 b2
    = (Vector3.addScaledVector a1 (Vector3.subVectors a2 a1) s,
       Vector3.addScaledVector b1 (Vector3.subVectors b2 b1) t) /\
    forall s' t', 0 <= s' <= 1 -> 0 <= t' <= 1 ->
      let g := Vector3.y a1 - Vector3.y b1 + p * s - q * t in
      let g' := Vector3.y a1 - Vector3.y b1 + p * s' - q * t' in
      0 <= g * (g' - g).
Proof.
  intros Hxa Hza Hxb Hzb p q Hp Hq.
  set (ry := Vector3.y a1 - Vector3.y b1).
  assert (Hp0 : p <> 0) by (intros E; rewrite E in Hp; lra).
  assert (Hq0 : q <> 0) by (intros E; rewrite E in Hq; lra).
  unfold CapsuleCollider.closestPointsOnSegments. cbv zeta.
  set (d1 := Vector3.subVectors a2 a1). set (d2 := Vector3.subVectors b2 b1).
  set (r := Vector3.subVectors a1 b1).
  assert (Ha : Vector3.dot d1 d1 = p * p)
    by (unfold d1, Vector3.dot, Vector3.subVectors; simpl; rewrite Hxa, Hza; fold p; ring).
  assert (He : Vector3.dot d2 d2 = q * q)
    by (unfold d2, Vector3.dot, Vector3.subVectors; simpl; rewrite Hxb, Hzb; fold q; ring).
  assert (Hf : Vector3.dot d2 r = q * ry)
    by (unfold d2, r, Vector3.dot, Vector3.subVectors; simpl; rewrite Hxb, Hzb;
        fold q; fold ry; ring).
  assert (Hc : Vector3.dot d1 r = p * ry)
    by (unfold d1, r, Vector3.dot, Vector3.subVectors; simpl; rewrite Hxa, Hza;
        fold p; fold ry; ring).
  assert (Hb : Vector3.dot d1 d2 = p * q)
    by (unfold d1, d2, Vector3.dot, Vector3.subVectors; simpl; rewrite Hxa, Hza;
        fold p; fold q; ring).
  rewrite Ha, He, Hf, Hc, Hb.
  rewrite (num_le_false (p * p)) by lra. rewrite (num_le_false (q * q)) by lra.
  cbn [andb].
  rewrite (num_ne_false (p * p * (q * q) - p * q * (p * q)) 0) by ring.
  replace ((p * q * 0 + q * ry) / (q * q)) with (ry / q) by (field; exact Hq0).
  replace (- (p * ry) / (p * p)) with (- ry / p) by (field; exact Hp0).
  replace ((p * q - p * ry) / (p * p)) with ((q - ry) / p) by (field; exact Hp0).
  set (t0 := ry / q). set (s0 := - ry / p). set (s1 := (q - ry) / p).
  assert (Ht0 : ry = q * t0) by (unfold t0; field; exact Hq0).
  assert (Hs0 : ry = - (p * s0)) by (unfold s0; field; exact Hp0).
  assert (Hs1 : q - ry = p * s1) by (unfold s1; field; exact Hp0).
  clearbody t0 s0 s1.
  destruct (num_lt t0 0) eqn:Elt.
  - unfold num_lt in Elt. apply bool_decide_eq_true_1 in Elt.
    exists (Rmax 0 (Rmin 1 s0)), 0.
    split; [destruct (clamp01_cases s0) as [[? ->]|[[? ->]|[? ->]]]; lra|].
    split; [lra|]. split; [reflexivity|].
    intros s' t' Hs' Ht'. cbv zeta.
    destruct (clamp01_cases s0) as [[Hu ->]|[[Hu ->]|[Hu ->]]].
    + assert (E : (ry + p * 0 - q * 0) * (ry + p * s' - q * t' - (ry + p * 0 - q * 0))
                  = - (p * s0) * (p * s') - q * t0 * (q * t'))
        by (rewrite <- Hs0, <- Ht0; ring).
      rewrite E.
      assert (0 <= (p * p) * ((- s0) * s'))
        by (apply Rmult_le_pos; [apply sq_nonneg|apply Rmult_le_pos; lra]).
      assert (0 <= (q * q) * ((- t0) * t'))
        by (apply Rmult_le_pos; [apply sq_nonneg|apply Rmult_le_pos; lra]).
      lra.
    + assert (E : ry + p * s0 - q * 0 = 0) by lra. rewrite E. lra.
    + assert (Hpq : 0 <= p * q).
      { assert (Hk : (p * q) * t0 = - (p * p) * s0).
        { replace (p * q * t0) with (p * (q * t0)) by ring.
          rewrite <- Ht0, Hs0. ring. }
        pose proof (sq_nonneg p).
        destruct (Rle_or_lt 0 (p * q)) as [|Hneg]; [assumption|].
        assert (0 < (p * q) * t0) by nra. nra. }
      assert (E : (ry + p * 1 - q * 0) * (ry + p * s' - q * t' - (ry + p * 1 - q * 0))
                  = (p * p) * ((s0 - 1) * (1 - s')) + (p * q) * ((s0 - 1) * t'))
        by (rewrite Hs0; ring).
      rewrite E.
      assert (0 <= (p * p) * ((s0 - 1) * (1 - s')))
        by (apply Rmult_le_pos; [apply sq_nonneg|apply Rmult_le_pos; lra]).
      assert (0 <= (p * q) * ((s0 - 1) * t'))
        by (apply Rmult_le_pos; [exact Hpq|apply Rmult_le_pos; lra]).
      lra.
  - unfold num_lt in Elt. apply bool_decide_eq_false_1 in Elt.
    destruct (num_gt t0 1) eqn:Egt.
    + unfold num_gt in Egt. apply bool_decide_eq_true_1 in Egt.
      exists (Rmax 0 (Rmin 1 s1)), 1.
      split; [destruct (clamp01_cases s1) as [[? ->]|[[? ->]|[? ->]]]; lra|].
      split; [lra|]. split; [reflexivity|].
      intros s' t' Hs' Ht'. cbv zeta.
      destruct (clamp01_cases s1) as [[Hu ->]|[[Hu ->]|[Hu ->]]].
      * assert (E : (ry + p * 0 - q * 1) * (ry + p * s' - q * t' - (ry + p * 0 - q * 1))
                    = (p * p) * ((- s1) * s') + (q * q) * ((t0 - 1) * (1 - t'))).
        { replace ((ry + p * 0 - q * 1) * (ry + p * s' - q * t' - (ry + p * 0 - q * 1)))
            with (- (q - ry) * (p * s') + (ry - q) * (q * (1 - t'))) by ring.
          rewrite Hs1. rewrite Ht0. ring. }
        rewrite E.
        assert (0 <= (p * p) * ((- s1) * s'))
          by (apply Rmult_le_pos; [apply sq_nonneg|apply Rmult_le_pos; lra]).
        assert (0 <= (q * q) * ((t0 - 1) * (1 - t')))
          by (apply Rmult_le_pos; [apply sq_nonneg|apply Rmult_le_pos; lra]).
        lra.
      * assert (E : ry + p * s1 - q * 1 = 0) by lra. rewrite E. lra.
      * assert (Hpq : p * q <= 0).
        { assert (Hk : (p * q) * s1 = (q * q) * (1 - t0)).
          { replace (p * q * s1) with (q * (p * s1)) by ring.
            rewrite <- Hs1, Ht0. ring. }
          pose proof (sq_nonneg q).
          destruct (Rle_or_lt (p * q) 0) as [|Hpos]; [assumption|].
          assert (0 < (p * q) * s1) by nra. nra. }
        assert (E : (ry + p * 1 - q * 1) * (ry + p * s' - q * t' - (ry + p * 1 - q * 1))
                    = (p * p) * ((s1 - 1) * (1 - s')) + (- (p * q)) * ((s1 - 1) * (1 - t'))).
        { replace ((ry + p * 1 - q * 1) * (ry + p * s' - q * t' - (ry + p * 1 - q * 1)))
            with ((p - (q - ry)) * (p * (s' - 1) + q * (1 - t'))) by ring.
          rewrite Hs1. ring. }
        rewrite E.
        assert (0 <= (p * p) * ((s1 - 1) * (1 - s')))
          by (apply Rmult_le_pos; [apply sq_nonneg|apply Rmult_le_pos; lra]).
        assert (0 <= (- (p * q)) * ((s1 - 1) * (1 - t')))
          by (apply Rmult_le_pos; [lra|apply Rmult_le_pos; lra]).
        lra.
    + unfold num_gt in Egt. apply bool_decide_eq_false_1 in Egt.
      exists 0, t0. split; [lra|]. split; [lra|]. split; [reflexivity|].
      intros s' t' Hs' Ht'. cbv zeta.
      assert (E : ry + p * 0 - q * t0 = 0) by lra. rewrite E. lra.
Qed.

Lemma capsule_axis_long (r h : R) :
  1 / 100 < Rabs (h - r * 2) ->
  h <> r * 2 /\
  forall y : R,
    1 / 10000 < (y + (h - r * 2) / 2 - (y - (h - r * 2) / 2))
                * (y + (h - r * 2) / 2 - (y - (h - r * 2) / 2)).
Proof.
  intros H. split.
  - intros E. rewrite E in H. replace (r * 2 - r * 2) with 0 in H by ring.
    rewrite Rabs_R0 in H. lra.
  - intros y. unfold Rabs in H. destruct (Rcase_abs _); nra.
Qed.


(** The pair of points [closestPointsOnSegments] gives for the axes of two
    capsules: one point of each axis, with a vertical gap that no other
    pair of axis points has on its other side. *)
Lemma capsule_closest_pair (a b : Collider) (ra ha rb hb : R) (a1 a2 b1 b2 : Vector3.t) :
  shape a = CapsuleShape ra ha a1 a2 ->
  shape b = CapsuleShape rb hb b1 b2 ->
  1 / 100 < Rabs (ha - ra * 2) ->
  1 / 100 < Rabs (hb - rb * 2) ->
  let a' := CapsuleCollider.updateCapsulePoints a in
  let b' := CapsuleCollider.updateCapsulePoints b in
  exists p q,
    CapsuleCollider.closestPointsOnSegments (CapsuleCollider.pointA a')
      (CapsuleCollider.pointB a') (CapsuleCollider.pointA b') (CapsuleCollider.pointB b')
    = (p, q) /\
    capsule_axis_point a p /\ capsule_axis_point b q /\
    forall p' q', capsule_axis_point a p' -> capsule_axis_point b q' ->
      0 <= (Vector3.y p - Vector3.y q)
           * ((Vector3.y p' - Vector3.y q') - (Vector3.y p - Vector3.y q)).
Proof.
  intros Ha Hb Hla Hlb a' b'.
  destruct (capsule_axis_long ra ha Hla) as [Hha Hpa].
  destruct (capsule_axis_long rb hb Hlb) as [Hhb Hpb].
  destruct (capsule_points a ra ha a1 a2 Ha) as (HA1 & HA2 & _ & _).
  destruct (capsule_points b rb hb b1 b2 Hb) as (HB1 & HB2 & _ & _).
  fold a' in HA1, HA2. fold b' in HB1, HB2.
  destruct (vertical_segments (CapsuleCollider.pointA a') (CapsuleCollider.pointB a')
              (CapsuleCollider.pointA b') (CapsuleCollider.pointB b'))
    as (s & t & Hs & Ht & Heq & Hfirst);
    try (rewrite ?HA1, ?HA2, ?HB1, ?HB2; simpl; first [reflexivity|apply Hpa|apply Hpb]).
  eexists. eexists. split; [exact Heq|].
  split; [apply (capsule_axis_param a ra ha a1 a2 _ Ha Hha); exists s; split;
          [exact Hs|reflexivity]|].
  split; [apply (capsule_axis_param b rb hb b1 b2 _ Hb Hhb); exists t; split;
          [exact Ht|reflexivity]|].
  intros p' q' Hp' Hq'.
  apply (capsule_axis_param a ra ha a1 a2 _ Ha Hha) in Hp' as (s' & Hs' & ->).
  apply (capsule_axis_param b rb hb b1 b2 _ Hb Hhb) in Hq' as (t' & Ht' & ->).
  specialize (Hfirst s' t' Hs' Ht'). cbv zeta in Hfirst.
  fold a' b'. revert Hfirst. rewrite HA1, HA2, HB1, HB2.
  unfold Vector3.addScaledVector, Vector3.subVectors. simpl.
  intros Hfirst. eapply Rle_trans; [exact Hfirst|]. right. ring.
Qed.

(** Such a pair is a nearest pair of the two axes. *)
Lemma axis_points_distance (a b : Collider) (p q p' q' : Vector3.t) :
  capsule_axis_point a p -> capsule_axis_point b q ->
  capsule_axis_point a p' -> capsule_axis_point b q' ->
  0 <= (Vector3.y p - Vector3.y q)
       * ((Vector3.y p' - Vector3.y q') - (Vector3.y p - Vector3.y q)) ->
  Vector3.distanceTo p q <= Vector3.distanceTo p' q'.
Proof.
  unfold capsule_axis_point.
  destruct (shape a); try contradiction. destruct (shape b); try contradiction.
  intros (Hx & Hz & _) (Hx0 & Hz0 & _) (Hx' & Hz' & _) (Hx0' & Hz0' & _) Hfirst.
  apply distanceTo_le. unfold Vector3.distanceToSquared. cbv zeta.
  rewrite Hx, Hz, Hx0, Hz0, Hx', Hz', Hx0', Hz0'.
  pose proof (gap_least _ _ Hfirst). lra.
Qed.

Lemma intersectsCapsule_sym (a b : Collider) (ra ha rb hb : R) (a1 a2 b1 b2 : Vector3.t) :
  shape a = CapsuleShape ra ha a1 a2 ->
  shape b = CapsuleShape rb hb b1 b2 ->
  1 / 100 < Rabs (ha - ra * 2) ->
  1 / 100 < Rabs (hb - rb * 2) ->
  (CapsuleCollider.intersectsCapsule a b).1.1 = (CapsuleCollider.intersectsCapsule b a).1.1.
Proof.
  intros Ha Hb Hla Hlb.
  destruct (capsule_closest_pair a b ra ha rb hb a1 a2 b1 b2 Ha Hb Hla Hlb)
    as (p & q & Heq & Hp & Hq & Hfirst).
  destruct (capsule_closest_pair b a rb hb ra ha b1 b2 a1 a2 Hb Ha Hlb Hla)
    as (q' & p' & Heq' & Hq' & Hp' & Hfirst').
  destruct (capsule_points a ra ha a1 a2 Ha) as (_ & _ & Hra & _).
  destruct (capsule_points b rb hb b1 b2 Hb) as (_ & _ & Hrb & _).
  unfold CapsuleCollider.intersectsCapsule. rewrite Heq, Heq'. simpl. rewrite Hra, Hrb.
  assert (E : Vector3.distanceTo p q = Vector3.distanceTo q' p').
  { apply Rle_antisym.
    - rewrite (distanceTo_sym q' p').
      apply (axis_points_distance a b); auto.
    - rewrite (distanceTo_sym p q).
      apply (axis_points_distance b a); auto. }
  rewrite E, (Rplus_comm rb ra). reflexivity.
Qed.

(** X6. The capsule-capsule test is exact for two capsules whose axes
    are longer than 0.01: it answers true exactly when some point of the
    axis of the one lies closer to some point of the axis of the other
    than the sum of the two radii. *)
Theorem intersectsCapsule_exact (a b : Collider) (ra ha rb hb : R)
    (a1 a2 b1 b2 : Vector3.t) :
  shape a = CapsuleShape ra ha a1 a2 ->
  shape b = CapsuleShape rb hb b1 b2 ->
  1 / 100 < Rabs (ha - ra * 2) ->
  1 / 100 < Rabs (hb - rb * 2) ->
  (CapsuleCollider.intersectsCapsule a b).1.1 = true <->
  exists p q, capsule_axis_point a p /\ capsule_axis_point b q
              /\ Vector3.distanceTo p q < ra + rb.
Proof.
  intros Ha Hb Hla Hlb.
  destruct (capsule_closest_pair a b ra ha rb hb a1 a2 b1 b2 Ha Hb Hla Hlb)
    as (p & q & Heq & Hp & Hq & Hfirst).
  destruct (capsule_points a ra ha a1 a2 Ha) as (_ & _ & Hra & _).
  destruct (capsule_points b rb hb b1 b2 Hb) as (_ & _ & Hrb & _).
  unfold CapsuleCollider.intersectsCapsule. rewrite Heq. simpl. rewrite Hra, Hrb.
  unfold num_lt. rewrite bool_decide_eq_true.
  split.
  - intros Hlt. exists p, q. auto.
  - intros (p' & q' & Hp' & Hq' & Hlt).
    eapply Rle_lt_trans; [|exact Hlt].
    apply (axis_points_distance a b); auto.
Qed.

Lemma intersectsCapsule_exact_witness :
  let tall := collider_at 0 "tall" (CapsuleShape 1 4 Vector3.zero Vector3.zero) false
                Vector3.zero in
  let near := collider_at 1 "near" (CapsuleShape 1 3 Vector3.zero Vector3.zero) false
                (Vector3.mk 1 0 0) in
  (CapsuleCollider.intersectsCapsule tall near).1.1 = true <->
  exists p q, capsule_axis_point tall p /\ capsule_axis_point near q
              /\ Vector3.distanceTo p q < 1 + 1.
Proof.
  apply (intersectsCapsule_exact _ _ 1 4 1 3 Vector3.zero Vector3.zero Vector3.zero
           Vector3.zero); try reflexivity;
    unfold Rabs; destruct (Rcase_abs _); lra.
Defined.
(** ** The cylinder-sphere test sees the side of the cylinder as a shell *)

Lemma sqrt_square_abs (v : R) : sqrt (v * v) = Rabs v.
Proof. apply sqrt_Rsqr_abs. Qed.

Lemma cylinder_bounds (T : Scene) (c : Collider) (r h : R) (bp tp mn mx : Vector3.t) :
  shape c = CylinderShape r h bp tp mn mx ->
  let c' := CylinderCollider.updateWorldPosition T c in
  Vector3.y (bounds_min c') = Vector3.y (worldPosition c') - h / 2 /\
  Vector3.y (bounds_max c') = Vector3.y (worldPosition c') + h / 2 /\
  radius c' = r.
Proof.
  intros Hs. unfold CylinderCollider.updateWorldPosition.
  rewrite class_base_updateWorldPosition, Hs.
  unfold bounds_min, bounds_max, radius. simpl. repeat split.
Qed.

(** X7. For a sphere whose centre is level with the body of a cylinder
    and off its axis, the cylinder-sphere test answers true exactly when
    the distance of the centre from the axis differs from the radius of
    the cylinder by less than the radius of the sphere.  So a sphere that
    lies wholly inside the cylinder, off the axis, is not found. *)
Theorem cylinder_intersectsSphere_shell (T : Scene) (c : Collider) (r h : R)
    (bp tp mn mx : Vector3.t) (s : SphereArg) :
  shape c = CylinderShape r h bp tp mn mx ->
  let c' := CylinderCollider.updateWorldPosition T c in
  let hd := horizontal_distance c' (sa_worldPosition s) in
  Rabs (Vector3.y (sa_worldPosition s) - Vector3.y (worldPosition c')) <= h / 2 ->
  hd <> 0 ->
  CylinderCollider.intersectsSphere c' s = bool_decide (Rabs (hd - r) < sa_radius s) /\
  (hd + sa_radius s <= r -> CylinderCollider.intersectsSphere c' s = false).
Proof.
  intros Hs c' hd Hlevel Hoff.
  destruct (cylinder_bounds T c r h bp tp mn mx Hs) as (Hmn & Hmx & Hr).
  fold c' in Hmn, Hmx, Hr.
  assert (Heq : CylinderCollider.intersectsSphere c' s
                = bool_decide (Rabs (hd - r) < sa_radius s)).
  { unfold CylinderCollider.intersectsSphere. cbv zeta.
    rewrite Hmn, Hmx, Hr.
    set (p := sa_worldPosition s) in *. set (wp := worldPosition c') in *.
    set (dx := Vector3.x p - Vector3.x wp). set (dz := Vector3.z p - Vector3.z wp).
    assert (Hhd : hd = sqrt (dx * dx + dz * dz)).
    { unfold hd, horizontal_distance. fold wp. f_equal. unfold dx, dz. ring. }
    assert (Hsq : 0 <= dx * dx + dz * dz)
      by (pose proof (sq_nonneg dx); pose proof (sq_nonneg dz); lra).
    assert (Hhd0 : 0 < hd).
    { pose proof (sqrt_pos (dx * dx + dz * dz)). rewrite <- Hhd in *. lra. }
    assert (Hhd2 : hd * hd = dx * dx + dz * dz) by (rewrite Hhd; apply sqrt_sqrt, Hsq).
    assert (Hclamp : clamp (Vector3.y wp - h / 2) (Vector3.y p) (Vector3.y wp + h / 2)
                     = Vector3.y p).
    { unfold clamp, Rmax, Rmin. unfold Rabs in Hlevel.
      destruct (Rcase_abs _); destruct (Rle_dec (Vector3.y p) _); destruct (Rle_dec _ _); lra. }
    rewrite Hclamp.
    assert (Hlen : Vector3.lengthSq (Vector3.mk dx 0 dz) = hd * hd).
    { unfold Vector3.lengthSq. simpl. lra. }
    rewrite Hlen. rewrite (num_gt_true (hd * hd) 0) by nra.
    assert (Hnorm : Vector3.normalize (Vector3.mk dx 0 dz)
                    = Vector3.mk (dx / hd) 0 (dz / hd)).
    { unfold Vector3.normalize, Vector3.length. rewrite Hlen.
      rewrite (sqrt_of_square (hd * hd) hd) by lra.
      unfold num_or. rewrite num_eq_false by lra.
      apply vector3_eq; simpl; field; lra. }
    rewrite Hnorm.
    assert (Hdist : Vector3.distanceTo
                      (Vector3.add (Vector3.mk (Vector3.x wp) (Vector3.y p) (Vector3.z wp))
                         (Vector3.multiplyScalar (Vector3.mk (dx / hd) 0 (dz / hd)) r)) p
                    = Rabs (hd - r)).
    { unfold Vector3.distanceTo. rewrite <- sqrt_square_abs. f_equal.
      unfold Vector3.distanceToSquared. simpl.
      replace (Vector3.x wp + dx / hd * r - Vector3.x p) with (dx * (r / hd - 1))
        by (unfold dx; field; lra).
      replace (Vector3.z wp + dz / hd * r - Vector3.z p) with (dz * (r / hd - 1))
        by (unfold dz; field; lra).
      replace (dx * (r / hd - 1) * (dx * (r / hd - 1))
               + (Vector3.y p + 0 * r - Vector3.y p) * (Vector3.y p + 0 * r - Vector3.y p)
               + dz * (r / hd - 1) * (dz * (r / hd - 1)))
        with ((dx * dx + dz * dz) * ((r / hd - 1) * (r / hd - 1))) by ring.
      rewrite <- Hhd2. field. lra. }
    rewrite Hdist.
    destruct (num_gt (dx * dx + dz * dz) ((r + sa_radius s) ^ 2)) eqn:Hfar;
      [|reflexivity].
    symmetry. apply bool_decide_eq_false_2. intros Hlt.
    unfold num_gt in Hfar. apply bool_decide_eq_true_1 in Hfar.
    rewrite <- Hhd2 in Hfar.
    unfold Rabs in Hlt. destruct (Rcase_abs _); nra. }
  split; [exact Heq|].
  intros Hin. rewrite Heq. apply bool_decide_eq_false_2.
  assert (Hhd0 : 0 <= hd) by apply sqrt_pos.
  unfold Rabs. destruct (Rcase_abs _); lra.
Qed.

(** A cylinder of radius 5 and height 4 at the origin, and a ball of
    radius 1/2 inside it, two units from the axis. *)
Lemma cylinder_intersectsSphere_shell_witness :
  let drum := collider_at 0 "drum"
                (CylinderShape 5 4 Vector3.zero Vector3.zero Vector3.zero Vector3.zero)
                true Vector3.zero in
  let inner := mkSphereArg (Vector3.mk 2 0 0) (1 / 2) in
  CylinderCollider.intersectsSphere
    (CylinderCollider.updateWorldPosition (fun _ => Vector3.zero) drum) inner = false.
Proof.
  intros drum inner.
  assert (Hhd : horizontal_distance
                  (CylinderCollider.updateWorldPosition (fun _ => Vector3.zero) drum)
                  (sa_worldPosition inner) = 2).
  { unfold horizontal_distance. simpl. apply sqrt_of_square; lra. }
  apply (cylinder_intersectsSphere_shell (fun _ => Vector3.zero) drum 5 4
           Vector3.zero Vector3.zero Vector3.zero Vector3.zero inner eq_refl).
  - simpl. unfold Rabs. destruct (Rcase_abs _); lra.
  - rewrite Hhd. lra.
  - rewrite Hhd. simpl. lra.
Defined.
(** ** Responses *)

(** X8. [getCollisionResponse] ends in a TypeError exactly when its first
    argument is a CylinderCollider and its second is tagged SPHERE (a
    SphereCollider or another CylinderCollider): the call then goes to
    the method [getCollisionResponse] of the cylinder, which it does not
    have.  In every other case a response is returned. *)
Theorem getCollisionResponse_throws (T : Scene) (a b : Collider) :
  (CollisionSystem.getCollisionResponse T a b).1.1 = None <->
  class a = KCylinder /\ type b = SPHERE.
Proof.
  split.
  - intros Hnone.
    assert (Hc : class a = KCylinder \/ class a <> KCylinder)
      by (destruct (class a); [right|right|right|left]; congruence).
    destruct Hc as [Ha|Ha].
    + split; [exact Ha|].
      revert Hnone. unfold CollisionSystem.getCollisionResponse.
      pose proof (class_updateWorldPosition T a) as Ha'.
      pose proof (class_updateWorldPosition T b) as Hb'.
      set (a' := CollisionSystem.updateWorldPosition T a) in *.
      set (b' := CollisionSystem.updateWorldPosition T b) in *.
      assert (Hta : type a' = SPHERE) by (apply cylinder_tagged_sphere; congruence).
      assert (Htb : type b' = type b).
      { unfold type. unfold class in Hb'. destruct (shape b'), (shape b); simpl in *;
          try discriminate; reflexivity. }
      unfold CollisionSystem.tagged. rewrite Hta, Htb.
      destruct (type b); simpl; try reflexivity; intros H.
      * destruct (BoxCollider.getCollisionResponseForSphere b' (as_sphere a')).
        discriminate.
      * discriminate.
    + destruct (getCollisionResponse_Some T a b Ha) as [r Hr]. congruence.
  - intros [Ha Hb]. unfold CollisionSystem.getCollisionResponse.
    pose proof (class_updateWorldPosition T a) as Ha'.
    pose proof (class_updateWorldPosition T b) as Hb'.
    set (a' := CollisionSystem.updateWorldPosition T a) in *.
    set (b' := CollisionSystem.updateWorldPosition T b) in *.
    assert (Hta : type a' = SPHERE) by (apply cylinder_tagged_sphere; congruence).
    assert (Htb : type b' = SPHERE).
    { rewrite <- Hb. unfold type. unfold class in Hb'. destruct (shape b'), (shape b);
        simpl in *; try discriminate; reflexivity. }
    unfold CollisionSystem.tagged. rewrite Hta, Htb. simpl.
    unfold CollisionSystem.call_getCollisionResponse.
    unfold class in Ha, Ha'. destruct (shape a'), (shape a); simpl in *;
      try discriminate; reflexivity.
Qed.

Lemma distanceTo_length (p q : Vector3.t) :
  Vector3.distanceTo p q = Vector3.length (Vector3.subVectors p q).
Proof. reflexivity. Qed.

Lemma length_sym (p q : Vector3.t) :
  Vector3.length (Vector3.subVectors q p) = Vector3.length (Vector3.subVectors p q).
Proof.
  unfold Vector3.length. f_equal. unfold Vector3.lengthSq, Vector3.subVectors. simpl. ring.
Qed.

Lemma normalize_swap (p q : Vector3.t) :
  Vector3.normalize (Vector3.subVectors q p)
  = Vector3.negate (Vector3.normalize (Vector3.subVectors p q)).
Proof.
  unfold Vector3.normalize. rewrite (length_sym p q).
  apply vector3_eq; simpl; ring.
Qed.

Lemma sphere_response_swap (a b : Collider) :
  SphereCollider.getCollisionResponse b (as_sphere a)
  = CollisionSystem.responseForB (SphereCollider.getCollisionResponse a (as_sphere b)).
Proof.
  unfold SphereCollider.getCollisionResponse, CollisionSystem.responseForB, as_sphere. simpl.
  rewrite !distanceTo_length, (length_sym (worldPosition a) (worldPosition b)).
  rewrite (normalize_swap (worldPosition a) (worldPosition b)).
  rewrite (Rplus_comm (radius b) (radius a)). reflexivity.
Qed.

Lemma sphere_updateWorldPosition (T : Scene) (c : Collider) (r : R) :
  shape c = SphereShape r ->
  CollisionSystem.updateWorldPosition T c = ColliderBase.updateWorldPosition T c /\
  shape (ColliderBase.updateWorldPosition T c) = SphereShape r.
Proof.
  intros Hs. split.
  - unfold CollisionSystem.updateWorldPosition. rewrite Hs. reflexivity.
  - rewrite class_base_updateWorldPosition. exact Hs.
Qed.

Lemma getCollisionResponse_spheres (T : Scene) (a b : Collider) (ra rb : R) :
  shape a = SphereShape ra ->
  shape b = SphereShape rb ->
  CollisionSystem.getCollisionResponse T a b
  = (Some (SphereCollider.getCollisionResponse (ColliderBase.updateWorldPosition T a)
             (as_sphere (ColliderBase.updateWorldPosition T b))),
     ColliderBase.updateWorldPosition T a, ColliderBase.updateWorldPosition T b).
Proof.
  intros Ha Hb. unfold CollisionSystem.getCollisionResponse.
  destruct (sphere_updateWorldPosition T a ra Ha) as [-> Ha'].
  destruct (sphere_updateWorldPosition T b rb Hb) as [-> Hb'].
  unfold CollisionSystem.tagged, type. rewrite Ha', Hb'. simpl.
  unfold CollisionSystem.call_getCollisionResponse. rewrite Ha'. reflexivity.
Qed.

(** X9. For two sphere colliders the response is the same whichever is
    taken first, up to its sense: the response computed for the pair in
    the other order has the same overlap and the opposite direction and
    normal, which is what the second collider of a pair is called with. *)
Theorem sphere_response_antisymmetric (T : Scene) (a b : Collider) (ra rb : R) :
  shape a = SphereShape ra ->
  shape b = SphereShape rb ->
  exists r,
    (CollisionSystem.getCollisionResponse T a b).1.1 = Some r /\
    (CollisionSystem.getCollisionResponse T b a).1.1
    = Some (CollisionSystem.responseForB r).
Proof.
  intros Ha Hb.
  rewrite (getCollisionResponse_spheres T a b ra rb Ha Hb).
  rewrite (getCollisionResponse_spheres T b a rb ra Hb Ha). simpl.
  eexists. split; [reflexivity|]. f_equal. apply sphere_response_swap.
Qed.

Lemma sphere_response_antisymmetric_witness :
  exists r,
    (CollisionSystem.getCollisionResponse (fun _ => Vector3.zero) sphereA sphereB).1.1
    = Some r /\
    (CollisionSystem.getCollisionResponse (fun _ => Vector3.zero) sphereB sphereA).1.1
    = Some (CollisionSystem.responseForB r).
Proof.
  apply (sphere_response_antisymmetric (fun _ => Vector3.zero) sphereA sphereB 1 1);
    reflexivity.
Defined.
(** ** Resolution moves two overlapping spheres apart *)

Lemma distanceTo_scaled (p q v : Vector3.t) (k : R) :
  Vector3.x p - Vector3.x q = Vector3.x v * k ->
  Vector3.y p - Vector3.y q = Vector3.y v * k ->
  Vector3.z p - Vector3.z q = Vector3.z v * k ->
  0 <= k ->
  Vector3.distanceTo p q = k * Vector3.length v.
Proof.
  intros Hx Hy Hz Hk. unfold Vector3.distanceTo, Vector3.distanceToSquared. cbv zeta.
  rewrite Hx, Hy, Hz.
  pose proof (lengthSq_nonneg v) as Hsq.
  assert (Hl : Vector3.length v * Vector3.length v = Vector3.lengthSq v)
    by (apply sqrt_sqrt, Hsq).
  apply sqrt_of_square.
  - apply Rmult_le_pos; [exact Hk|apply sqrt_pos].
  - unfold Vector3.lengthSq in Hl.
    replace (k * Vector3.length v * (k * Vector3.length v))
      with (k * k * (Vector3.length v * Vector3.length v)) by ring.
    rewrite Hl. ring.
Qed.

Lemma normalize_components (v : Vector3.t) :
  Vector3.length v <> 0 ->
  Vector3.normalize v
  = Vector3.mk (Vector3.x v / Vector3.length v) (Vector3.y v / Vector3.length v)
      (Vector3.z v / Vector3.length v).
Proof.
  intros Hl. unfold Vector3.normalize, num_or. rewrite num_eq_false by exact Hl.
  apply vector3_eq; simpl; field; exact Hl.
Qed.

(** X10. Two overlapping sphere colliders whose centres differ, on different
    parents, neither a trigger and not both static: the response has the
    unit direction from the centre of the second to the centre of the
    first, and the overlap is the sum of the radii less the distance of
    the centres; once [resolveCollision] has moved the parents, the
    centres are farther apart than they were. *)
Theorem sphere_resolution_moves_apart (T : Scene) (a b : Collider) (ra rb : R) (pa pb : nat) :
  shape a = SphereShape ra ->
  shape b = SphereShape rb ->
  parent a = Some pa -> parent b = Some pb -> pa <> pb ->
  isTrigger a = false -> isTrigger b = false ->
  isStatic a && isStatic b = false ->
  let ca := Vector3.add (T pa) (offset a) in
  let cb := Vector3.add (T pb) (offset b) in
  let d := Vector3.distanceTo ca cb in
  0 < d < ra + rb ->
  let '(response, a', b') := CollisionSystem.getCollisionResponse T a b in
  exists r,
    response = Some r /\
    direction r = Vector3.normalize (Vector3.subVectors ca cb) /\
    Vector3.length (direction r) = 1 /\
    overlap r = ra + rb - d /\
    let T' := positions (CollisionSystem.resolveCollision a' b' r (mkWorld [a'; b'] T)) in
    d < Vector3.distanceTo (Vector3.add (T' pa) (offset a)) (Vector3.add (T' pb) (offset b)).
Proof.
  intros Ha Hb Hpa Hpb Hne Hta Htb Hst ca cb d Hd.
  rewrite (getCollisionResponse_spheres T a b ra rb Ha Hb).
  unfold ColliderBase.updateWorldPosition. rewrite Hpa, Hpb.
  fold ca cb.
  set (a' := with_worldPosition a ca). set (b' := with_worldPosition b cb).
  eexists. split; [reflexivity|].
  unfold SphereCollider.getCollisionResponse, as_sphere, radius. simpl.
  rewrite Ha, Hb. fold d.
  set (v := Vector3.subVectors ca cb).
  assert (Hlen : Vector3.length v = d) by reflexivity.
  assert (Hl0 : Vector3.length v <> 0) by lra.
  split; [reflexivity|].
  split; [apply length_normalize, Hl0|].
  rewrite Rmax_right by lra.
  split; [reflexivity|].
  assert (Hdist :
    Vector3.distanceTo
      (Vector3.add
         (positions
            (CollisionSystem.resolveCollision a' b'
               (mkResponse (Vector3.normalize v) (ra + rb - d) (Vector3.normalize v))
               (mkWorld [a'; b'] T)) pa) (offset a))
      (Vector3.add
         (positions
            (CollisionSystem.resolveCollision a' b'
               (mkResponse (Vector3.normalize v) (ra + rb - d) (Vector3.normalize v))
               (mkWorld [a'; b'] T)) pb) (offset b))
    = ra + rb).
  { assert (Hsc : forall p q : Vector3.t,
      Vector3.x p - Vector3.x q = Vector3.x v * ((ra + rb) / d) ->
      Vector3.y p - Vector3.y q = Vector3.y v * ((ra + rb) / d) ->
      Vector3.z p - Vector3.z q = Vector3.z v * ((ra + rb) / d) ->
      Vector3.distanceTo p q = ra + rb).
    { intros p q Hx Hy Hz.
      rewrite (distanceTo_scaled p q v ((ra + rb) / d) Hx Hy Hz)
        by (apply Rle_mult_inv_pos; lra).
      rewrite Hlen. field. lra. }
    rewrite (normalize_components v Hl0), Hlen.
    unfold CollisionSystem.resolveCollision. simpl.
    rewrite Hta, Htb, Hst. simpl. rewrite Hpa, Hpb.
    assert (Hne' : pb <> pa) by congruence.
    destruct (isStatic a) eqn:Hsa; [|destruct (isStatic b) eqn:Hsb]; simpl;
      unfold CollisionSystem.position_add, CollisionSystem.position_sub;
      repeat first [ rewrite set_position_same
                   | rewrite (set_position_other _ _ _ _ Hne)
                   | rewrite (set_position_other _ _ _ _ Hne') ];
      apply Hsc; unfold v, ca, cb; simpl; field; lra. }
  cbv zeta. rewrite Hdist. lra.
Qed.

Lemma sphere_resolution_moves_apart_witness :
  let ca := Vector3.add (bothNear 0%nat) (offset (sphere_on 0 "a" [])) in
  let cb := Vector3.add (bothNear 1%nat) (offset moverB) in
  let '(response, a', b') :=
    CollisionSystem.getCollisionResponse bothNear (sphere_on 0 "a" []) moverB in
  exists r,
    response = Some r /\
    direction r = Vector3.normalize (Vector3.subVectors ca cb) /\
    Vector3.length (direction r) = 1 /\
    overlap r = 1 + 1 - Vector3.distanceTo ca cb /\
    let T' := positions (CollisionSystem.resolveCollision a' b' r (mkWorld [a'; b'] bothNear)) in
    Vector3.distanceTo ca cb
    < Vector3.distanceTo (Vector3.add (T' 0%nat) (offset (sphere_on 0 "a" [])))
        (Vector3.add (T' 1%nat) (offset moverB)).
Proof.
  apply (sphere_resolution_moves_apart bothNear (sphere_on 0 "a" []) moverB 1 1 0 1);
    try reflexivity; [lia|].
  assert (Hd : Vector3.distanceTo
                 (Vector3.add (bothNear 0%nat) (offset (sphere_on 0 "a" [])))
                 (Vector3.add (bothNear 1%nat) (offset moverB)) = 1).
  { unfold Vector3.distanceTo, Vector3.distanceToSquared. simpl.
    apply sqrt_of_square; lra. }
  rewrite Hd. lra.
Defined.
(** ** Resolution moves a sphere that overlaps a static box away from it *)

(** Moving a point straight away from its closest point of an interval
    keeps the closest point. *)
Lemma clamp_ray (lo hi p k : R) :
  0 <= k -> clamp lo (p + (p - clamp lo p hi) * k) hi = clamp lo p hi.
Proof.
  intros Hk.
  assert (Hm : forall u, (0 <= u -> 0 <= u * k) /\ (u <= 0 -> u * k <= 0)).
  { intros u. split; intros Hu; nra. }
  unfold clamp.
  destruct (Rle_dec p hi) as [Hp|Hp].
  - rewrite (Rmin_left p hi Hp).
    destruct (Rle_dec lo p) as [Hl|Hl].
    + rewrite (Rmax_right lo p Hl).
      replace (p + (p - p) * k) with p by ring.
      rewrite (Rmin_left p hi Hp). apply Rmax_right, Hl.
    + rewrite (Rmax_left lo p) by lra.
      destruct (Hm (p - lo)) as [_ Hneg].
      unfold Rmin. destruct (Rle_dec _ hi); apply Rmax_left; lra.
  - rewrite (Rmin_right p hi) by lra.
    destruct (Rle_dec lo hi) as [Hl|Hl].
    + rewrite (Rmax_right lo hi Hl).
      destruct (Hm (p - hi)) as [Hpos _].
      rewrite Rmin_right by lra. apply Rmax_right, Hl.
    + rewrite (Rmax_left lo hi) by lra.
      unfold Rmin. destruct (Rle_dec _ hi); apply Rmax_left; lra.
Qed.

Lemma closestPoint_ray (box : Collider) (p : Vector3.t) (k : R) :
  0 <= k ->
  let c := BoxCollider.closestPoint box p in
  BoxCollider.closestPoint box
    (Vector3.add p (Vector3.multiplyScalar (Vector3.subVectors p c) k)) = c.
Proof.
  intros Hk c. unfold c, BoxCollider.closestPoint. simpl.
  apply vector3_eq; simpl; apply clamp_ray, Hk.
Qed.

Lemma updateBounds_box (c : Collider) (size mn mx : Vector3.t) :
  shape c = BoxShape size mn mx ->
  exists mn' mx',
    BoxCollider.updateBounds c = with_shape c (BoxShape size mn' mx').
Proof.
  intros Hs. unfold BoxCollider.updateBounds. rewrite Hs. eexists. eexists. reflexivity.
Qed.

(** X11. A sphere collider that overlaps a static box collider with its
    centre outside the box, the sphere being the first of the pair, on a
    parent of its own, neither of the two a trigger: the response has the
    unit direction from the nearest point of the box to the centre, and
    the overlap is the radius less the distance of the centre from the
    box; [resolveCollision] moves only the parent of the sphere, by
    direction * overlap, after which the centre is farther from the box
    than it was. *)
Theorem sphere_box_resolution_moves_apart (T : Scene) (a b : Collider) (ra : R)
    (size mn mx : Vector3.t) (pa : nat) :
  shape a = SphereShape ra ->
  shape b = BoxShape size mn mx ->
  parent a = Some pa -> parent b <> Some pa ->
  isTrigger a = false -> isTrigger b = false ->
  isStatic a = false -> isStatic b = true ->
  let centre := Vector3.add (T pa) (offset a) in
  let box := BoxCollider.updateBounds (ColliderBase.updateWorldPosition T b) in
  let d := Vector3.distanceTo (BoxCollider.closestPoint box centre) centre in
  0 < d < ra ->
  let '(response, a', b') := CollisionSystem.getCollisionResponse T a b in
  exists r,
    response = Some r /\
    direction r
    = Vector3.normalize (Vector3.subVectors centre (BoxCollider.closestPoint box centre)) /\
    Vector3.length (direction r) = 1 /\
    overlap r = ra - d /\
    let T' := positions (CollisionSystem.resolveCollision a' b' r (mkWorld [a'; b'] T)) in
    let centre' := Vector3.add (T' pa) (offset a) in
    (forall p, p <> pa -> T' p = T p) /\
    T' pa = Vector3.add (T pa) (Vector3.multiplyScalar (direction r) (overlap r)) /\
    d < Vector3.distanceTo (BoxCollider.closestPoint box centre') centre'.
Proof.
  intros Ha Hb Hpa Hpb Hta Htb Hsa Hsb centre box d Hd.
  set (b1 := ColliderBase.updateWorldPosition T b) in *.
  set (a1 := with_worldPosition a centre).
  assert (Hb1 : shape b1 = BoxShape size mn mx)
    by (unfold b1; rewrite class_base_updateWorldPosition; exact Hb).
  assert (Ea : CollisionSystem.updateWorldPosition T a = a1).
  { unfold CollisionSystem.updateWorldPosition, ColliderBase.updateWorldPosition.
    rewrite Ha, Hpa. reflexivity. }
  assert (Eb : CollisionSystem.updateWorldPosition T b = b1).
  { unfold CollisionSystem.updateWorldPosition. rewrite Hb. reflexivity. }
  unfold CollisionSystem.getCollisionResponse. rewrite Ea, Eb.
  assert (Hta1 : CollisionSystem.tagged a1 SPHERE = true)
    by (unfold CollisionSystem.tagged, type, a1; simpl; rewrite Ha; reflexivity).
  assert (Htb1 : CollisionSystem.tagged b1 SPHERE = false)
    by (unfold CollisionSystem.tagged, type; rewrite Hb1; reflexivity).
  assert (Htb2 : CollisionSystem.tagged b1 BOX = true)
    by (unfold CollisionSystem.tagged, type; rewrite Hb1; reflexivity).
  rewrite Hta1, Htb1, Htb2. simpl.
  unfold BoxCollider.getCollisionResponseForSphere. fold box.
  assert (Hra : radius a1 = ra) by (unfold radius, a1; simpl; rewrite Ha; reflexivity).
  rewrite Hra. fold d.
  set (closest := BoxCollider.closestPoint box centre) in *.
  set (v := Vector3.subVectors centre closest).
  assert (Hlen : Vector3.length v = d).
  { unfold v, d. rewrite distanceTo_length. apply length_sym. }
  assert (Hl0 : Vector3.length v <> 0) by lra.
  rewrite (Rmax_right 0 (ra - d)) by lra.
  set (r := mkResponse (Vector3.normalize v) (ra - d) (Vector3.normalize v)).
  exists r. split; [reflexivity|]. split; [reflexivity|].
  split; [apply length_normalize, Hl0|]. split; [reflexivity|].
  assert (Hbox : exists mn' mx', box = with_shape b1 (BoxShape size mn' mx'))
    by (apply (updateBounds_box b1 size mn mx Hb1)).
  destruct Hbox as (mn' & mx' & Hbox).
  assert (HT' : positions (CollisionSystem.resolveCollision a1 box r (mkWorld [a1; box] T))
                = set_position T pa
                    (Vector3.add (T pa) (Vector3.multiplyScalar (direction r) (overlap r)))).
  { unfold CollisionSystem.resolveCollision.
    assert (E1 : isTrigger a1 = false) by exact Hta.
    assert (E2 : isTrigger box = false).
    { rewrite Hbox. simpl. unfold b1, ColliderBase.updateWorldPosition.
      destruct (parent b); exact Htb. }
    assert (E3 : isStatic a1 = false) by exact Hsa.
    assert (E4 : isStatic box = true).
    { rewrite Hbox. simpl. unfold b1, ColliderBase.updateWorldPosition.
      destruct (parent b); exact Hsb. }
    rewrite E1, E2, E3, E4. simpl.
    unfold CollisionSystem.position_add. rewrite Hpa. reflexivity. }
  rewrite HT'. cbv zeta.
  rewrite set_position_same.
  assert (Hcentre' :
    Vector3.add (Vector3.add (T pa) (Vector3.multiplyScalar (direction r) (overlap r)))
      (offset a)
    = Vector3.add centre (Vector3.multiplyScalar (Vector3.subVectors centre closest)
                            ((ra - d) / d))).
  { unfold r. simpl. rewrite (normalize_components v Hl0), Hlen.
    unfold centre, v. apply vector3_eq; simpl; field; lra. }
  assert (Hk : 0 <= (ra - d) / d) by (apply Rle_mult_inv_pos; lra).
  assert (Hdist :
    Vector3.distanceTo
      (BoxCollider.closestPoint box
         (Vector3.add (Vector3.add (T pa) (Vector3.multiplyScalar (direction r) (overlap r)))
            (offset a)))
      (Vector3.add (Vector3.add (T pa) (Vector3.multiplyScalar (direction r) (overlap r)))
         (offset a)) = ra).
  { rewrite Hcentre'.
    pose proof (closestPoint_ray box centre _ Hk) as Hray. cbv zeta in Hray.
    fold closest in Hray. rewrite Hray. clear Hray.
    rewrite (distanceTo_scaled _ _ (Vector3.subVectors closest centre) (1 + (ra - d) / d)).
    - rewrite length_sym. fold v. rewrite Hlen. field. lra.
    - simpl. ring.
    - simpl. ring.
    - simpl. ring.
    - lra. }
  split; [intros p Hp; apply set_position_other, Hp|].
  split; [reflexivity|].
  rewrite Hdist. lra.
Qed.

Lemma sphere_box_resolution_moves_apart_witness :
  let centre := Vector3.add (ballAbove 1%nat) (offset ball) in
  let box := BoxCollider.updateBounds (ColliderBase.updateWorldPosition ballAbove staticBox) in
  let d := Vector3.distanceTo (BoxCollider.closestPoint box centre) centre in
  let '(response, a', b') := CollisionSystem.getCollisionResponse ballAbove ball staticBox in
  exists r,
    response = Some r /\
    direction r
    = Vector3.normalize (Vector3.subVectors centre (BoxCollider.closestPoint box centre)) /\
    Vector3.length (direction r) = 1 /\
    overlap r = 1 / 2 - d /\
    let T' := positions (CollisionSystem.resolveCollision a' b' r (mkWorld [a'; b'] ballAbove)) in
    let centre' := Vector3.add (T' 1%nat) (offset ball) in
    (forall p, p <> 1%nat -> T' p = ballAbove p) /\
    T' 1%nat
    = Vector3.add (ballAbove 1%nat) (Vector3.multiplyScalar (direction r) (overlap r)) /\
    d < Vector3.distanceTo (BoxCollider.closestPoint box centre') centre'.
Proof.
  apply (sphere_box_resolution_moves_apart ballAbove ball staticBox (1 / 2)
           (Vector3.mk 2 2 2) Vector3.zero Vector3.zero 1);
    try reflexivity; [discriminate|].
  reval. rdecide. rsqrt (3 / 10). lra.
Defined.
(** ** What an update leaves alone *)

(** Whatever depends neither on the world position, nor on the cached
    points and bounds, nor on the active set, is the same after the body
    of the pair loop, after the loop and after the update, completed or
    not. *)
Section KeptBySweep.

Variables (X : Type) (f : Collider -> X).
Hypothesis f_shape : forall c s, shape_class s = class c -> f (with_shape c s) = f c.
Hypothesis f_position : forall c v, f (with_worldPosition c v) = f c.
Hypothesis f_active : forall c s, f (with_activeCollisions c s) = f c.

Lemma kept_processPair (i j : nat) (st : CollisionSystem.Sweep) :
  i <> j ->
  map f (colliders (CollisionSystem.sw_world (outcome (CollisionSystem.processPair i j st))))
  = map f (colliders (CollisionSystem.sw_world st)).
Proof.
  intros Hij. unfold CollisionSystem.processPair.
  destruct (colliders (CollisionSystem.sw_world st) !! i) as [a|] eqn:Hi; [|reflexivity].
  destruct (colliders (CollisionSystem.sw_world st) !! j) as [b|] eqn:Hj; [|reflexivity].
  destruct (kept_checkCollision X f f_shape f_position
              (positions (CollisionSystem.sw_world st)) a b) as [Ha1 Hb1].
  destruct (CollisionSystem.checkCollision _ a b) as [[hit a1] b1]. simpl in Ha1, Hb1.
  assert (Hins : forall a' b', f a' = f a -> f b' = f b ->
            map f (<[j:=b']> (<[i:=a']> (colliders (CollisionSystem.sw_world st))))
            = map f (colliders (CollisionSystem.sw_world st))).
  { intros a' b' Ha' Hb'.
    rewrite (fmap_insert_same f _ j b b');
      [|rewrite list_lookup_insert_ne by exact Hij; exact Hj|exact Hb'].
    apply (fmap_insert_same f _ i a a'); assumption. }
  destruct hit; [|simpl; apply Hins; assumption].
  destruct (kept_getCollisionResponse X f f_shape f_position
              (positions (CollisionSystem.sw_world st)) a1 b1) as [Ha2 Hb2].
  destruct (CollisionSystem.getCollisionResponse _ a1 b1) as [[resp a2] b2].
  simpl in Ha2, Hb2.
  destruct resp as [r|]; [|simpl; apply Hins; congruence].
  destruct (negb (set_has (id b1) (activeCollisions a1))); simpl;
    rewrite colliders_resolveCollision; simpl; apply Hins;
    rewrite ?f_active; congruence.
Qed.

Lemma kept_pairLoop (n : nat) (st : CollisionSystem.Sweep) :
  map f (colliders (CollisionSystem.sw_world
                      (outcome (CollisionSystem.pairLoop (CollisionSystem.pairs n) st))))
  = map f (colliders (CollisionSystem.sw_world st)).
Proof.
  apply (pairLoop_invariant
           (fun st' => map f (colliders (CollisionSystem.sw_world st'))
                       = map f (colliders (CollisionSystem.sw_world st))));
    [|reflexivity].
  intros i j st1 Hin H1. rewrite kept_processPair; [exact H1|].
  apply pairs_spec in Hin. lia.
Qed.

Lemma kept_update (w : World) :
  map f (colliders (outcome (CollisionSystem.update w)).1) = map f (colliders w).
Proof.
  unfold CollisionSystem.update.
  set (cs0 := map (CollisionSystem.updateWorldPosition (positions w)) (colliders w)).
  set (st0 := CollisionSystem.mkSweep _ _ _).
  assert (H0 : map f cs0 = map f (colliders w)).
  { unfold cs0. rewrite <- list_fmap_compose. apply list_fmap_ext.
    intros k c _. apply (kept_updateWorldPosition X f f_shape f_position). }
  pose proof (kept_pairLoop (length cs0) st0) as H1.
  destruct (CollisionSystem.pairLoop _ st0) as [st|st]; simpl in *.
  - rewrite exitPass_map. simpl. rewrite <- H0, <- H1.
    rewrite <- list_fmap_compose. apply list_fmap_ext.
    intros k c _. apply f_active.
  - rewrite H1. exact H0.
Qed.

End KeptBySweep.

(** X12. An update, whether it completes or stops at a TypeError, keeps
    the registry as it is in all that the owners set: the same colliders
    in the same order, each with its id, class, layer, mask, flags,
    parent, offset and callbacks.  It writes only world positions, cached
    points and bounds, active sets and the positions of parents. *)
Theorem update_keeps_settings (w : World) :
  map settings (colliders (outcome (CollisionSystem.update w)).1)
  = map settings (colliders w).
Proof.
  apply kept_update.
  - intros c s Hs. unfold settings, class in *. simpl. rewrite Hs. reflexivity.
  - reflexivity.
  - reflexivity.
Qed.

Lemma resolveCollision_static (a b : Collider) (r : Response) (w : World) :
  isStatic a = true \/ isTrigger a = true ->
  isStatic b = true \/ isTrigger b = true ->
  CollisionSystem.resolveCollision a b r w = w.
Proof.
  unfold CollisionSystem.resolveCollision.
  destruct (isTrigger a), (isTrigger b), (isStatic a), (isStatic b); simpl;
    intros [?|?] [?|?]; try discriminate; reflexivity.
Qed.

Lemma processPair_static (i j : nat) (st : CollisionSystem.Sweep) :
  Forall (fun c => isStatic c = true \/ isTrigger c = true)
    (colliders (CollisionSystem.sw_world st)) ->
  positions (CollisionSystem.sw_world (outcome (CollisionSystem.processPair i j st)))
  = positions (CollisionSystem.sw_world st).
Proof.
  intros Hall. unfold CollisionSystem.processPair.
  destruct (colliders (CollisionSystem.sw_world st) !! i) as [a|] eqn:Hi; [|reflexivity].
  destruct (colliders (CollisionSystem.sw_world st) !! j) as [b|] eqn:Hj; [|reflexivity].
  pose proof (Forall_lookup_1 _ _ _ _ Hall Hi) as Qa.
  pose proof (Forall_lookup_1 _ _ _ _ Hall Hj) as Qb. simpl in Qa, Qb.
  destruct (kept_checkCollision _ (fun c => (isStatic c, isTrigger c))
              (fun _ _ _ => eq_refl) (fun _ _ => eq_refl)
              (positions (CollisionSystem.sw_world st)) a b) as [Ha1 Hb1].
  destruct (CollisionSystem.checkCollision _ a b) as [[hit a1] b1]. simpl in Ha1, Hb1.
  destruct hit; [|reflexivity].
  destruct (kept_getCollisionResponse _ (fun c => (isStatic c, isTrigger c))
              (fun _ _ _ => eq_refl) (fun _ _ => eq_refl)
              (positions (CollisionSystem.sw_world st)) a1 b1) as [Ha2 Hb2].
  destruct (CollisionSystem.getCollisionResponse _ a1 b1) as [[resp a2] b2].
  simpl in Ha2, Hb2.
  assert (Qa2 : isStatic a2 = true \/ isTrigger a2 = true)
    by (injection Ha1; injection Ha2; intros; destruct Qa; [left|right]; congruence).
  assert (Qb2 : isStatic b2 = true \/ isTrigger b2 = true)
    by (injection Hb1; injection Hb2; intros; destruct Qb; [left|right]; congruence).
  destruct resp as [r|]; [|reflexivity].
  destruct (negb (set_has (id b1) (activeCollisions a1))); simpl;
    rewrite resolveCollision_static; try reflexivity; assumption.
Qed.

(** X13. In a world where every collider is static or a trigger an update
    moves nothing: the position of every parent is the same after it,
    whatever overlaps it found. *)
Theorem static_world_never_moves (w : World) :
  Forall (fun c => isStatic c = true \/ isTrigger c = true) (colliders w) ->
  positions (outcome (CollisionSystem.update w)).1 = positions w.
Proof.
  intros Hall. unfold CollisionSystem.update.
  set (cs0 := map (CollisionSystem.updateWorldPosition (positions w)) (colliders w)).
  set (st0 := CollisionSystem.mkSweep _ _ _).
  assert (Htransfer : forall cs cs',
    map (fun c => (isStatic c, isTrigger c)) cs' = map (fun c => (isStatic c, isTrigger c)) cs ->
    Forall (fun c => isStatic c = true \/ isTrigger c = true) cs ->
    Forall (fun c => isStatic c = true \/ isTrigger c = true) cs').
  { intros cs. induction cs as [|c cs IH]; intros [|c' cs'] Heq H; try discriminate;
      [constructor|].
    simpl in Heq. injection Heq as Hs Ht Heq.
    apply Forall_cons in H as [Hc H].
    constructor; [|apply IH; assumption].
    destruct Hc; [left|right]; congruence. }
  assert (H0 : Forall (fun c => isStatic c = true \/ isTrigger c = true) cs0).
  { apply (Htransfer (colliders w)); [|exact Hall].
    unfold cs0. rewrite <- list_fmap_compose. apply list_fmap_ext.
    intros k c _.
    apply (kept_updateWorldPosition _ (fun c => (isStatic c, isTrigger c))
             (fun _ _ _ => eq_refl) (fun _ _ => eq_refl)). }
  pose proof (pairLoop_invariant
    (fun st => positions (CollisionSystem.sw_world st) = positions w /\
               Forall (fun c => isStatic c = true \/ isTrigger c = true)
                 (colliders (CollisionSystem.sw_world st)))
    (CollisionSystem.pairs (length cs0))) as Hinv.
  destruct (Hinv) with (st := st0) as [Hpos _].
  - intros i j st Hin [Hp Hq]. split.
    + rewrite processPair_static; assumption.
    + apply (Htransfer (colliders (CollisionSystem.sw_world st))); [|exact Hq].
      apply kept_processPair; try reflexivity.
      apply pairs_spec in Hin. lia.
  - split; [reflexivity|exact H0].
  - destruct (CollisionSystem.pairLoop _ st0) as [st|st]; simpl in *.
    + destruct (CollisionSystem.exitPass _ _ _). simpl. exact Hpos.
    + exact Hpos.
Qed.

Lemma static_world_never_moves_witness :
  positions (outcome (CollisionSystem.update inContact)).1 = positions inContact.
Proof.
  apply (static_world_never_moves inContact).
  repeat constructor.
Defined.
(** ** Callbacks respect the layer filter *)

Lemma canCollideWith_sym (a b : Collider) :
  ColliderBase.canCollideWith a b = ColliderBase.canCollideWith b a.
Proof.
  unfold ColliderBase.canCollideWith.
  rewrite (orb_comm (negb (enabled a))), (Nat.eqb_sym (self a)).
  destruct (negb (enabled b) || negb (enabled a)); [reflexivity|].
  destruct (Nat.eqb (self b) (self a)); [reflexivity|].
  apply andb_comm.
Qed.

Lemma canCollideWith_settings (a b a' b' : Collider) :
  settings a' = settings a -> settings b' = settings b ->
  ColliderBase.canCollideWith a' b' = ColliderBase.canCollideWith a b.
Proof.
  unfold settings, ColliderBase.canCollideWith. intros Ha Hb.
  injection Ha as Hsa _ _ Hla Hma _ _ Hea _ _ _ _ _.
  injection Hb as Hsb _ _ Hlb Hmb _ _ Heb _ _ _ _ _.
  rewrite Hsa, Hla, Hma, Hea, Hsb, Hlb, Hmb, Heb. reflexivity.
Qed.

Lemma checkCollision_canCollideWith (T : Scene) (a b : Collider) :
  (CollisionSystem.checkCollision T a b).1.1 = true ->
  ColliderBase.canCollideWith a b = true.
Proof.
  unfold CollisionSystem.checkCollision.
  destruct (ColliderBase.canCollideWith a b); [reflexivity|]. simpl. discriminate.
Qed.

Lemma settings_lookup (cs cs' : list Collider) (i : nat) (c : Collider) :
  map settings cs = map settings cs' ->
  cs !! i = Some c ->
  exists c', cs' !! i = Some c' /\ settings c' = settings c.
Proof.
  intros Heq Hi.
  assert (H : map settings cs' !! i = Some (settings c)).
  { rewrite <- Heq. change (map settings cs) with (settings <$> cs).
    rewrite list_lookup_fmap, Hi. reflexivity. }
  change (map settings cs') with (settings <$> cs') in H.
  rewrite list_lookup_fmap in H.
  destruct (cs' !! i) as [c'|]; [|discriminate].
  exists c'. split; [reflexivity|].
  exact (f_equal (fun o => match o with Some x => x | None => settings c end) H).
Qed.

Lemma settings_id (c c' : Collider) : settings c' = settings c -> id c' = id c.
Proof. unfold settings. intros H. injection H. auto. Qed.

(** X14. Whatever an update invokes other than [onCollisionExit], it
    invokes between two registered colliders that can collide with each
    other: both enabled, not the same object, the mask of each letting in
    the layer of the other.  A disabled collider, or a pair that the
    layers filter out in either sense, gets no [onCollisionEnter] and no
    [onCollisionStay]. *)
Theorem callbacks_respect_filter (w : World) (e : Event) :
  e ∈ (outcome (CollisionSystem.update w)).2 ->
  kind e <> Exit ->
  exists a b,
    a ∈ colliders w /\ b ∈ colliders w /\
    receiver e = id a /\ partner e = id b /\
    ColliderBase.canCollideWith a b = true.
Proof.
  set (Good := fun e : Event =>
    kind e <> Exit ->
    exists a b,
      a ∈ colliders w /\ b ∈ colliders w /\
      receiver e = id a /\ partner e = id b /\
      ColliderBase.canCollideWith a b = true).
  intros He. fold (Good e). revert e He. apply Forall_forall.
  unfold CollisionSystem.update.
  set (cs0 := map (CollisionSystem.updateWorldPosition (positions w)) (colliders w)).
  set (st0 := CollisionSystem.mkSweep _ _ _).
  assert (Hs0 : map settings cs0 = map settings (colliders w)).
  { unfold cs0. rewrite <- list_fmap_compose. apply list_fmap_ext.
    intros k c _. apply (kept_updateWorldPosition _ settings); [|reflexivity].
    intros c0 s Hs. unfold settings, class in *. simpl. rewrite Hs. reflexivity. }
  assert (Hkept : forall i j st, i <> j ->
    map settings (colliders (CollisionSystem.sw_world
                               (outcome (CollisionSystem.processPair i j st))))
    = map settings (colliders (CollisionSystem.sw_world st))).
  { intros i j st Hij. apply kept_processPair; [|reflexivity|reflexivity|exact Hij].
    intros c0 s Hs. unfold settings, class in *. simpl. rewrite Hs. reflexivity. }
  pose proof (pairLoop_invariant
    (fun st => Forall Good (CollisionSystem.fired st) /\
               map settings (colliders (CollisionSystem.sw_world st))
               = map settings (colliders w))
    (CollisionSystem.pairs (length cs0))) as Hinv.
  destruct Hinv with (st := st0) as [Hev _].
  - intros i j st Hin [Hgood Hset].
    assert (Hij : i <> j) by (apply pairs_spec in Hin; lia).
    split; [|rewrite Hkept by exact Hij; exact Hset].
    destruct (colliders (CollisionSystem.sw_world st) !! i) as [a|] eqn:Hi;
      [|rewrite processPair_out_of_range by (left; exact Hi); exact Hgood].
    destruct (colliders (CollisionSystem.sw_world st) !! j) as [b|] eqn:Hj;
      [|rewrite processPair_out_of_range by (right; exact Hj); exact Hgood].
    pose proof (processPair_outcome i j st a b Hij Hi Hj) as Ho.
    assert (Hnew : forall k,
      (CollisionSystem.checkCollision (positions (CollisionSystem.sw_world st)) a b).1.1
      = true ->
      (receiver k = id a /\ partner k = id b) \/ (receiver k = id b /\ partner k = id a) ->
      Good k).
    { intros k Hhit Hk _.
      apply checkCollision_canCollideWith in Hhit.
      destruct (settings_lookup _ _ i a Hset Hi) as (a0 & Ha0 & Hsa).
      destruct (settings_lookup _ _ j b Hset Hj) as (b0 & Hb0 & Hsb).
      pose proof (canCollideWith_settings a b a0 b0 Hsa Hsb) as Hcan.
      apply list_elem_of_lookup_2 in Ha0, Hb0.
      pose proof (settings_id _ _ Hsa). pose proof (settings_id _ _ Hsb).
      destruct Hk as [[Hr Hp]|[Hr Hp]].
      - exists a0, b0. repeat split; congruence.
      - exists b0, a0. repeat split; try congruence.
        rewrite canCollideWith_sym. congruence. }
    inversion Ho as [st' Hb' Hc Hf Hh Heq|st' Hb' Hc Hf Hh Heq
                    |st' r Hwas Hb' Hc Hf Hh Heq|st' r Hwas Hb' Hc Hf Hh Heq];
      simpl; rewrite Hf; try exact Hgood.
    + apply Forall_app. split; [exact Hgood|].
      apply Forall_forall. intros k Hk.
      apply elem_of_app in Hk as [Hk|Hk]; apply fire_spec in Hk; subst k;
        apply Hnew; simpl; auto.
    + apply Forall_app. split; [exact Hgood|].
      apply Forall_forall. intros k Hk.
      apply elem_of_app in Hk as [Hk|Hk]; apply fire_spec in Hk; subst k;
        apply Hnew; simpl; auto.
  - split; [constructor|exact Hs0].
  - destruct (CollisionSystem.pairLoop _ st0) as [st|st]; simpl in *; [|exact Hev].
    rewrite exitPass_map. simpl.
    apply Forall_app. split; [exact Hev|].
    apply Forall_concat, Forall_fmap, Forall_forall. intros c _. simpl.
    eapply Forall_impl; [apply exitScan_events|]. cbv beta.
    intros k (_ & _ & Hk) Hne. contradiction.
Qed.

Lemma callbacks_respect_filter_witness :
  exists a b,
    a ∈ colliders beforeContact /\ b ∈ colliders beforeContact /\
    "P" = id a /\ "R" = id b /\
    ColliderBase.canCollideWith a b = true.
Proof.
  assert (Hup : exists r rest,
            (outcome (CollisionSystem.update beforeContact)).2
            = CollisionEnter "P" "R" r :: rest).
  { reval. rdecide. rsqrt 1. rdecide. eexists. eexists. reflexivity. }
  destruct Hup as (r & rest & Hup).
  apply (callbacks_respect_filter beforeContact (CollisionEnter "P" "R" r)).
  - rewrite Hup. left.
  - discriminate.
Defined.
(** ** The pair test does not depend on the order of the pair *)

Lemma shape_updateWorldPosition (T : Scene) (c : Collider) :
  class c <> KCylinder ->
  CollisionSystem.updateWorldPosition T c = ColliderBase.updateWorldPosition T c /\
  shape (ColliderBase.updateWorldPosition T c) = shape c.
Proof.
  intros Hc. split; [|apply class_base_updateWorldPosition].
  unfold CollisionSystem.updateWorldPosition. unfold class in Hc.
  destruct (shape c); try reflexivity. exfalso. apply Hc. reflexivity.
Qed.

(** X15. With no CylinderCollider involved, [checkCollision] answers the
    same for a pair in either order (two capsules taken to have axes
    longer than 0.01): it does not matter which of two colliders was
    registered first. *)
Theorem checkCollision_symmetric (T : Scene) (a b : Collider) :
  class a <> KCylinder -> class b <> KCylinder ->
  (class a = KCapsule -> class b = KCapsule ->
   1 / 100 < axis_length a /\ 1 / 100 < axis_length b) ->
  (CollisionSystem.checkCollision T a b).1.1 = (CollisionSystem.checkCollision T b a).1.1.
Proof.
  intros Hca Hcb Hlong.
  unfold CollisionSystem.checkCollision.
  rewrite (canCollideWith_sym b a).
  destruct (negb (ColliderBase.canCollideWith a b)); [reflexivity|]. cbv zeta.
  destruct (shape_updateWorldPosition T a Hca) as [-> Hsa].
  destruct (shape_updateWorldPosition T b Hcb) as [-> Hsb].
  set (a' := ColliderBase.updateWorldPosition T a) in *.
  set (b' := ColliderBase.updateWorldPosition T b) in *.
  unfold CollisionSystem.tagged, type. rewrite Hsa, Hsb.
  unfold class in Hca, Hcb, Hlong. unfold axis_length in Hlong.
  destruct (shape a) as [ra|sa mna mxa|ra ha pa1 pa2|] eqn:Ea;
    [| | |exfalso; apply Hca; reflexivity];
  (destruct (shape b) as [rb|sb mnb mxb|rb hb pb1 pb2|] eqn:Eb;
    [| | |exfalso; apply Hcb; reflexivity]); simpl.
  - unfold CollisionSystem.call_intersectsSphere. rewrite Hsa, Hsb. simpl.
    unfold SphereCollider.intersectsSphere, as_sphere. simpl.
    rewrite (distanceTo_sym (worldPosition b')), (Rplus_comm (radius b')). reflexivity.
  - destruct (CollisionSystem.call_intersectsSphere _ _); reflexivity.
  - destruct (CollisionSystem.call_intersectsSphere _ _); reflexivity.
  - destruct (CollisionSystem.call_intersectsSphere _ _); reflexivity.
  - unfold BoxCollider.intersectsBox. simpl.
    apply eq_true_iff_eq. unfold num_le, num_ge.
    rewrite !andb_true_iff, !bool_decide_eq_true.
    split; intros (((((H1 & H2) & H3) & H4) & H5) & H6); repeat split; lra.
  - destruct (CollisionSystem.call_intersectsSphere _ _); reflexivity.
  - destruct (CollisionSystem.call_intersectsSphere _ _); reflexivity.
  - destruct (CollisionSystem.call_intersectsSphere _ _); reflexivity.
  - destruct (Hlong eq_refl eq_refl) as [Hla Hlb].
    apply (intersectsCapsule_sym a' b' ra ha rb hb pa1 pa2 pb1 pb2 Hsa Hsb Hla Hlb).
Qed.

Lemma checkCollision_symmetric_witness :
  (CollisionSystem.checkCollision (fun _ => Vector3.zero) boxLeft sphereA).1.1
  = (CollisionSystem.checkCollision (fun _ => Vector3.zero) sphereA boxLeft).1.1.
Proof.
  apply (checkCollision_symmetric (fun _ => Vector3.zero) boxLeft sphereA);
    [discriminate|discriminate|].
  intros H. discriminate.
Defined.
(** ** overlapSphere *)

Section KeptByQueries.

Variables (X : Type) (f : Collider -> X).
Hypothesis f_shape : forall c s, shape_class s = class c -> f (with_shape c s) = f c.
Hypothesis f_position : forall c v, f (with_worldPosition c v) = f c.

Lemma kept_overlapVisit (T : Scene) (center : Vector3.t) (rad : R) (m : N) (c : Collider) :
  f (CollisionSystem.overlapVisit T center rad m c).1 = f c.
Proof.
  unfold CollisionSystem.overlapVisit.
  destruct (negb (enabled c)); [reflexivity|].
  destruct (N.eqb _ 0); [reflexivity|]. simpl.
  apply (kept_updateWorldPosition X f f_shape f_position).
Qed.

Lemma kept_raycastVisit `{THREE.Ray} (T : Scene) (origin direction : Vector3.t)
    (maxDistance : option R) (m : N) (c : Collider) :
  f (CollisionSystem.raycastVisit T origin direction maxDistance m c).1 = f c.
Proof.
  unfold CollisionSystem.raycastVisit.
  destruct (negb (enabled c)); [reflexivity|].
  destruct (N.eqb _ 0); [reflexivity|].
  pose proof (kept_updateWorldPosition X f f_shape f_position T c) as Hc.
  set (c' := CollisionSystem.updateWorldPosition T c) in *.
  pose proof (kept_updateBounds X f f_shape c') as Hb.
  destruct (CollisionSystem.tagged c' SPHERE).
  - destruct (THREE.intersectSphere _ _ _ _); [|exact Hc].
    destruct (CollisionSystem.within _ _); exact Hc.
  - destruct (CollisionSystem.tagged c' BOX).
    + destruct (THREE.intersectBox _ _ _ _); [|simpl; congruence].
      destruct (CollisionSystem.within _ _); simpl; congruence.
    + exact Hc.
Qed.

End KeptByQueries.

(** What [overlapSphere] asks of a collider, as the call leaves it. *)
Lemma overlapVisit_found (T : Scene) (center : Vector3.t) (rad : R) (m : N) (c : Collider) :
  let v := CollisionSystem.overlapVisit T center rad m c in
  v.2 = (enabled v.1 && negb (N.eqb (N.land (layer v.1) m) 0)
         && num_le (Vector3.distanceTo center (worldPosition v.1)) (rad + radius v.1)).
Proof.
  unfold CollisionSystem.overlapVisit.
  destruct (enabled c) eqn:He; simpl; [|rewrite He; reflexivity].
  destruct (N.eqb (N.land (layer c) m) 0) eqn:Hm; simpl.
  - rewrite He, Hm. reflexivity.
  - rewrite (kept_updateWorldPosition _ enabled (fun _ _ _ => eq_refl) (fun _ _ => eq_refl)).
    rewrite (kept_updateWorldPosition _ layer (fun _ _ _ => eq_refl) (fun _ _ => eq_refl)).
    rewrite He, Hm. simpl.
    unfold num_or. destruct (num_eq _ 0) eqn:E; [|reflexivity].
    unfold num_eq in E. apply bool_decide_eq_true_1 in E. rewrite E. reflexivity.
Qed.

(** What [overlapSphere] returns and the world it leaves, written out. *)
Lemma overlapSphere_spec (w : World) (center : Vector3.t) (rad : R) (layerMask : option N) :
  let m := object_or layerMask CollisionLayer.ALL in
  let asked := fun c => enabled c && negb (N.eqb (N.land (layer c) m) 0) in
  let refreshed :=
    map (fun c => if asked c then CollisionSystem.updateWorldPosition (positions w) c else c)
      (colliders w) in
  CollisionSystem.overlapSphere w center rad layerMask
  = (filter (fun c => asked c
                      && num_le (Vector3.distanceTo center (worldPosition c)) (rad + radius c)
                      = true) refreshed,
     mkWorld refreshed (positions w)).
Proof.
  intros m asked refreshed. unfold CollisionSystem.overlapSphere. fold m. cbv zeta.
  assert (Hc : map fst (map (CollisionSystem.overlapVisit (positions w) center rad m)
                          (colliders w)) = refreshed).
  { unfold refreshed. change (map fst (map ?g ?l)) with (fst <$> (g <$> l)).
    rewrite <- list_fmap_compose. apply list_fmap_ext. intros k c _. simpl.
    unfold CollisionSystem.overlapVisit, asked.
    destruct (enabled c); [|reflexivity]. simpl.
    destruct (N.eqb _ 0); reflexivity. }
  f_equal; [|f_equal; exact Hc].
  rewrite <- Hc. clear Hc refreshed.
  induction (colliders w) as [|c cs IH]; [reflexivity|].
  simpl. rewrite !filter_cons.
  pose proof (overlapVisit_found (positions w) center rad m c) as Hv. cbv zeta in Hv.
  unfold asked. rewrite <- Hv. simpl.
  destruct (decide ((CollisionSystem.overlapVisit (positions w) center rad m c).2 = true));
    simpl; rewrite IH; reflexivity.
Qed.

(** X16. [overlapSphere] returns, in the order of registration, exactly
    the colliders that are enabled, have a layer on the mask, and whose
    centre is no farther from the centre of the query than the radius of
    the query plus their own radius, contact included.  A box counts as
    its centre alone, and of a capsule or cylinder only the radius counts;
    the colliders visited have their world position refreshed, and
    nothing else in the world changes. *)
Theorem overlapSphere_finds (w : World) (center : Vector3.t) (rad : R) (layerMask : option N) :
  let m := object_or layerMask CollisionLayer.ALL in
  let '(found, w') := CollisionSystem.overlapSphere w center rad layerMask in
  found
  = filter (fun c => enabled c && negb (N.eqb (N.land (layer c) m) 0)
                     && num_le (Vector3.distanceTo center (worldPosition c)) (rad + radius c)
                     = true) (colliders w') /\
  colliders w'
  = map (fun c => if enabled c && negb (N.eqb (N.land (layer c) m) 0)
                  then CollisionSystem.updateWorldPosition (positions w) c else c)
      (colliders w) /\
  positions w' = positions w.
Proof.
  intros m. rewrite (overlapSphere_spec w center rad layerMask). cbv zeta. fold m.
  repeat split.
Qed.

Lemma sublist_filter_impl {A : Type} (P Q : A -> Prop)
    `{forall x, Decision (P x)} `{forall x, Decision (Q x)} (l : list A) :
  (forall x, P x -> Q x) -> filter P l `sublist_of` filter Q l.
Proof.
  intros Himp. induction l as [|x l IH]; [constructor|].
  rewrite !filter_cons.
  destruct (decide (P x)) as [HP|HP].
  - destruct (decide (Q x)) as [HQ|HQ]; [constructor; exact IH|].
    exfalso. apply HQ, Himp, HP.
  - destruct (decide (Q x)); [constructor|]; exact IH.
Qed.

(** X17. A larger query finds no less: with the same centre and mask,
    what [overlapSphere] returns for a radius is, in order, among what it
    returns for any larger radius; and the world it leaves is the same. *)
Theorem overlapSphere_monotone (w : World) (center : Vector3.t) (rad rad' : R)
    (layerMask : option N) :
  rad <= rad' ->
  (CollisionSystem.overlapSphere w center rad layerMask).1
    `sublist_of` (CollisionSystem.overlapSphere w center rad' layerMask).1 /\
  (CollisionSystem.overlapSphere w center rad layerMask).2
  = (CollisionSystem.overlapSphere w center rad' layerMask).2.
Proof.
  intros Hle. rewrite !overlapSphere_spec. cbv zeta. simpl.
  split; [|reflexivity].
  apply sublist_filter_impl. intros c Hc.
  apply andb_true_iff in Hc as [Hc Hd]. apply andb_true_iff. split; [exact Hc|].
  unfold num_le in *. apply bool_decide_eq_true_1 in Hd. apply bool_decide_eq_true_2. lra.
Qed.

Lemma overlapSphere_monotone_witness :
  (CollisionSystem.overlapSphere world0 Vector3.zero 1 None).1
    `sublist_of` (CollisionSystem.overlapSphere world0 Vector3.zero 2 None).1 /\
  (CollisionSystem.overlapSphere world0 Vector3.zero 1 None).2
  = (CollisionSystem.overlapSphere world0 Vector3.zero 2 None).2.
Proof. apply (overlapSphere_monotone world0 Vector3.zero 1 2 None). lra. Defined.

Lemma canCollideWith_true (a b : Collider) :
  ColliderBase.canCollideWith a b = true ->
  enabled a = true /\ enabled b = true /\ self a <> self b /\
  N.land (collidesWithMask a) (layer b) <> 0%N /\
  N.land (collidesWithMask b) (layer a) <> 0%N.
Proof.
  unfold ColliderBase.canCollideWith.
  destruct (enabled a), (enabled b); simpl; try discriminate.
  destruct (Nat.eqb (self a) (self b)) eqn:Hs; [discriminate|].
  apply Nat.eqb_neq in Hs. intros H. apply andb_true_iff in H as [H1 H2].
  apply negb_true_iff in H1, H2. apply N.eqb_neq in H1, H2. tauto.
Qed.

(** X18. [overlapSphere] agrees with the pair test on spheres: a sphere
    collider of the registry that [checkCollision] reports against a
    probe sphere is among what [overlapSphere] returns for the centre,
    the radius and the mask of the probe. *)
Theorem overlapSphere_covers_sphere_test (w : World) (probe c : Collider) (rp rc : R) :
  shape probe = SphereShape rp ->
  shape c = SphereShape rc ->
  c ∈ colliders w ->
  (CollisionSystem.checkCollision (positions w) probe c).1.1 = true ->
  CollisionSystem.updateWorldPosition (positions w) c
  ∈ (CollisionSystem.overlapSphere w
       (worldPosition (CollisionSystem.updateWorldPosition (positions w) probe)) rp
       (Some (collidesWithMask probe))).1.
Proof.
  intros Hp Hc Hin Hhit.
  pose proof (checkCollision_canCollideWith _ _ _ Hhit) as Hcan.
  rewrite (checkCollision_spheres (positions w) probe c rp rc Hp Hc Hcan) in Hhit.
  apply bool_decide_eq_true_1 in Hhit. rewrite <- distanceTo_euclidean in Hhit.
  apply canCollideWith_true in Hcan as (_ & Hen & _ & Hmask & _).
  rewrite N.land_comm in Hmask. apply N.eqb_neq in Hmask.
  destruct (sphere_updateWorldPosition (positions w) probe rp Hp) as [Ep _].
  destruct (sphere_updateWorldPosition (positions w) c rc Hc) as [Ec Hc'].
  set (center := worldPosition (CollisionSystem.updateWorldPosition (positions w) probe)).
  rewrite (overlapSphere_spec w center rp (Some (collidesWithMask probe))). cbv zeta. simpl.
  apply list_elem_of_filter. split.
  - rewrite (kept_updateWorldPosition _ enabled (fun _ _ _ => eq_refl) (fun _ _ => eq_refl)).
    rewrite (kept_updateWorldPosition _ layer (fun _ _ _ => eq_refl) (fun _ _ => eq_refl)).
    rewrite Hen, Hmask. simpl.
    apply num_le_true. unfold center. rewrite Ep, Ec.
    unfold radius. rewrite Hc'. lra.
  - change (map ?g ?l) with (g <$> l). apply list_elem_of_fmap.
    exists c. split; [|exact Hin]. rewrite Hen, Hmask. reflexivity.
Qed.

Lemma overlapSphere_covers_sphere_test_witness :
  CollisionSystem.updateWorldPosition (positions beforeContact) removedR
  ∈ (CollisionSystem.overlapSphere beforeContact
       (worldPosition (CollisionSystem.updateWorldPosition (positions beforeContact) partnerP))
       1 (Some (collidesWithMask partnerP))).1.
Proof.
  apply (overlapSphere_covers_sphere_test beforeContact partnerP removedR 1 1);
    [reflexivity|reflexivity|right; left|].
  reval. rdecide. reflexivity.
Defined.
(** ** raycast *)

Lemma sortInsert_Permutation (h : CollisionSystem.RayHit) (l : list CollisionSystem.RayHit) :
  CollisionSystem.sortInsert h l ≡ₚ h :: l.
Proof.
  induction l as [|h' l IH]; simpl; [reflexivity|].
  destruct (num_le _ _); [reflexivity|].
  rewrite IH. apply Permutation_swap.
Qed.

Lemma sort_Permutation (l : list CollisionSystem.RayHit) : CollisionSystem.sort l ≡ₚ l.
Proof.
  induction l as [|h l IH]; simpl; [reflexivity|].
  rewrite sortInsert_Permutation, IH. reflexivity.
Qed.

Lemma sortInsert_sorted (h : CollisionSystem.RayHit) (l : list CollisionSystem.RayHit) :
  StronglySorted (fun a b => CollisionSystem.distance a <= CollisionSystem.distance b) l ->
  StronglySorted (fun a b => CollisionSystem.distance a <= CollisionSystem.distance b)
    (CollisionSystem.sortInsert h l).
Proof.
  induction l as [|h' l IH]; intros Hs; simpl.
  - constructor; constructor.
  - apply StronglySorted_inv in Hs as [Hs Hall].
    destruct (num_le _ _) eqn:Hle.
    + unfold num_le in Hle. apply bool_decide_eq_true_1 in Hle.
      constructor; [constructor; assumption|].
      constructor; [exact Hle|].
      eapply Forall_impl; [exact Hall|]. cbv beta. intros x Hx. lra.
    + unfold num_le in Hle. apply bool_decide_eq_false_1 in Hle.
      constructor; [apply IH, Hs|].
      rewrite sortInsert_Permutation. constructor; [lra|exact Hall].
Qed.

Lemma sort_sorted (l : list CollisionSystem.RayHit) :
  StronglySorted (fun a b => CollisionSystem.distance a <= CollisionSystem.distance b)
    (CollisionSystem.sort l).
Proof.
  induction l as [|h l IH]; simpl; [constructor|]. apply sortInsert_sorted, IH.
Qed.

Lemma radius_updateWorldPosition (T : Scene) (c : Collider) :
  radius (CollisionSystem.updateWorldPosition T c) = radius c.
Proof.
  unfold CollisionSystem.updateWorldPosition, CylinderCollider.updateWorldPosition,
    ColliderBase.updateWorldPosition, radius.
  destruct c as [? ? [] ? ? ? ? ? [] ? ? ? ? ? ?]; reflexivity.
Qed.

Lemma type_updateWorldPosition (T : Scene) (c : Collider) :
  type (CollisionSystem.updateWorldPosition T c) = type c.
Proof.
  pose proof (class_updateWorldPosition T c) as H. unfold type, class in *.
  destruct (shape (CollisionSystem.updateWorldPosition T c)), (shape c);
    simpl in *; try discriminate; reflexivity.
Qed.

Lemma type_class (c c' : Collider) : class c' = class c -> type c' = type c.
Proof.
  unfold type, class. destruct (shape c'), (shape c); simpl; intros; try discriminate;
    reflexivity.
Qed.

(** What an entry pushed by the loop of [raycast] is. *)
Lemma raycastVisit_hit `{THREE.Ray} (T : Scene) (origin direction : Vector3.t)
    (maxDistance : option R) (m : N) (c : Collider) (h : CollisionSystem.RayHit) :
  (CollisionSystem.raycastVisit T origin direction maxDistance m c).2 = Some h ->
  let c' := CollisionSystem.collider h in
  c' = (CollisionSystem.raycastVisit T origin direction maxDistance m c).1 /\
  enabled c' = true /\ N.land (layer c') m <> 0%N /\ class c' <> KCapsule /\
  CollisionSystem.distance h = Vector3.distanceTo origin (CollisionSystem.point h) /\
  CollisionSystem.within (CollisionSystem.distance h) maxDistance = true /\
  (type c' = SPHERE ->
   THREE.intersectSphere origin direction (worldPosition c') (radius c')
   = Some (CollisionSystem.point h)) /\
  (type c' = BOX ->
   THREE.intersectBox origin direction (bounds_min c') (bounds_max c')
   = Some (CollisionSystem.point h)).
Proof.
  unfold CollisionSystem.raycastVisit.
  destruct (enabled c) eqn:He; simpl; [|discriminate].
  destruct (N.eqb _ 0) eqn:Hm; [discriminate|]. apply N.eqb_neq in Hm.
  pose proof (kept_updateWorldPosition _ (fun c => (enabled c, layer c, class c))
                ltac:(intros c0 s Hs; unfold class in *; simpl; rewrite Hs; reflexivity)
                (fun _ _ => eq_refl) T c) as Hk.
  set (c1 := CollisionSystem.updateWorldPosition T c) in *.
  pose proof (kept_updateBounds _ (fun c => (enabled c, layer c, class c))
                ltac:(intros c0 s Hs; unfold class in *; simpl; rewrite Hs; reflexivity)
                c1) as Hk2.
  simpl in Hk, Hk2.
  assert (Hc1 : enabled c1 = true /\ N.land (layer c1) m <> 0%N /\ class c1 = class c)
    by (injection Hk as -> -> ->; auto).
  assert (Hc2 : enabled (BoxCollider.updateBounds c1) = true /\
                N.land (layer (BoxCollider.updateBounds c1)) m <> 0%N /\
                class (BoxCollider.updateBounds c1) = class c1)
    by (injection Hk2 as -> -> ->; tauto).
  destruct Hc1 as (He1 & Hm1 & Hcl1). destruct Hc2 as (He2 & Hm2 & Hcl2).
  unfold CollisionSystem.tagged.
  destruct (bool_decide (type c1 = SPHERE)) eqn:Es.
  - apply bool_decide_eq_true_1 in Es.
    destruct (THREE.intersectSphere _ _ _ _) as [p|] eqn:Ei; [|discriminate].
    destruct (CollisionSystem.within _ _) eqn:Ew; [|discriminate].
    simpl. intros Hh. injection Hh as <-. simpl.
    repeat split; try assumption.
    + intros Hcap. unfold type, class in *. destruct (shape c1); simpl in *; discriminate.
    + intros _. exact Ei.
    + intros Hb. congruence.
  - apply bool_decide_eq_false_1 in Es.
    destruct (bool_decide (type c1 = BOX)) eqn:Eb; [|discriminate].
    apply bool_decide_eq_true_1 in Eb.
    destruct (THREE.intersectBox _ _ _ _) as [p|] eqn:Ei; [|discriminate].
    destruct (CollisionSystem.within _ _) eqn:Ew; [|discriminate].
    simpl. intros Hh. injection Hh as <-. simpl.
    pose proof (type_class _ _ Hcl2) as Hty2.
    repeat split; try assumption.
    + intros Hcap. unfold type, class in *.
      destruct (shape (BoxCollider.updateBounds c1)), (shape c1); simpl in *; discriminate.
    + intros Hsp. congruence.
    + intros _. exact Ei.
Qed.

(** X19. The entries [raycast] returns are sorted by distance, nearest
    first; each holds the distance from the origin to its point, which is
    not above [maxDistance]; and the caller's direction vector is left
    normalised. *)
Theorem raycast_sorted `{THREE.Ray} (w : World) (origin direction : Vector3.t)
    (maxDistance : option R) (layerMask : option N) :
  let '(hits, direction', w') :=
    CollisionSystem.raycast w origin direction maxDistance layerMask in
  StronglySorted (fun a b => CollisionSystem.distance a <= CollisionSystem.distance b) hits /\
  Forall (fun h =>
            CollisionSystem.distance h = Vector3.distanceTo origin (CollisionSystem.point h) /\
            match maxDistance with
            | Some most => CollisionSystem.distance h <= most
            | None => True
            end) hits /\
  direction' = Vector3.normalize direction.
Proof.
  unfold CollisionSystem.raycast. cbv zeta.
  split; [apply sort_sorted|]. split; [|reflexivity].
  rewrite sort_Permutation. apply Forall_forall. intros h Hh.
  apply list_elem_of_omap in Hh as (v & Hv & Hsome).
  apply list_elem_of_fmap in Hv as (c & -> & Hc).
  apply raycastVisit_hit in Hsome as (_ & _ & _ & _ & Hd & Hw & _).
  split; [exact Hd|].
  unfold CollisionSystem.within in Hw. destruct maxDistance; [|exact I].
  unfold num_le in Hw. apply bool_decide_eq_true_1 in Hw. exact Hw.
Qed.

(** X20. Whatever the ray, [raycast] reports only registered colliders
    that are enabled and have a layer on the mask, each at most once, and
    never a CapsuleCollider.  A collider tagged SPHERE, a CylinderCollider
    included, is reported where the ray meets the sphere of its radius
    about its centre; a box, where the ray meets its bounds. *)
Theorem raycast_reports `{THREE.Ray} (w : World) (origin direction : Vector3.t)
    (maxDistance : option R) (layerMask : option N) :
  let m := object_or layerMask CollisionLayer.ALL in
  let '(hits, direction', w') :=
    CollisionSystem.raycast w origin direction maxDistance layerMask in
  map CollisionSystem.collider hits ⊆+ colliders w' /\
  map settings (colliders w') = map settings (colliders w) /\
  Forall (fun h =>
            let c := CollisionSystem.collider h in
            enabled c = true /\ N.land (layer c) m <> 0%N /\ class c <> KCapsule /\
            (type c = SPHERE ->
             THREE.intersectSphere origin direction' (worldPosition c) (radius c)
             = Some (CollisionSystem.point h)) /\
            (type c = BOX ->
             THREE.intersectBox origin direction' (bounds_min c) (bounds_max c)
             = Some (CollisionSystem.point h))) hits.
Proof.
  intros m. unfold CollisionSystem.raycast. fold m. cbv zeta.
  set (visit := CollisionSystem.raycastVisit (positions w) origin
                  (Vector3.normalize direction) maxDistance m).
  assert (Hset : forall c, settings (visit c).1 = settings c).
  { intros c. apply kept_raycastVisit; [|reflexivity].
    intros c0 s Hs. unfold settings, class in *. simpl. rewrite Hs. reflexivity. }
  split; [|split].
  - simpl. rewrite sort_Permutation.
    apply sublist_submseteq.
    induction (colliders w) as [|c cs IH]; simpl; [constructor|].
    destruct ((visit c).2) as [h|] eqn:Eh; simpl.
    + apply raycastVisit_hit in Eh as (-> & _). constructor. exact IH.
    + constructor. exact IH.
  - simpl. induction (colliders w) as [|c cs IH]; simpl; [reflexivity|].
    rewrite Hset, IH. reflexivity.
  - rewrite sort_Permutation. apply Forall_forall. intros h Hh.
    apply list_elem_of_omap in Hh as (v & Hv & Hsome).
    apply list_elem_of_fmap in Hv as (c & -> & Hc).
    apply raycastVisit_hit in Hsome as (_ & He & Hm & Hcap & _ & _ & Hsph & Hbox).
    cbv zeta. repeat split; assumption.
Qed.
(** ** Every state the system can reach *)

Lemma get_NoDup (cs : list Collider) (c : Collider) :
  NoDup (map id cs) -> c ∈ cs -> CollisionSystem.get cs (id c) = Some c.
Proof.
  unfold CollisionSystem.get. induction cs as [|c' cs IH]; intros Hnd Hin.
  - apply elem_of_nil in Hin. contradiction.
  - simpl in *. apply NoDup_cons in Hnd as [Hnot Hnd].
    apply elem_of_cons in Hin as [->|Hin]; [rewrite String.eqb_refl; reflexivity|].
    destruct (String.eqb (id c') (id c)) eqn:E; [|apply IH; assumption].
    apply String.eqb_eq in E. exfalso. apply Hnot. rewrite E.
    apply list_elem_of_fmap. exists c. split; [reflexivity|exact Hin].
Qed.

Lemma Call_well_formed `{THREE.Ray} (w w' : World) :
  Call w w' -> well_formed w -> well_formed w'.
Proof.
  intros HC Hwf. destruct HC as [w w' HS|w origin direction maxDistance layerMask
                                |w center rad layerMask|w].
  - eapply Step_well_formed; eassumption.
  - unfold well_formed in *. unfold CollisionSystem.raycast. simpl.
    set (visit := CollisionSystem.raycastVisit _ _ _ _ _).
    assert (E : forall cs, map book (map fst (map visit cs)) = map book cs).
    { intros cs. induction cs as [|c cs IH]; simpl; [reflexivity|].
      rewrite IH. unfold visit.
      rewrite (kept_raycastVisit _ book book_with_shape book_with_worldPosition).
      reflexivity. }
    rewrite E. exact Hwf.
  - unfold well_formed in *. unfold CollisionSystem.overlapSphere. simpl.
    set (visit := CollisionSystem.overlapVisit _ _ _ _).
    assert (E : forall cs, map book (map fst (map visit cs)) = map book cs).
    { intros cs. induction cs as [|c cs IH]; simpl; [reflexivity|].
      rewrite IH. unfold visit.
      rewrite (kept_overlapVisit _ book book_with_shape book_with_worldPosition).
      reflexivity. }
    rewrite E. exact Hwf.
  - unfold well_formed, wf_books. simpl. split; constructor.
Qed.

(** X21. In every state the system reaches from its constructor by
    registrations of colliders in no contact, removals, updates, queries,
    [dispose] and edits by the owners that leave ids, active sets and
    callbacks alone: no two registered colliders have the same id,
    [getCollider] finds every registered collider under its own id, and no
    active set holds an id twice. *)
Theorem reachable_registry `{THREE.Ray} (T : Scene) (w : World) :
  rtc Call (CollisionSystem.constructor T) w ->
  NoDup (map id (colliders w)) /\
  (forall c, c ∈ colliders w -> CollisionSystem.getCollider w (id c) = Some c) /\
  Forall (fun c => NoDup (activeCollisions c)) (colliders w).
Proof.
  intros Hreach.
  assert (Hwf : well_formed w).
  { assert (H0 : well_formed (CollisionSystem.constructor T))
      by (unfold well_formed, wf_books; simpl; split; constructor).
    revert H0. induction Hreach as [|w0 w1 w2 H1 _ IH]; intros Hwf; [exact Hwf|].
    apply IH. eapply Call_well_formed; eassumption. }
  destruct Hwf as [Hnd Hall]. rewrite book_ids in Hnd.
  split; [exact Hnd|]. split.
  - intros c Hc. apply get_NoDup; assumption.
  - clear Hnd. induction (colliders w) as [|c cs IH]; [constructor|].
    simpl in Hall. apply Forall_cons in Hall as [[_ Hc] Hall].
    constructor; [exact Hc|apply IH, Hall].
Qed.

Lemma reachable_registry_witness :
  let ray := {| THREE.intersectSphere := fun _ _ _ _ => None;
                THREE.intersectBox := fun _ _ _ _ => None |} in
  let w := tick (CollisionSystem.addCollider
                   (CollisionSystem.addCollider
                      (CollisionSystem.constructor (fun _ => Vector3.zero)) sphereA).1.1
                   sphereB).1.1 in
  NoDup (map id (colliders w)) /\
  (forall c, c ∈ colliders w -> CollisionSystem.getCollider w (id c) = Some c) /\
  Forall (fun c => NoDup (activeCollisions c)) (colliders w).
Proof.
  intros ray w.
  apply (@reachable_registry ray (fun _ => Vector3.zero) w).
  eapply rtc_l; [apply call_step, (step_add _ sphereA); reflexivity|].
  eapply rtc_l; [apply call_step, (step_add _ sphereB); reflexivity|].
  eapply rtc_l; [apply call_step, step_tick|].
  apply rtc_refl.
Defined.
(** ** Resolution moves two overlapping capsules apart *)

Lemma num_or_zero (x : R) : num_or x 0 = x.
Proof.
  unfold num_or. destruct (num_eq x 0) eqn:E; [|reflexivity].
  unfold num_eq in E. apply bool_decide_eq_true_1 in E. congruence.
Qed.

(** However the push is shared between the two parents, the first moves
    by the whole push relative to the second. *)
Lemma resolveCollision_relative (a b : Collider) (r : Response) (w : World) (pa pb : nat) :
  parent a = Some pa -> parent b = Some pb -> pa <> pb ->
  isTrigger a = false -> isTrigger b = false ->
  isStatic a && isStatic b = false ->
  let T' := positions (CollisionSystem.resolveCollision a b r w) in
  exists sa sb,
    T' pa = Vector3.add (positions w pa) sa /\
    T' pb = Vector3.add (positions w pb) sb /\
    Vector3.subVectors sa sb = Vector3.multiplyScalar (direction r) (overlap r).
Proof.
  intros Hpa Hpb Hne Hta Htb Hst. unfold CollisionSystem.resolveCollision.
  rewrite Hta, Htb, Hst. simpl. rewrite Hpa, Hpb.
  assert (Hne' : pb <> pa) by congruence.
  set (push := Vector3.multiplyScalar (direction r) (overlap r)).
  destruct (isStatic a) eqn:Hsa; [|destruct (isStatic b) eqn:Hsb]; simpl;
    unfold CollisionSystem.position_add, CollisionSystem.position_sub;
    repeat first [ rewrite set_position_same
                 | rewrite (set_position_other _ _ _ _ Hne)
                 | rewrite (set_position_other _ _ _ _ Hne') ].
  - exists Vector3.zero, (Vector3.negate push).
    repeat split; apply vector3_eq; simpl; ring.
  - exists push, Vector3.zero.
    repeat split; apply vector3_eq; simpl; ring.
  - exists (Vector3.multiplyScalar push (1 / 2)),
      (Vector3.negate (Vector3.multiplyScalar push (1 / 2))).
    repeat split; apply vector3_eq; simpl; field.
Qed.

(** Two vertical axes moved apart along the line of their nearest points:
    every pair of their points is then as far apart as that pair. *)
Lemma pushed_apart (hx hz g G k d : R) :
  0 <= d -> d * d = hx * hx + g * g + hz * hz ->
  0 <= k -> 0 <= g * (G - g) ->
  d * (1 + k)
  <= sqrt ((hx + hx * k) * (hx + hx * k) + (G + g * k) * (G + g * k)
           + (hz + hz * k) * (hz + hz * k)).
Proof.
  intros Hd Hdd Hk Hfirst.
  rewrite <- (sqrt_square (d * (1 + k))) by (apply Rmult_le_pos; lra).
  apply sqrt_le_1_alt.
  assert (E : (hx + hx * k) * (hx + hx * k) + (G + g * k) * (G + g * k)
              + (hz + hz * k) * (hz + hz * k) - d * (1 + k) * (d * (1 + k))
              = (G - g) * (G - g) + 2 * (1 + k) * (g * (G - g))).
  { replace (d * (1 + k) * (d * (1 + k))) with ((d * d) * ((1 + k) * (1 + k))) by ring.
    rewrite Hdd. ring. }
  pose proof (sq_nonneg (G - g)).
  assert (0 <= 2 * (1 + k) * (g * (G - g))) by (apply Rmult_le_pos; lra).
  lra.
Qed.

(** X22. Two overlapping capsule colliders with axes longer than 0.01 that
    do not touch each other, on different parents, neither a trigger and
    not both static, the nearest points of the two axes being [d] apart:
    the response has the unit direction from a nearest point of the axis
    of the second to a nearest point of the axis of the first, and the
    overlap is the sum of the radii less [d]; once [resolveCollision] has
    moved the parents, every point of the one axis is farther than [d]
    from every point of the other. *)
Theorem capsule_resolution_moves_apart (T : Scene) (a b : Collider) (ra ha rb hb d : R)
    (a1 a2 b1 b2 : Vector3.t) (pa pb : nat) :
  shape a = CapsuleShape ra ha a1 a2 ->
  shape b = CapsuleShape rb hb b1 b2 ->
  1 / 100 < axis_length a -> 1 / 100 < axis_length b ->
  parent a = Some pa -> parent b = Some pb -> pa <> pb ->
  isTrigger a = false -> isTrigger b = false ->
  isStatic a && isStatic b = false ->
  let a0 := CollisionSystem.updateWorldPosition T a in
  let b0 := CollisionSystem.updateWorldPosition T b in
  (forall p q, capsule_axis_point a0 p -> capsule_axis_point b0 q ->
     d <= Vector3.distanceTo p q) ->
  (exists p q, capsule_axis_point a0 p /\ capsule_axis_point b0 q /\
     Vector3.distanceTo p q = d) ->
  0 < d < ra + rb ->
  let '(response, a', b') := CollisionSystem.getCollisionResponse T a b in
  exists r,
    response = Some r /\
    (exists p q, capsule_axis_point a0 p /\ capsule_axis_point b0 q /\
       Vector3.distanceTo p q = d /\
       direction r = Vector3.normalize (Vector3.subVectors p q)) /\
    Vector3.length (direction r) = 1 /\
    overlap r = ra + rb - d /\
    let T' := positions (CollisionSystem.resolveCollision a' b' r (mkWorld [a'; b'] T)) in
    let moved_a := CollisionSystem.updateWorldPosition T' a' in
    let moved_b := CollisionSystem.updateWorldPosition T' b' in
    forall p q, capsule_axis_point moved_a p -> capsule_axis_point moved_b q ->
      d < Vector3.distanceTo p q.
Proof.
  intros Ha Hb Hla Hlb Hpa Hpb Hne Hta Htb Hst a0 b0 Hleast Hsome Hd.
  unfold axis_length in Hla, Hlb. rewrite Ha in Hla. rewrite Hb in Hlb.
  assert (Hca : class a <> KCylinder) by (unfold class; rewrite Ha; discriminate).
  assert (Hcb : class b <> KCylinder) by (unfold class; rewrite Hb; discriminate).
  destruct (shape_updateWorldPosition T a Hca) as [Ea Hsa].
  destruct (shape_updateWorldPosition T b Hcb) as [Eb Hsb].
  unfold CollisionSystem.getCollisionResponse. fold a0 b0.
  rewrite Ha in Hsa. rewrite Hb in Hsb. rewrite <- Ea in Hsa. rewrite <- Eb in Hsb.
  fold a0 in Hsa. fold b0 in Hsb.
  unfold CollisionSystem.tagged, type. rewrite Hsa, Hsb. simpl.
  unfold CapsuleCollider.getCollisionResponse.
  destruct (capsule_closest_pair a0 b0 ra ha rb hb a1 a2 b1 b2 Hsa Hsb Hla Hlb)
    as (p & q & Heq & Hp & Hq & Hfirst).
  cbv zeta in Heq.
  assert (Htb0 : type b0 = CAPSULE) by (unfold type; rewrite Hsb; reflexivity).
  destruct (decide (type b0 = CAPSULE)) as [_|Hn]; [|contradiction].
  rewrite Heq.
  destruct (capsule_points a0 ra ha a1 a2 Hsa) as (_ & _ & Hra & Hwa).
  destruct (capsule_points b0 rb hb b1 b2 Hsb) as (_ & _ & Hrb & Hwb).
  rewrite Hra, Hrb, num_or_zero.
  assert (Hsa' : exists x y, shape (CapsuleCollider.updateCapsulePoints a0)
                             = CapsuleShape ra ha x y)
    by (unfold CapsuleCollider.updateCapsulePoints; rewrite Hsa; eexists; eexists; reflexivity).
  assert (Hsb' : exists x y, shape (CapsuleCollider.updateCapsulePoints b0)
                             = CapsuleShape rb hb x y)
    by (unfold CapsuleCollider.updateCapsulePoints; rewrite Hsb; eexists; eexists; reflexivity).
  destruct Hsa' as (a3 & a4 & Hsa'). destruct Hsb' as (b3 & b4 & Hsb').
  assert (Hk : forall (X : Type) (f : Collider -> X) (c : Collider),
             (forall c s, f (with_shape c s) = f c) ->
             f (CapsuleCollider.updateCapsulePoints c) = f c).
  { intros X f c Hf. unfold CapsuleCollider.updateCapsulePoints.
    destruct (shape c); try reflexivity. apply Hf. }
  set (a' := CapsuleCollider.updateCapsulePoints a0) in *.
  set (b' := CapsuleCollider.updateCapsulePoints b0) in *.
  assert (Hdist : Vector3.distanceTo p q = d).
  { apply Rle_antisym; [|apply Hleast; assumption].
    destruct Hsome as (p2 & q2 & Hp2 & Hq2 & <-).
    apply (axis_points_distance a0 b0); auto. }
  rewrite Hdist.
  set (v := Vector3.subVectors p q).
  assert (Hlen : Vector3.length v = d) by (rewrite <- Hdist; reflexivity).
  assert (Hl0 : Vector3.length v <> 0) by lra.
  eexists. split; [reflexivity|]. simpl.
  split; [exists p, q; auto|].
  split; [apply length_normalize, Hl0|].
  rewrite Rmax_right by lra. split; [reflexivity|].
  set (r := mkResponse (Vector3.normalize v) (ra + rb - d) (Vector3.normalize v)).
  assert (Hpa0 : parent a0 = Some pa /\ offset a0 = offset a).
  { unfold a0. rewrite Ea. unfold ColliderBase.updateWorldPosition. rewrite Hpa.
    split; [exact Hpa|reflexivity]. }
  assert (Hpb0 : parent b0 = Some pb /\ offset b0 = offset b).
  { unfold b0. rewrite Eb. unfold ColliderBase.updateWorldPosition. rewrite Hpb.
    split; [exact Hpb|reflexivity]. }
  assert (Hwa0 : worldPosition a0 = Vector3.add (T pa) (offset a)).
  { unfold a0. rewrite Ea. unfold ColliderBase.updateWorldPosition. rewrite Hpa.
    reflexivity. }
  assert (Hwb0 : worldPosition b0 = Vector3.add (T pb) (offset b)).
  { unfold b0. rewrite Eb. unfold ColliderBase.updateWorldPosition. rewrite Hpb.
    reflexivity. }
  assert (Hpa' : parent a' = Some pa)
    by (unfold a'; rewrite (Hk _ parent) by reflexivity; apply Hpa0).
  assert (Hpb' : parent b' = Some pb)
    by (unfold b'; rewrite (Hk _ parent) by reflexivity; apply Hpb0).
  assert (Hoa' : offset a' = offset a)
    by (unfold a'; rewrite (Hk _ offset) by reflexivity; apply Hpa0).
  assert (Hob' : offset b' = offset b)
    by (unfold b'; rewrite (Hk _ offset) by reflexivity; apply Hpb0).
  destruct (resolveCollision_relative a' b' r (mkWorld [a'; b'] T) pa pb)
    as (sa & sb & HTa & HTb & Hrel); try assumption.
  { unfold a'. rewrite (Hk _ isTrigger) by reflexivity. unfold a0.
    rewrite (kept_updateWorldPosition _ isTrigger (fun _ _ _ => eq_refl) (fun _ _ => eq_refl)).
    exact Hta. }
  { unfold b'. rewrite (Hk _ isTrigger) by reflexivity. unfold b0.
    rewrite (kept_updateWorldPosition _ isTrigger (fun _ _ _ => eq_refl) (fun _ _ => eq_refl)).
    exact Htb. }
  { unfold a', b'. rewrite !(Hk _ isStatic) by reflexivity. unfold a0, b0.
    rewrite !(kept_updateWorldPosition _ isStatic (fun _ _ _ => eq_refl) (fun _ _ => eq_refl)).
    exact Hst. }
  set (T' := positions (CollisionSystem.resolveCollision a' b' r (mkWorld [a'; b'] T))) in *.
  simpl in HTa, HTb.
  set (k := (ra + rb - d) / d).
  assert (Hk0 : 0 <= k) by (unfold k; apply Rle_mult_inv_pos; lra).
  assert (Hpush : Vector3.subVectors sa sb = Vector3.multiplyScalar v k).
  { rewrite Hrel. unfold r. simpl. rewrite (normalize_components v Hl0), Hlen.
    apply vector3_eq; simpl; unfold k; field; lra. }
  assert (Hsx : Vector3.x sa - Vector3.x sb = (Vector3.x p - Vector3.x q) * k)
    by exact (f_equal Vector3.x Hpush).
  assert (Hsy : Vector3.y sa - Vector3.y sb = (Vector3.y p - Vector3.y q) * k)
    by exact (f_equal Vector3.y Hpush).
  assert (Hsz : Vector3.z sa - Vector3.z sb = (Vector3.z p - Vector3.z q) * k)
    by exact (f_equal Vector3.z Hpush).
  assert (HR : ra + rb = d * (1 + k)) by (unfold k; field; lra).
  assert (Hca' : class a' <> KCylinder) by (unfold class; rewrite Hsa'; discriminate).
  assert (Hcb' : class b' <> KCylinder) by (unfold class; rewrite Hsb'; discriminate).
  destruct (shape_updateWorldPosition T' a' Hca') as [Ea5 Hsa5].
  destruct (shape_updateWorldPosition T' b' Hcb') as [Eb5 Hsb5].
  rewrite <- Ea5 in Hsa5. rewrite <- Eb5 in Hsb5. rewrite Hsa' in Hsa5. rewrite Hsb' in Hsb5.
  assert (Hwa5 : worldPosition (CollisionSystem.updateWorldPosition T' a')
                 = Vector3.add (Vector3.add (T pa) sa) (offset a)).
  { rewrite Ea5. unfold ColliderBase.updateWorldPosition. rewrite Hpa', Hoa', HTa.
    reflexivity. }
  assert (Hwb5 : worldPosition (CollisionSystem.updateWorldPosition T' b')
                 = Vector3.add (Vector3.add (T pb) sb) (offset b)).
  { rewrite Eb5. unfold ColliderBase.updateWorldPosition. rewrite Hpb', Hob', HTb.
    reflexivity. }
  set (a5 := CollisionSystem.updateWorldPosition T' a') in *.
  set (b5 := CollisionSystem.updateWorldPosition T' b') in *.
  assert (Hdd : d * d = (Vector3.x p - Vector3.x q) * (Vector3.x p - Vector3.x q)
                        + (Vector3.y p - Vector3.y q) * (Vector3.y p - Vector3.y q)
                        + (Vector3.z p - Vector3.z q) * (Vector3.z p - Vector3.z q)).
  { rewrite <- Hdist. unfold Vector3.distanceTo.
    rewrite sqrt_sqrt by apply distanceToSquared_nonneg. reflexivity. }
  unfold capsule_axis_point in Hp, Hq, Hfirst. rewrite Hsa, Hwa0 in Hp, Hfirst.
  rewrite Hsb, Hwb0 in Hq, Hfirst. simpl in Hp, Hq, Hfirst.
  destruct Hp as (Hpx & Hpz & Hpy). destruct Hq as (Hqx & Hqz & Hqy).
  assert (Hfar : forall p' q', capsule_axis_point a5 p' -> capsule_axis_point b5 q' ->
                   ra + rb <= Vector3.distanceTo p' q').
  { intros p' q' Hp' Hq'. unfold capsule_axis_point in Hp', Hq'.
    rewrite Hsa5, Hwa5 in Hp'. rewrite Hsb5, Hwb5 in Hq'. simpl in Hp', Hq'.
    destruct Hp' as (Hx & Hz & Hy). destruct Hq' as (Hx' & Hz' & Hy').
    specialize (Hfirst (Vector3.subVectors p' sa) (Vector3.subVectors q' sb)).
    simpl in Hfirst.
    assert (H1 : 0 <= (Vector3.y p - Vector3.y q)
                      * (Vector3.y p' - Vector3.y sa - (Vector3.y q' - Vector3.y sb)
                         - (Vector3.y p - Vector3.y q))).
    { apply Hfirst.
      - split; [lra|]. split; [lra|].
        replace (Vector3.y p' - Vector3.y sa - (Vector3.y (T pa) + Vector3.y (offset a)))
          with (Vector3.y p' - (Vector3.y (T pa) + Vector3.y sa + Vector3.y (offset a)))
          by ring.
        exact Hy.
      - split; [lra|]. split; [lra|].
        replace (Vector3.y q' - Vector3.y sb - (Vector3.y (T pb) + Vector3.y (offset b)))
          with (Vector3.y q' - (Vector3.y (T pb) + Vector3.y sb + Vector3.y (offset b)))
          by ring.
        exact Hy'. }
    rewrite HR.
    eapply Rle_trans; [apply (pushed_apart _ _ _ _ k d (Rlt_le _ _ (proj1 Hd)) Hdd Hk0 H1)|].
    apply sqrt_le_1_alt. unfold Vector3.distanceToSquared. cbv zeta.
    right. f_equal; [f_equal|]; f_equal; lra. }
  intros p' q' Hp' Hq'.
  eapply Rlt_le_trans; [|apply Hfar; assumption]. lra.
Qed.

Lemma character_npc_shapes (refp ref1 modelp model1 : nat) (uuidp uuid1 id1 : string) :
  shape (Character.collider refp uuidp modelp)
  = CapsuleShape (4 / 10) (18 / 10) Vector3.zero Vector3.zero /\
  shape (NPC.collider ref1 uuid1 model1 id1)
  = CapsuleShape (1 / 2) 2 Vector3.zero Vector3.zero.
Proof.
  unfold Character.collider, NPC.collider, CapsuleCollider.constructor. simpl.
  unfold num_or. rewrite !num_eq_false by lra. split; reflexivity.
Qed.

Lemma capsule_resolution_moves_apart_witness :
  let player := Character.collider 0 "p" 0 in
  let npc := NPC.collider 1 "n" 1 "npc-1" in
  let a0 := CollisionSystem.updateWorldPosition npcBeside player in
  let b0 := CollisionSystem.updateWorldPosition npcBeside npc in
  let '(response, a', b') := CollisionSystem.getCollisionResponse npcBeside player npc in
  exists r,
    response = Some r /\
    (exists p q, capsule_axis_point a0 p /\ capsule_axis_point b0 q /\
       Vector3.distanceTo p q = 6 / 10 /\
       direction r = Vector3.normalize (Vector3.subVectors p q)) /\
    Vector3.length (direction r) = 1 /\
    overlap r = 4 / 10 + 1 / 2 - 6 / 10 /\
    let T' := positions (CollisionSystem.resolveCollision a' b' r
                           (mkWorld [a'; b'] npcBeside)) in
    let moved_a := CollisionSystem.updateWorldPosition T' a' in
    let moved_b := CollisionSystem.updateWorldPosition T' b' in
    forall p q, capsule_axis_point moved_a p -> capsule_axis_point moved_b q ->
      6 / 10 < Vector3.distanceTo p q.
Proof.
  destruct (character_npc_shapes 0 1 0 1 "p" "n" "npc-1") as [Hs1 Hs2].
  assert (Hhalf : Rabs ((18 / 10 - 4 / 10 * 2) / 2) = 1 / 2)
    by (replace ((18 / 10 - 4 / 10 * 2) / 2) with (1 / 2) by field;
        apply Rabs_pos_eq; lra).
  assert (Hhalf' : Rabs ((2 - 1 / 2 * 2) / 2) = 1 / 2)
    by (replace ((2 - 1 / 2 * 2) / 2) with (1 / 2) by field;
        apply Rabs_pos_eq; lra).
  apply (capsule_resolution_moves_apart npcBeside (Character.collider 0 "p" 0)
           (NPC.collider 1 "n" 1 "npc-1") (4 / 10) (18 / 10) (1 / 2) 2 (6 / 10)
           Vector3.zero Vector3.zero Vector3.zero Vector3.zero 0 1
           Hs1 Hs2).
  - unfold axis_length. rewrite Hs1.
    replace (18 / 10 - 4 / 10 * 2) with 1 by field. rewrite Rabs_R1. lra.
  - unfold axis_length. rewrite Hs2.
    replace (2 - 1 / 2 * 2) with 1 by field. rewrite Rabs_R1. lra.
  - reflexivity.
  - reflexivity.
  - lia.
  - reflexivity.
  - reflexivity.
  - reflexivity.
  - intros p q. unfold capsule_axis_point. simpl.
    unfold num_or. rewrite !num_eq_false by lra. simpl.
    intros (Hx & Hz & _) (Hx' & Hz' & _).
    rewrite <- (sqrt_square (6 / 10)) by lra.
    apply sqrt_le_1_alt. unfold Vector3.distanceToSquared. cbv zeta.
    rewrite Hx, Hx', Hz, Hz'.
    pose proof (sq_nonneg (Vector3.y p - Vector3.y q)). lra.
  - exists (Vector3.mk 0 1 0), (Vector3.mk (6 / 10) 1 0).
    unfold capsule_axis_point. simpl. unfold num_or. rewrite !num_eq_false by lra. simpl.
    rewrite Hhalf, Hhalf'.
    split; [split; [lra|split; [lra|]]|split; [split; [lra|split; [lra|]]|]].
    + apply Rabs_le. lra.
    + apply Rabs_le. lra.
    + unfold Vector3.distanceTo, Vector3.distanceToSquared. simpl.
      apply sqrt_of_square; lra.
  - lra.
Defined.
(** ** Constructors, and the colliders of the character and the NPCs *)

Lemma land_ALL (l : N) : (l < 2 ^ 32)%N -> N.land CollisionLayer.ALL l = l.
Proof.
  intros Hl. rewrite N.land_comm.
  change CollisionLayer.ALL with (N.ones 32).
  rewrite N.land_ones. apply N.mod_small, Hl.
Qed.

(** X23. The constructor reads a layer or a mask of 0 as absent: a
    collider never has layer NONE or mask NONE, a layer given as NONE
    becomes ENVIRONMENT and a mask given as NONE becomes ALL.  So a
    collider built with [collidesWithMask: CollisionLayer.NONE] can still
    collide with every other enabled collider whose mask lets in its
    layer. *)
Theorem constructor_mask_none (ref : nat) (uuid : string) (fields : Shape)
    (options : Options) (other : Collider) :
  let c := ColliderBase.constructor ref uuid fields options in
  layer c <> CollisionLayer.NONE /\
  collidesWithMask c <> CollisionLayer.NONE /\
  (opt_layer options = Some CollisionLayer.NONE -> layer c = CollisionLayer.ENVIRONMENT) /\
  (opt_collidesWithMask options = Some CollisionLayer.NONE ->
   collidesWithMask c = CollisionLayer.ALL /\
   (enabled other = true -> self other <> ref ->
    (0 < layer other < 2 ^ 32)%N ->
    N.land (collidesWithMask other) (layer c) <> 0%N ->
    ColliderBase.canCollideWith c other = true)).
Proof.
  intros c. unfold c, ColliderBase.constructor. simpl.
  assert (Hor : forall a d, d <> 0%N -> mask_or a d <> 0%N).
  { intros [n|] d Hd; simpl; [|exact Hd].
    destruct (N.eqb n 0) eqn:E; [exact Hd|]. apply N.eqb_neq, E. }
  split; [apply Hor; discriminate|]. split; [apply Hor; discriminate|].
  split; [intros ->; reflexivity|].
  intros ->. split; [reflexivity|].
  intros Hen Hself Hl Hmask.
  unfold ColliderBase.canCollideWith. simpl. rewrite Hen. simpl.
  destruct (Nat.eqb ref (self other)) eqn:E;
    [apply Nat.eqb_eq in E; congruence|].
  destruct Hl as [Hl0 Hl32].
  rewrite land_ALL by exact Hl32.
  apply andb_true_iff. split; apply negb_true_iff, N.eqb_neq; [lia|exact Hmask].
Qed.

Lemma constructor_mask_none_witness :
  let c := ColliderBase.constructor 5 "u" (SphereShape 1)
             (mkOptions None None (Some CollisionLayer.NONE) None None None None
                false false false None None None) in
  ColliderBase.canCollideWith c sphereA = true.
Proof.
  intros c.
  destruct (constructor_mask_none 5 "u" (SphereShape 1)
              (mkOptions None None (Some CollisionLayer.NONE) None None None None
                 false false false None None None) sphereA) as (_ & _ & _ & H).
  destruct (H eq_refl) as [_ H'].
  apply H'; [reflexivity|simpl; lia|split; reflexivity|discriminate].
Defined.

(** X24. The colliders that the character and the NPCs build: two NPCs
    never collide with each other, whatever their ids and models; the
    character and an NPC, being different objects, can collide in either
    order; and as the NPC is static and the character is not, resolving
    their collision moves the model of the character by the whole push
    and leaves every other position, that of the NPC included, as it
    was. *)
Theorem character_and_npcs (ref1 ref2 refp model1 model2 modelp : nat)
    (uuid1 uuid2 uuidp id1 id2 : string) (r : Response) (w : World) :
  let npc1 := NPC.collider ref1 uuid1 model1 id1 in
  let npc2 := NPC.collider ref2 uuid2 model2 id2 in
  let player := Character.collider refp uuidp modelp in
  ColliderBase.canCollideWith npc1 npc2 = false /\
  (refp <> ref1 ->
   ColliderBase.canCollideWith player npc1 = true /\
   ColliderBase.canCollideWith npc1 player = true) /\
  let push := Vector3.multiplyScalar (direction r) (overlap r) in
  positions (CollisionSystem.resolveCollision player npc1 r w) modelp
  = Vector3.add (positions w modelp) push /\
  positions (CollisionSystem.resolveCollision npc1 player r w) modelp
  = Vector3.sub (positions w modelp) push /\
  (forall p, p <> modelp ->
     positions (CollisionSystem.resolveCollision player npc1 r w) p = positions w p /\
     positions (CollisionSystem.resolveCollision npc1 player r w) p = positions w p).
Proof.
  intros npc1 npc2 player.
  split; [|split; [|split; [|split]]].
  - unfold ColliderBase.canCollideWith. simpl.
    destruct (Nat.eqb ref1 ref2); reflexivity.
  - intros Hne. unfold ColliderBase.canCollideWith. simpl.
    destruct (Nat.eqb refp ref1) eqn:E; [apply Nat.eqb_eq in E; contradiction|].
    rewrite Nat.eqb_sym, E. split; reflexivity.
  - unfold CollisionSystem.resolveCollision. simpl. apply set_position_same.
  - unfold CollisionSystem.resolveCollision. simpl. apply set_position_same.
  - intros p Hp. unfold CollisionSystem.resolveCollision. simpl.
    split; apply set_position_other, Hp.
Qed.
(** ** One update, and a run of updates, for ids without a colon *)

(** X25. After an update that completes nothing is left of colliders that
    are not registered: the registry has the same ids in the same order,
    every callback it invoked was on a registered collider with a
    registered collider, and no active set holds an id that is not
    registered. *)
Theorem update_leaves_registered_ids (w w' : World) (ev : list Event) :
  CollisionSystem.update w = Normal (w', ev) ->
  map id (colliders w') = map id (colliders w) /\
  (forall e, e ∈ ev ->
     exists a b, a ∈ colliders w /\ b ∈ colliders w /\
                 receiver e = id a /\ partner e = id b) /\
  (forall c k, c ∈ colliders w' -> k ∈ activeCollisions c ->
     exists other, CollisionSystem.getCollider w' k = Some other).
Proof.
  intros Hup. destruct (update_registered w w' ev Hup) as (Hids & Hev & Hact).
  split; [exact Hids|]. split.
  - intros e He. rewrite Forall_forall in Hev. destruct (Hev e He) as [Hr Hp].
    apply list_elem_of_fmap in Hr as (a & Hra & Ha).
    apply list_elem_of_fmap in Hp as (b & Hpb & Hb).
    exists a, b. tauto.
  - intros c k Hc Hk. rewrite Forall_forall in Hact.
    pose proof (Hact c Hc k Hk) as Hin. rewrite <- Hids in Hin.
    unfold CollisionSystem.getCollider.
    destruct (CollisionSystem.get (colliders w') k) as [other|] eqn:E;
      [exists other; reflexivity|].
    apply get_None in E. contradiction.
Qed.

Lemma update_leaves_registered_ids_witness :
  exists w' ev,
    CollisionSystem.update beforeContact = Normal (w', ev) /\
    map id (colliders w') = map id (colliders beforeContact) /\
    (forall e, e ∈ ev ->
       exists a b, a ∈ colliders beforeContact /\ b ∈ colliders beforeContact /\
                   receiver e = id a /\ partner e = id b) /\
    (forall c k, c ∈ colliders w' -> k ∈ activeCollisions c ->
       exists other, CollisionSystem.getCollider w' k = Some other).
Proof.
  assert (Hup : exists w' ev, CollisionSystem.update beforeContact = Normal (w', ev))
    by (eexists; eexists; run_update 1).
  destruct Hup as (w' & ev & Hup). exists w', ev. split; [exact Hup|].
  apply (update_leaves_registered_ids beforeContact w' ev Hup).
Defined.

(** X26. One update that completes, seen from two registered colliders
    whose ids, like all registered ids, hold no colon, each holding the
    other's id or neither: afterwards each holds the other's id exactly
    when the pair loop found them overlapping, and each has been called
    with [onCollisionEnter] if they overlap and did not before, with
    [onCollisionStay] if they overlap and did before, with
    [onCollisionExit] if they did before and no longer overlap, each once
    and only if installed, and with nothing else. *)
Theorem update_tracks_contact (w w' : World) (ev : list Event) (i j : nat) (A B : Collider)
    (was hit : bool) :
  well_formed w ->
  Forall (fun k => colon_free k = true) (map id (colliders w)) ->
  (i < j)%nat ->
  colliders w !! i = Some A -> colliders w !! j = Some B ->
  set_has (id B) (activeCollisions A) = was ->
  set_has (id A) (activeCollisions B) = was ->
  CollisionSystem.update w = Normal (w', ev) ->
  detects w i j = Some hit ->
  exists A' B',
    colliders w' !! i = Some A' /\ colliders w' !! j = Some B' /\
    id A' = id A /\ id B' = id B /\
    set_has (id B) (activeCollisions A') = hit /\
    set_has (id A) (activeCollisions B') = hit /\
    callbacks (id A) (id B) ev = expected A was hit /\
    callbacks (id B) (id A) ev = expected B was hit.
Proof.
  intros Hwf Hfree Hij HA HB HwA HwB Hup Hdet.
  destruct (pair_tick w w' ev i j A B was hit Hwf (colon_free_unambiguous _ Hfree)
              Hij HA HB HwA HwB Hup Hdet)
    as (A' & B' & H1 & H2 & H3 & H4 & _ & _ & H7 & H8 & H9 & H10).
  exists A', B'. repeat split; assumption.
Qed.

Lemma beforeContact_well_formed : well_formed beforeContact.
Proof.
  unfold well_formed, wf_books. simpl. split.
  - apply NoDup_cons. split; [|apply NoDup_singleton].
    intros H. apply list_elem_of_singleton in H. discriminate.
  - repeat constructor; apply not_elem_of_nil.
Defined.

Lemma update_tracks_contact_witness :
  exists w' ev A' B',
    CollisionSystem.update beforeContact = Normal (w', ev) /\
    colliders w' !! 0%nat = Some A' /\ colliders w' !! 1%nat = Some B' /\
    id A' = "P" /\ id B' = "R" /\
    set_has "R" (activeCollisions A') = true /\
    set_has "P" (activeCollisions B') = true /\
    callbacks "P" "R" ev = [Enter] /\
    callbacks "R" "P" ev = [Enter].
Proof.
  assert (Hup : exists w' ev, CollisionSystem.update beforeContact = Normal (w', ev))
    by (eexists; eexists; run_update 1).
  destruct Hup as (w' & ev & Hup).
  assert (Hdet : detects beforeContact 0 1 = Some true)
    by (reval; rdecide; reflexivity).
  destruct (update_tracks_contact beforeContact w' ev 0 1 partnerP removedR false true
              beforeContact_well_formed ltac:(repeat constructor) ltac:(lia)
              eq_refl eq_refl eq_refl eq_refl Hup Hdet)
    as (A' & B' & H).
  exists w', ev, A', B'. split; [exact Hup|exact H].
Defined.

(** X27. The life of a pair over a run of updates that complete, when no
    registered id holds a colon: two colliders with every callback
    installed that start out of contact are each called with
    [onCollisionEnter] on the first update that finds them overlapping,
    [onCollisionStay] on each update after it that still does, and
    [onCollisionExit] on the first that does not; [onCollisionEnter] is
    never called twice without an [onCollisionExit] between. *)
Theorem pair_lifecycle_colon_free (i j n : nat) (w w' : World) (A B : Collider)
    (hits : list bool) (evs : list Event) :
  well_formed w ->
  Forall (fun k => colon_free k = true) (map id (colliders w)) ->
  (i < j)%nat ->
  colliders w !! i = Some A -> colliders w !! j = Some B ->
  (book A).2 = (true, true, true) -> (book B).2 = (true, true, true) ->
  set_has (id B) (activeCollisions A) = false ->
  set_has (id A) (activeCollisions B) = false ->
  Run i j w hits evs w' ->
  callbacks (id A) (id B) evs = lifecycle false hits /\
  callbacks (id B) (id A) evs = lifecycle false hits /\
  (hits = true :: repeat true n ++ [false] ->
   callbacks (id A) (id B) evs = Enter :: repeat Stay n ++ [Exit] /\
   callbacks (id B) (id A) evs = Enter :: repeat Stay n ++ [Exit]) /\
  bracketed false (callbacks (id A) (id B) evs) = true /\
  bracketed false (callbacks (id B) (id A) evs) = true.
Proof.
  intros Hwf Hfree Hij HA HB HhA HhB HwA HwB Hrun.
  destruct (run_lifecycle i j w w' hits evs Hrun A B false Hwf
              (colon_free_unambiguous _ Hfree) Hij HA HB HhA HhB HwA HwB) as [Ha Hb].
  rewrite Ha, Hb. split; [reflexivity|]. split; [reflexivity|].
  split; [|split; apply lifecycle_bracketed].
  intros ->. rewrite lifecycle_overlap. split; reflexivity.
Qed.

Lemma pair_lifecycle_colon_free_witness :
  exists evs w,
    Run 0 1 beforeContact [true; true; false] evs w /\
    callbacks "P" "R" evs = [Enter; Stay; Exit] /\
    callbacks "R" "P" evs = [Enter; Stay; Exit].
Proof.
  assert (Hrun : exists evs w, Run 0 1 beforeContact [true; true; false] evs w).
  { eexists. eexists.
    eapply (run_tick 0 1 _ (colliders beforeContact) (positions beforeContact)).
    - reflexivity.
    - run_update 1.
    - reval. rdecide. reflexivity.
    - eapply (run_tick 0 1 _ (colliders inContact) (positions inContact)).
      + reflexivity.
      + run_update 1.
      + reval. rdecide. reflexivity.
      + eapply (run_tick 0 1 _ movedApart (fun _ => Vector3.zero)).
        * reflexivity.
        * run_update 1.
        * reval. rdecide. reflexivity.
        * apply run_nil. }
  destruct Hrun as (evs & w & Hrun). exists evs, w. split; [exact Hrun|].
  destruct (pair_lifecycle_colon_free 0 1 1 beforeContact w partnerP removedR
              [true; true; false] evs beforeContact_well_formed
              ltac:(repeat constructor) ltac:(lia)
              eq_refl eq_refl eq_refl eq_refl eq_refl eq_refl Hrun)
    as (_ & _ & H & _).
  apply H. reflexivity.
Defined.
(** ** Responses that ignore the shapes *)

(** X28. For a box first and a box or capsule second, and for a collider
    tagged SPHERE first and a capsule second, [getCollisionResponse] has no
    case: the response is the fallback, the direction from the centre of
    the second to the centre of the first with an overlap of 0.1, whatever
    the sizes and however deep the two overlap. *)
Theorem fallback_response (T : Scene) (a b : Collider) :
  (type a = BOX /\ type b <> SPHERE) \/ (type a = SPHERE /\ type b = CAPSULE) ->
  let a' := CollisionSystem.updateWorldPosition T a in
  let b' := CollisionSystem.updateWorldPosition T b in
  let d := Vector3.normalize (Vector3.subVectors (worldPosition a') (worldPosition b')) in
  CollisionSystem.getCollisionResponse T a b = (Some (mkResponse d (1 / 10) d), a', b').
Proof.
  intros Hty a' b' d. unfold CollisionSystem.getCollisionResponse. fold a' b'.
  assert (Ha : type a' = type a) by apply type_updateWorldPosition.
  assert (Hb : type b' = type b) by apply type_updateWorldPosition.
  unfold CollisionSystem.tagged. rewrite Ha, Hb.
  destruct Hty as [[-> Hnb]|[-> ->]]; [|reflexivity].
  destruct (type b); [contradiction|reflexivity|reflexivity].
Qed.

Lemma fallback_response_witness :
  let T := fun _ : nat => Vector3.zero in
  let a' := CollisionSystem.updateWorldPosition T boxLeft in
  let b' := CollisionSystem.updateWorldPosition T boxRight in
  let d := Vector3.normalize (Vector3.subVectors (worldPosition a') (worldPosition b')) in
  CollisionSystem.getCollisionResponse T boxLeft boxRight
  = (Some (mkResponse d (1 / 10) d), a', b').
Proof.
  apply (fallback_response (fun _ => Vector3.zero) boxLeft boxRight).
  left. split; [reflexivity|discriminate].
Defined.

Lemma position_add_zero (T : Scene) (p : option nat) (v : Vector3.t) (q : nat) :
  v = Vector3.mk 0 0 0 -> CollisionSystem.position_add T p v q = T q.
Proof.
  intros ->. unfold CollisionSystem.position_add. destruct p as [p|]; [|reflexivity].
  unfold set_position. destruct (decide (q = p)) as [->|]; [|reflexivity].
  apply vector3_eq; simpl; ring.
Qed.

Lemma position_sub_zero (T : Scene) (p : option nat) (v : Vector3.t) (q : nat) :
  v = Vector3.mk 0 0 0 -> CollisionSystem.position_sub T p v q = T q.
Proof.
  intros ->. unfold CollisionSystem.position_sub. destruct p as [p|]; [|reflexivity].
  unfold set_position. destruct (decide (q = p)) as [->|]; [|reflexivity].
  apply vector3_eq; simpl; ring.
Qed.

Lemma resolveCollision_no_overlap (a b : Collider) (r : Response) (w : World) (q : nat) :
  overlap r = 0 -> positions (CollisionSystem.resolveCollision a b r w) q = positions w q.
Proof.
  intros Ho. unfold CollisionSystem.resolveCollision. rewrite Ho.
  assert (Hz : Vector3.multiplyScalar (direction r) 0 = Vector3.mk 0 0 0)
    by (apply vector3_eq; simpl; ring).
  assert (Hh : Vector3.multiplyScalar (Vector3.multiplyScalar (direction r) 0) (1 / 2)
               = Vector3.mk 0 0 0)
    by (apply vector3_eq; simpl; ring).
  destruct (isTrigger a || isTrigger b); [reflexivity|].
  destruct (isStatic a && isStatic b); [reflexivity|].
  destruct (isStatic a); [simpl; apply position_sub_zero, Hz|].
  destruct (isStatic b); [simpl; apply position_add_zero, Hz|].
  simpl. rewrite position_sub_zero by exact Hh. apply position_add_zero, Hh.
Qed.

(** X29. The response for a capsule first, its height not twice its
    radius, and a box second takes the box for the point at its centre:
    the overlap is the radius of the capsule less the distance of that
    centre from the axis of the capsule, and 0 when the centre is farther
    than that, whatever the size of the box.  Resolving the collision then
    moves nothing, even if [checkCollision] reported the pair. *)
Theorem capsule_box_response (T : Scene) (a b : Collider) (ra ha : R)
    (a1 a2 size mn mx : Vector3.t) :
  shape a = CapsuleShape ra ha a1 a2 ->
  ha <> ra * 2 ->
  shape b = BoxShape size mn mx ->
  let '(response, a', b') := CollisionSystem.getCollisionResponse T a b in
  let closest :=
    CapsuleCollider.closestPointOnSegment (worldPosition b')
      (CapsuleCollider.pointA a') (CapsuleCollider.pointB a') in
  exists r,
    response = Some r /\
    b' = CollisionSystem.updateWorldPosition T b /\
    direction r = Vector3.normalize (Vector3.subVectors closest (worldPosition b')) /\
    overlap r = Rmax 0 (ra - Vector3.distanceTo closest (worldPosition b')) /\
    (ra <= Vector3.distanceTo closest (worldPosition b') ->
     forall w q, positions (CollisionSystem.resolveCollision a' b' r w) q = positions w q).
Proof.
  intros Ha _ Hb. unfold CollisionSystem.getCollisionResponse.
  assert (Hca : class a <> KCylinder) by (unfold class; rewrite Ha; discriminate).
  assert (Hcb : class b <> KCylinder) by (unfold class; rewrite Hb; discriminate).
  destruct (shape_updateWorldPosition T a Hca) as [Ea Hsa].
  destruct (shape_updateWorldPosition T b Hcb) as [Eb Hsb].
  rewrite Ea, Eb.
  set (a' := ColliderBase.updateWorldPosition T a) in *.
  set (b' := ColliderBase.updateWorldPosition T b) in *.
  rewrite Ha in Hsa. rewrite Hb in Hsb.
  unfold CollisionSystem.tagged, type. rewrite Hsa, Hsb. simpl.
  unfold CapsuleCollider.getCollisionResponse.
  assert (Htb : type b' <> CAPSULE) by (unfold type; rewrite Hsb; discriminate).
  destruct (decide (type b' = CAPSULE)) as [E|_]; [contradiction|].
  simpl.
  destruct (capsule_points a' ra ha a1 a2 Hsa) as (_ & _ & Hr & _). rewrite Hr.
  assert (Hrb : radius b' = 0) by (unfold radius; rewrite Hsb; reflexivity).
  rewrite Hrb. unfold num_or. rewrite num_eq_true by reflexivity.
  replace (ra + 0) with ra by ring.
  eexists. split; [reflexivity|]. split; [reflexivity|]. split; [reflexivity|].
  split; [reflexivity|].
  intros Hfar w q. apply resolveCollision_no_overlap. simpl.
  apply Rmax_left. lra.
Qed.

Lemma capsule_box_response_witness :
  let cap := collider_at 0 "cap" (CapsuleShape 1 4 Vector3.zero Vector3.zero) false
               (Vector3.mk (11 / 2) 0 0) in
  let wall := collider_at 1 "wall" (BoxShape (Vector3.mk 10 10 10) Vector3.zero Vector3.zero)
                true Vector3.zero in
  let '(response, a', b') :=
    CollisionSystem.getCollisionResponse (fun _ => Vector3.zero) cap wall in
  let closest :=
    CapsuleCollider.closestPointOnSegment (worldPosition b')
      (CapsuleCollider.pointA a') (CapsuleCollider.pointB a') in
  exists r,
    response = Some r /\
    b' = CollisionSystem.updateWorldPosition (fun _ => Vector3.zero) wall /\
    direction r = Vector3.normalize (Vector3.subVectors closest (worldPosition b')) /\
    overlap r = Rmax 0 (1 - Vector3.distanceTo closest (worldPosition b')) /\
    (1 <= Vector3.distanceTo closest (worldPosition b') ->
     forall w q, positions (CollisionSystem.resolveCollision a' b' r w) q = positions w q).
Proof.
  intros cap wall.
  apply (capsule_box_response (fun _ => Vector3.zero) cap wall 1 4
           Vector3.zero Vector3.zero (Vector3.mk 10 10 10) Vector3.zero Vector3.zero);
    [reflexivity|lra|reflexivity].
Defined.
(** ** The pairs an update tests *)

Lemma length_pairs_from (n k a : nat) :
  (a + k = n)%nat ->
  (2 * length (flat_map (fun i => map (fun j => (i, j)) (seq (S i) (n - S i))) (seq a k))
   = k * (k - 1))%nat.
Proof.
  revert a. induction k as [|k IH]; intros a Hn; [reflexivity|].
  simpl seq. simpl flat_map. rewrite length_app, length_map, length_seq.
  specialize (IH (S a) ltac:(lia)).
  replace (n - S a)%nat with k by lia.
  destruct k as [|k]; simpl in *; lia.
Qed.

(** X30. The two nested loops of [update] run over every pair of places
    i < j of the array of colliders, each pair once: n (n - 1) / 2 pair
    tests for n registered colliders, and none of a collider with
    itself. *)
Theorem pairs_complete (n : nat) :
  NoDup (CollisionSystem.pairs n) /\
  (forall i j, (i, j) ∈ CollisionSystem.pairs n <-> (i < j < n)%nat) /\
  (2 * length (CollisionSystem.pairs n) = n * (n - 1))%nat.
Proof.
  split; [apply pairs_NoDup|]. split; [intros i j; apply pairs_spec|].
  apply length_pairs_from. reflexivity.
Qed.
